(** * Verification of the redis-note core: dict.c, ae.c and lazyfree.c

    A shallow embedding of the incrementally rehashed hash table
    ([dict.c]), of the event loop ([ae.c]) and of the lazy-free decision
    layer ([lazyfree.c]), with the properties of the specification proved
    (or refuted) over the embedded definitions.

    Conventions.
    - C integers are [Z]; where the source relies on 64-bit wrap-around
      (the scan cursor, [used * 2]) the reduction modulo [2^64] is written
      out.  [unsigned long] is 64 bits wide (LP64).
    - A bucket is the list of the entries of its chain, head first; a bucket
      array is a list of buckets and the [NULL] array is the empty list
      (an allocated array always has at least [DICT_HT_INITIAL_SIZE] slots).
    - A C function that can hit an [assert] or read outside an array returns
      in [res]: [Ret] for a normal return, [Fault] for the failed assertion
      or the wild read, [OutOfFuel] when the loop budget of the model is
      used up (shown to be unreachable where that matters).
    - Function pointers are addresses ([Z], [0] for [NULL]); what the
      functions behind them do is a parameter of the model.  The loops of
      ae.c return the list of the callbacks they called, in order, next to
      their result.
    - Destructor calls and [zfree] are recorded as events, in the order the
      source makes them. *)

From Stdlib Require Import ZArith List Lia Bool.
From stdpp Require Import base tactics option list numbers.

Local Open Scope Z_scope.

(** ** Outcomes of a C call *)

Inductive res (A : Type) : Type :=
| Ret (a : A)
| Fault
| OutOfFuel.
Arguments Ret {A} a.
Arguments Fault {A}.
Arguments OutOfFuel {A}.

#[global] Instance res_ret : MRet res := fun A a => Ret a.
#[global] Instance res_bind : MBind res := fun A B f m =>
  match m with
  | Ret a => f a
  | Fault => Fault
  | OutOfFuel => OutOfFuel
  end.

Definition is_ret {A} (m : res A) : Prop := exists a, m = Ret a.

(** Case analysis on the first call of a sequence [x ← m; k] that is known
    to return: [m] returned too. *)
Ltac bind_case H :=
  match type of H with
  | @mbind _ _ _ _ _ ?m = _ =>
    let E := fresh "E" in
    destruct m eqn:E; cbn [mbind res_bind] in H; try discriminate H
  end.

(** [unsigned long] arithmetic. *)
Definition ULONG_BITS : Z := 64.
Definition ULONG_MOD : Z := 2 ^ 64.
Definition ULONG_MAX : Z := 2 ^ 64 - 1.
Definition LONG_MAX : Z := 2 ^ 63 - 1.
Definition to_ulong (x : Z) : Z := x mod ULONG_MOD.
(** [~x] on an [unsigned long]. *)
Definition ulong_not (x : Z) : Z := Z.lxor x ULONG_MAX.
(** The values of an [unsigned long]. *)
Definition in_ulong (x : Z) : Prop := 0 <= x < 2 ^ 64.

(** [int] arithmetic: 32 bits, two's complement; a result outside the
    range wraps around, which is what the compiled code does. *)
Definition INT_MAX : Z := 2 ^ 31 - 1.
Definition INT_MIN : Z := - 2 ^ 31.
Definition to_int (x : Z) : Z := (x + 2 ^ 31) mod 2 ^ 32 - 2 ^ 31.

(** ** dict.c *)

Module Dict.

Definition DICT_OK : Z := 0.
Definition DICT_ERR : Z := 1.
Definition DICT_HT_INITIAL_SIZE : Z := 4.
Definition dict_force_resize_ratio : Z := 5.

Section Dict.

Context {K V : Type}.

(** The type descriptor of the dictionary ([dictType]).  [hashFunction] is
    [type->hashFunction]; [keyCompare k1 k2] is the test
    [key == he->key || dictCompareKeys(d, key, he->key)] that every chain
    walk of dict.c performs; [keyDup] and [valDup] are the duplicators (the
    identity when the descriptor has none); the two booleans tell whether
    the descriptor has a key, respectively a value, destructor. *)
Variable hashFunction : K -> Z.
Variable keyCompare : K -> K -> bool.
Variable keyDup : K -> K.
Variable valDup : V -> V.
Variable keyDestructor : bool.
Variable valDestructor : bool.

(** [dictEntry]: the [next] pointer is the tail of the bucket list;
    [v.val] is [None] while unset or [NULL]. *)
Record dictEntry : Type := mkEntry {
  key : K;
  val : option V
}.

Abbreviation bucket := (list dictEntry).

Record dictht : Type := mkHt {
  table : list bucket;
  size : Z;
  sizemask : Z;
  used : Z
}.

Record dict : Type := mkDict {
  ht0 : dictht;
  ht1 : dictht;
  rehashidx : Z;
  iterators : Z
}.

Definition set_ht0 (d : dict) (h : dictht) : dict :=
  mkDict h (ht1 d) (rehashidx d) (iterators d).
Definition set_ht1 (d : dict) (h : dictht) : dict :=
  mkDict (ht0 d) h (rehashidx d) (iterators d).
Definition set_rehashidx (d : dict) (i : Z) : dict :=
  mkDict (ht0 d) (ht1 d) i (iterators d).
Definition set_iterators (d : dict) (n : Z) : dict :=
  mkDict (ht0 d) (ht1 d) (rehashidx d) n.
Definition set_table (h : dictht) (t : list bucket) : dictht :=
  mkHt t (size h) (sizemask h) (used h).
Definition set_used (h : dictht) (u : Z) : dictht :=
  mkHt (table h) (size h) (sizemask h) u.

(** Macros of dict.h. *)
Definition dictHashKey (k : K) : Z := hashFunction k.
Definition dictSize (d : dict) : Z := used (ht0 d) + used (ht1 d).
Definition dictSlots (d : dict) : Z := size (ht0 d) + size (ht1 d).
Definition dictIsRehashing (d : dict) : bool := negb (rehashidx d =? -1).

(** [t[i]] with the bounds the C code takes for granted made explicit. *)
Definition bucket_get (t : list bucket) (i : Z) : res bucket :=
  if i <? 0 then Fault
  else match t !! Z.to_nat i with
       | Some b => Ret b
       | None => Fault
       end.

Definition bucket_set (t : list bucket) (i : Z) (b : bucket) : list bucket :=
  <[Z.to_nat i := b]> t.

Definition table_is_null (t : list bucket) : bool :=
  match t with [] => true | _ => false end.

Definition _dictReset : dictht := mkHt [] 0 0 0.

Definition dictCreate : dict := mkDict _dictReset _dictReset (-1) 0.

(** [_dictNextPower]: the doubling loop; 64 doublings overflow any
    [unsigned long], so the budget of the model is never the reason the
    loop stops (lemma [next_power_loop_ret]). *)
Fixpoint next_power_loop (fuel : nat) (i sz : Z) : option Z :=
  match fuel with
  | O => None
  | S f => if sz <=? i then Some i else next_power_loop f (i * 2) sz
  end.

Definition _dictNextPower (sz : Z) : Z :=
  if LONG_MAX <=? sz then LONG_MAX + 1
  else match next_power_loop 64 DICT_HT_INITIAL_SIZE sz with
       | Some i => i
       | None => 0
       end.

Definition dictExpand (d : dict) (sz : Z) : dict * Z :=
  if dictIsRehashing d || (sz <? used (ht0 d)) then (d, DICT_ERR)
  else
    let realsize := _dictNextPower sz in
    if realsize =? size (ht0 d) then (d, DICT_ERR)
    else
      let n := mkHt (replicate (Z.to_nat realsize) []) realsize (realsize - 1) 0 in
      if table_is_null (table (ht0 d)) then (set_ht0 d n, DICT_OK)
      else (set_rehashidx (set_ht1 d n) 0, DICT_OK).

Definition dictResize (dict_can_resize : bool) (d : dict) : dict * Z :=
  if negb dict_can_resize || dictIsRehashing d then (d, DICT_ERR)
  else
    let minimal := used (ht0 d) in
    let minimal := if minimal <? DICT_HT_INITIAL_SIZE
                   then DICT_HT_INITIAL_SIZE else minimal in
    dictExpand d minimal.

Definition _dictExpandIfNeeded (dict_can_resize : bool) (d : dict) : dict * Z :=
  if dictIsRehashing d then (d, DICT_OK)
  else if size (ht0 d) =? 0 then dictExpand d DICT_HT_INITIAL_SIZE
  else if (size (ht0 d) <=? used (ht0 d))
          && (dict_can_resize
              || (dict_force_resize_ratio <? used (ht0 d) / size (ht0 d)))
       then dictExpand d (to_ulong (used (ht0 d) * 2))
       else (d, DICT_OK).


(** *** Incremental rehashing *)

(** Ghost counters of one [dictRehash] call (they are not C state): the
    number of non-empty buckets moved to [ht[1]] and the number of empty
    buckets stepped over. *)
Record rehash_stats : Type := mkStats {
  migrated : Z;
  empty_probes : Z
}.

Variant skip_outcome : Type :=
| SkipFound (idx : Z) (empty_visits : Z)
| SkipBudget (idx : Z).

(** The inner [while (d->ht[0].table[d->rehashidx] == NULL)] loop;
    [empty_visits] is an [int]. *)
Fixpoint skip_empty (fuel : nat) (t : list bucket) (idx empty_visits : Z)
  : res skip_outcome :=
  match fuel with
  | O => OutOfFuel
  | S f =>
    b ← bucket_get t idx;
    match b with
    | [] =>
      let idx := idx + 1 in
      let empty_visits := to_int (empty_visits - 1) in
      if empty_visits =? 0 then Ret (SkipBudget idx)
      else skip_empty f t idx empty_visits
    | _ :: _ => Ret (SkipFound idx empty_visits)
    end
  end.

(** The [while (de)] loop: every entry of the chain is pushed on the head
    of its bucket of [ht[1]], found with the mask of [ht[1]]. *)
Fixpoint migrate_chain (de : bucket) (h0 h1 : dictht) : res (dictht * dictht) :=
  match de with
  | [] => Ret (h0, h1)
  | e :: nextde =>
    let hkey := Z.land (dictHashKey (key e)) (sizemask h1) in
    b ← bucket_get (table h1) hkey;
    let h1 := set_table h1 (bucket_set (table h1) hkey (e :: b)) in
    migrate_chain nextde (set_used h0 (used h0 - 1)) (set_used h1 (used h1 + 1))
  end.

(** The outer [while (n-- && d->ht[0].used != 0)] loop; [n] is an [int].
    The second component of the result is [Some 1] when the function
    returned from inside the loop (empty-bucket budget used up). *)
Fixpoint rehash_loop (fuel : nat) (d : dict) (n empty_visits : Z)
    (st : rehash_stats) : res (dict * option Z * rehash_stats) :=
  match fuel with
  | O => OutOfFuel
  | S f =>
    if (n =? 0) || (used (ht0 d) =? 0) then Ret (d, None, st)
    else
      let n := to_int (n - 1) in
      if negb (to_ulong (rehashidx d) <? size (ht0 d)) then Fault
      else
        sk ← skip_empty (S (length (table (ht0 d)))) (table (ht0 d))
                        (rehashidx d) empty_visits;
        match sk with
        | SkipBudget idx =>
          Ret (set_rehashidx d idx, Some 1,
               mkStats (migrated st) (empty_probes st + (idx - rehashidx d)))
        | SkipFound idx empty_visits =>
          de ← bucket_get (table (ht0 d)) idx;
          '(h0, h1) ← migrate_chain de (ht0 d) (ht1 d);
          let h0 := set_table h0 (bucket_set (table h0) idx []) in
          rehash_loop f (mkDict h0 h1 (idx + 1) (iterators d)) n empty_visits
            (mkStats (migrated st + 1) (empty_probes st + (idx - rehashidx d)))
        end
  end.

Definition dictRehash_stats (d : dict) (n : Z) : res (dict * Z * rehash_stats) :=
  let empty_visits := to_int (n * 10) in
  if negb (dictIsRehashing d) then Ret (d, 0, mkStats 0 0)
  else
    '(d, early, st) ← rehash_loop (S (length (table (ht0 d)))) d n empty_visits
                                   (mkStats 0 0);
    match early with
    | Some r => Ret (d, r, st)
    | None =>
      if used (ht0 d) =? 0
      then Ret (mkDict (ht1 d) _dictReset (-1) (iterators d), 0, st)
      else Ret (d, 1, st)
    end.

(** [dictRehash]: the C function, ghost counters erased. *)
Definition dictRehash (d : dict) (n : Z) : res (dict * Z) :=
  '(d, r, _) ← dictRehash_stats d n; Ret (d, r).

Definition _dictRehashStep (d : dict) : res dict :=
  if iterators d =? 0 then '(d, _) ← dictRehash d 1; Ret d
  else Ret d.

(** *** Entries by reference *)

(** A [dictEntry *] into the table: which table, which bucket, and the
    position in the chain. *)
Record entryRef : Type := mkRef {
  ref_table : Z;
  ref_idx : Z;
  ref_pos : nat
}.

Definition ht_at (d : dict) (t : Z) : dictht :=
  if t =? 0 then ht0 d else ht1 d.
Definition set_ht_at (d : dict) (t : Z) (h : dictht) : dict :=
  if t =? 0 then set_ht0 d h else set_ht1 d h.

Definition deref (d : dict) (r : entryRef) : res dictEntry :=
  b ← bucket_get (table (ht_at d (ref_table r))) (ref_idx r);
  match b !! ref_pos r with
  | Some e => Ret e
  | None => Fault
  end.

(** The position of the first entry of the chain that compares equal to
    [k]: the [while (he)] walk of [_dictKeyIndex], [dictFind] and
    [_dictGenericDelete]. *)
Fixpoint chain_index (k : K) (chain : bucket) : option nat :=
  match chain with
  | [] => None
  | he :: next =>
    if keyCompare k (key he) then Some O
    else S <$> chain_index k next
  end.

(** The same walk, unlinking the entry found. *)
Fixpoint chain_unlink (k : K) (chain : bucket) : option (dictEntry * bucket) :=
  match chain with
  | [] => None
  | he :: next =>
    if keyCompare k (key he) then Some (he, next)
    else '(x, next') ← chain_unlink k next; Some (x, he :: next')
  end.

Definition dictSetKey (e : dictEntry) (k : K) : dictEntry :=
  mkEntry (keyDup k) (val e).

(** [dictSetVal] on the entry a reference points to. *)
Definition dictSetVal (d : dict) (r : entryRef) (v : option V) : res dict :=
  let h := ht_at d (ref_table r) in
  b ← bucket_get (table h) (ref_idx r);
  match b !! ref_pos r with
  | Some e =>
    let e' := mkEntry (key e) (valDup <$> v) in
    Ret (set_ht_at d (ref_table r)
           (set_table h (bucket_set (table h) (ref_idx r) (<[ref_pos r := e']> b))))
  | None => Fault
  end.

(** *** Insertion *)

Definition _dictKeyIndex (dict_can_resize : bool) (d : dict) (k : K) (hash : Z)
  : res (dict * Z * option entryRef) :=
  let '(d, rc) := _dictExpandIfNeeded dict_can_resize d in
  if rc =? DICT_ERR then Ret (d, -1, None)
  else
    let idx := Z.land hash (sizemask (ht0 d)) in
    he ← bucket_get (table (ht0 d)) idx;
    match chain_index k he with
    | Some p => Ret (d, -1, Some (mkRef 0 idx p))
    | None =>
      if negb (dictIsRehashing d) then Ret (d, idx, None)
      else
        let idx := Z.land hash (sizemask (ht1 d)) in
        he ← bucket_get (table (ht1 d)) idx;
        match chain_index k he with
        | Some p => Ret (d, -1, Some (mkRef 1 idx p))
        | None => Ret (d, idx, None)
        end
    end.

(** [dictAddRaw]: the new entry is returned by reference, with the value
    of [*existing] as third component. *)
Definition dictAddRaw (dict_can_resize : bool) (d : dict) (k : K)
  : res (dict * option entryRef * option entryRef) :=
  d ← (if dictIsRehashing d then _dictRehashStep d else Ret d);
  '(d, index, existing) ← _dictKeyIndex dict_can_resize d k (dictHashKey k);
  if index =? -1 then Ret (d, None, existing)
  else
    let t := if dictIsRehashing d then 1 else 0 in
    let ht := ht_at d t in
    next ← bucket_get (table ht) index;
    let entry := dictSetKey (mkEntry k None) k in
    let ht := set_used (set_table ht (bucket_set (table ht) index (entry :: next)))
                       (used ht + 1) in
    Ret (set_ht_at d t ht, Some (mkRef t index O), existing).

Definition dictAdd (dict_can_resize : bool) (d : dict) (k : K) (v : V)
  : res (dict * Z) :=
  '(d, entry, _) ← dictAddRaw dict_can_resize d k;
  match entry with
  | None => Ret (d, DICT_ERR)
  | Some e => d ← dictSetVal d e (Some v); Ret (d, DICT_OK)
  end.

(** Calls of the destructors of the type descriptor and of [zfree] on an
    entry, in the order they are made. *)
Variant free_event : Type :=
| KeyDestructor (k : K)
| ValDestructor (v : option V)
| ZfreeEntry (e : dictEntry).

Definition dictFreeKey (e : dictEntry) : list free_event :=
  if keyDestructor then [KeyDestructor (key e)] else [].
Definition dictFreeVal (e : dictEntry) : list free_event :=
  if valDestructor then [ValDestructor (val e)] else [].

Definition dictReplace (dict_can_resize : bool) (d : dict) (k : K) (v : V)
  : res (dict * Z * list free_event) :=
  '(d, entry, existing) ← dictAddRaw dict_can_resize d k;
  match entry with
  | Some e => d ← dictSetVal d e (Some v); Ret (d, 1, [])
  | None =>
    match existing with
    | None => Fault
    | Some x =>
      auxentry ← deref d x;
      d ← dictSetVal d x (Some v);
      Ret (d, 0, dictFreeVal auxentry)
    end
  end.

Definition dictAddOrFind (dict_can_resize : bool) (d : dict) (k : K)
  : res (dict * option entryRef) :=
  '(d, entry, existing) ← dictAddRaw dict_can_resize d k;
  Ret (d, match entry with Some e => Some e | None => existing end).

(** *** Removal *)

(** One round of the [for (table = 0; table <= 1; table++)] loop of
    [_dictGenericDelete]. *)
Definition generic_delete_in (h : dictht) (k : K) (hkey : Z) (nofree : bool)
  : res (option (dictht * dictEntry * list free_event)) :=
  let idx := Z.land hkey (sizemask h) in
  he ← bucket_get (table h) idx;
  match chain_unlink k he with
  | Some (x, rest) =>
    let log := if nofree then []
               else dictFreeKey x ++ dictFreeVal x ++ [ZfreeEntry x] in
    Ret (Some (set_used (set_table h (bucket_set (table h) idx rest)) (used h - 1),
               x, log))
  | None => Ret None
  end.

Definition _dictGenericDelete (d : dict) (k : K) (nofree : bool)
  : res (dict * option dictEntry * list free_event) :=
  if (used (ht0 d) =? 0) && (used (ht1 d) =? 0) then Ret (d, None, [])
  else
    d ← (if dictIsRehashing d then _dictRehashStep d else Ret d);
    let hkey := dictHashKey k in
    r0 ← generic_delete_in (ht0 d) k hkey nofree;
    match r0 with
    | Some (h, x, log) => Ret (set_ht0 d h, Some x, log)
    | None =>
      if negb (dictIsRehashing d) then Ret (d, None, [])
      else
        r1 ← generic_delete_in (ht1 d) k hkey nofree;
        match r1 with
        | Some (h, x, log) => Ret (set_ht1 d h, Some x, log)
        | None => Ret (d, None, [])
        end
    end.

Definition dictDelete (d : dict) (k : K) : res (dict * Z * list free_event) :=
  '(d, he, log) ← _dictGenericDelete d k false;
  Ret (d, match he with Some _ => DICT_OK | None => DICT_ERR end, log).

Definition dictUnlink (d : dict) (k : K) : res (dict * option dictEntry) :=
  '(d, he, _) ← _dictGenericDelete d k true;
  Ret (d, he).

Definition dictFreeUnlinkedEntry (he : option dictEntry) : list free_event :=
  match he with
  | None => []
  | Some x => dictFreeKey x ++ dictFreeVal x ++ [ZfreeEntry x]
  end.

(** *** Lookup *)

Definition dictFind (d : dict) (k : K) : res (dict * option entryRef) :=
  if used (ht0 d) + used (ht1 d) =? 0 then Ret (d, None)
  else
    d ← (if dictIsRehashing d then _dictRehashStep d else Ret d);
    let hkey := dictHashKey k in
    let idx := Z.land hkey (sizemask (ht0 d)) in
    he ← bucket_get (table (ht0 d)) idx;
    match chain_index k he with
    | Some p => Ret (d, Some (mkRef 0 idx p))
    | None =>
      if negb (dictIsRehashing d) then Ret (d, None)
      else
        let idx := Z.land hkey (sizemask (ht1 d)) in
        he ← bucket_get (table (ht1 d)) idx;
        match chain_index k he with
        | Some p => Ret (d, Some (mkRef 1 idx p))
        | None => Ret (d, None)
        end
    end.

Definition dictFetchValue (d : dict) (k : K) : res (dict * option V) :=
  '(d, he) ← dictFind d k;
  match he with
  | None => Ret (d, None)
  | Some r => e ← deref d r; Ret (d, val e)
  end.


(** *** Emptying *)

(** Also logged: the progress callback of [_dictClear]. *)
Variant clear_event : Type :=
| Freed (e : free_event)
| Callback.

Definition free_chain (he : bucket) : list clear_event :=
  concat (map (fun x => map Freed (dictFreeKey x ++ dictFreeVal x ++ [ZfreeEntry x])) he).

(** The [for (i = 0; i < ht->size && ht->used > 0; i++)] loop of
    [_dictClear]; [todo] counts the slots from [i] up to [ht->size]. *)
Fixpoint clear_loop (todo : nat) (t : list bucket) (i u : Z) (callback : bool)
  : res (list clear_event) :=
  match todo with
  | O => Ret []
  | S todo =>
    if u =? 0 then Ret []
    else
      let cb := if callback && (Z.land i 65535 =? 0) then [Callback] else [] in
      he ← bucket_get t i;
      rest ← clear_loop todo t (i + 1) (u - Z.of_nat (length he)) callback;
      Ret (cb ++ free_chain he ++ rest)
  end.

Definition _dictClear (h : dictht) (callback : bool) : res (dictht * list clear_event) :=
  log ← clear_loop (Z.to_nat (size h)) (table h) 0 (used h) callback;
  Ret (_dictReset, log).

Definition dictEmpty (d : dict) (callback : bool) : res (dict * list clear_event) :=
  '(h0, log0) ← _dictClear (ht0 d) callback;
  '(h1, log1) ← _dictClear (ht1 d) callback;
  Ret (mkDict h0 h1 (-1) 0, log0 ++ log1).

(** *** Scan *)

(** [rev]: the loop runs for [s = 32, 16, 8, 4, 2, 1] and stops at
    [s = 0]; seven rounds of budget are all it can use. *)
Fixpoint rev_loop (fuel : nat) (s mask v : Z) : Z :=
  match fuel with
  | O => v
  | S f =>
    let s := Z.shiftr s 1 in
    if 0 <? s then
      let mask := Z.lxor mask (to_ulong (Z.shiftl mask s)) in
      let v := Z.lor (Z.land (Z.shiftr v s) mask)
                     (Z.land (to_ulong (Z.shiftl v s)) (ulong_not mask)) in
      rev_loop f s mask v
    else v
  end.

Definition rev (v : Z) : Z := rev_loop 7 (8 * 8) ULONG_MAX v.

(** [v |= ~m; v = rev(v); v++; v = rev(v)]. *)
Definition scan_next (m v : Z) : Z :=
  let v := Z.lor v (ulong_not m) in
  let v := rev v in
  let v := to_ulong (v + 1) in
  rev v.

(** What a scan call does to its callbacks: [bucketfn] on a bucket of table
    [ht[t]], [fn] on an entry. *)
Variant scan_call : Type :=
| BucketFn (t : Z) (idx : Z)
| Fn (e : dictEntry).

(** "Emit entries at cursor". *)
Definition emit (bucketfn : bool) (t : Z) (h : dictht) (idx : Z)
  : res (list scan_call) :=
  de ← bucket_get (table h) idx;
  Ret ((if bucketfn then [BucketFn t idx] else []) ++ map Fn de).

(** The [do ... while (v & (m0 ^ m1))] loop over the larger table. *)
Fixpoint scan_larger (fuel : nat) (bucketfn : bool) (n1 : Z) (t1 : dictht)
    (m0 m1 v : Z) : res (Z * list scan_call) :=
  match fuel with
  | O => OutOfFuel
  | S f =>
    calls ← emit bucketfn n1 t1 (Z.land v m1);
    let v := scan_next m1 v in
    if Z.land v (Z.lxor m0 m1) =? 0 then Ret (v, calls)
    else '(v, more) ← scan_larger f bucketfn n1 t1 m0 m1 v; Ret (v, calls ++ more)
  end.

Definition dictScan (d : dict) (v : Z) (bucketfn : bool) : res (Z * list scan_call) :=
  if dictSize d =? 0 then Ret (0, [])
  else if negb (dictIsRehashing d) then
    let t0 := ht0 d in
    let m0 := sizemask t0 in
    calls ← emit bucketfn 0 t0 (Z.land v m0);
    Ret (scan_next m0 v, calls)
  else
    let '(n0, t0, n1, t1) :=
      if size (ht1 d) <? size (ht0 d) then (1, ht1 d, 0, ht0 d)
      else (0, ht0 d, 1, ht1 d) in
    let m0 := sizemask t0 in
    let m1 := sizemask t1 in
    calls ← emit bucketfn n0 t0 (Z.land v m0);
    '(v, more) ← scan_larger (S (length (table t1))) bucketfn n1 t1 m0 m1 v;
    Ret (v, calls ++ more).

(** The keys handed to [fn]. *)
Definition reported (k : K) (calls : list scan_call) : Prop :=
  exists e, In (Fn e) calls /\ keyCompare k (key e) = true.

(** Membership as the lookups of dict.c decide it: the walk of the bucket
    [hash & sizemask] of [ht[0]] and, while rehashing, of [ht[1]]. *)
Definition ht_contains (h : dictht) (k : K) : bool :=
  match bucket_get (table h) (Z.land (dictHashKey k) (sizemask h)) with
  | Ret he => bool_decide (is_Some (chain_index k he))
  | _ => false
  end.

Definition dictContains (d : dict) (k : K) : bool :=
  ht_contains (ht0 d) k || (dictIsRehashing d && ht_contains (ht1 d) k).

(** *** Iterators *)

(** The numeric value of the [table] pointer of a hash table, which the
    fingerprint mixes in; the memory layout itself is not modelled. *)
Variable table_address : dictht -> Z.

Definition to_long (x : Z) : Z := (x + 2 ^ 63) mod 2 ^ 64 - 2 ^ 63.

(** One round of Thomas Wang's 64 bit mix, on [long long]. *)
Definition wang_mix (hash : Z) : Z :=
  let hash := to_long (Z.lnot hash + to_long (Z.shiftl hash 21)) in
  let hash := Z.lxor hash (Z.shiftr hash 24) in
  let hash := to_long (to_long (hash + to_long (Z.shiftl hash 3))
                       + to_long (Z.shiftl hash 8)) in
  let hash := Z.lxor hash (Z.shiftr hash 14) in
  let hash := to_long (to_long (hash + to_long (Z.shiftl hash 2))
                       + to_long (Z.shiftl hash 4)) in
  let hash := Z.lxor hash (Z.shiftr hash 28) in
  to_long (hash + to_long (Z.shiftl hash 31)).

Definition _dictFingerprint (d : dict) : Z :=
  let integers :=
    [ table_address (ht0 d); size (ht0 d); used (ht0 d);
      table_address (ht1 d); size (ht1 d); used (ht1 d) ] in
  fold_left (fun hash x => wang_mix (to_long (hash + to_long x))) integers 0.

(** [dictIterator].  A pointer into a chain is the part of the chain that
    starts there ([NULL] is the empty list). *)
Record dictIterator : Type := mkIter {
  it_index : Z;
  it_table : Z;
  it_safe : bool;
  it_entry : bucket;
  it_nextEntry : bucket;
  it_fingerprint : Z
}.

(** [dictGetIterator] leaves [fingerprint] as [zmalloc] returned it:
    [junk] is that indeterminate value. *)
Definition dictGetIterator (junk : Z) : dictIterator :=
  mkIter (-1) 0 false [] [] junk.

Definition dictGetSafeIterator (junk : Z) : dictIterator :=
  let i := dictGetIterator junk in
  mkIter (it_index i) (it_table i) true (it_entry i) (it_nextEntry i)
         (it_fingerprint i).

(** The [while (1)] loop of [dictNext]. *)
Fixpoint next_loop (fuel : nat) (iter : dictIterator) (d : dict)
  : res (dictIterator * dict * option dictEntry) :=
  match fuel with
  | O => OutOfFuel
  | S f =>
    let yield (iter : dictIterator) (d : dict) (entry : bucket) :=
      match entry with
      | e :: next =>
        Ret (mkIter (it_index iter) (it_table iter) (it_safe iter) entry next
                    (it_fingerprint iter), d, Some e)
      | [] =>
        next_loop f (mkIter (it_index iter) (it_table iter) (it_safe iter) []
                            (it_nextEntry iter) (it_fingerprint iter)) d
      end in
    match it_entry iter with
    | [] =>
      let ht := ht_at d (it_table iter) in
      let first := (it_index iter =? -1) && (it_table iter =? 0) in
      let d := if first && it_safe iter
               then set_iterators d (to_ulong (iterators d + 1)) else d in
      let fp := if first && negb (it_safe iter)
                then _dictFingerprint d else it_fingerprint iter in
      let index := it_index iter + 1 in
      if to_long (size ht) <=? index then
        if dictIsRehashing d && (it_table iter =? 0) then
          entry ← bucket_get (table (ht1 d)) 0;
          yield (mkIter 0 (it_table iter + 1) (it_safe iter) [] (it_nextEntry iter) fp)
                d entry
        else
          Ret (mkIter index (it_table iter) (it_safe iter) [] (it_nextEntry iter) fp,
               d, None)
      else
        entry ← bucket_get (table ht) index;
        yield (mkIter index (it_table iter) (it_safe iter) [] (it_nextEntry iter) fp)
              d entry
    | _ :: _ => yield iter d (it_nextEntry iter)
    end
  end.

Definition dictNext (iter : dictIterator) (d : dict)
  : res (dictIterator * dict * option dictEntry) :=
  next_loop (S (S (length (table (ht0 d)) + length (table (ht1 d))))) iter d.

(** [dictReleaseIterator]: the failed [assert] is [Fault]. *)
Definition dictReleaseIterator (iter : dictIterator) (d : dict) : res dict :=
  if negb ((it_index iter =? -1) && (it_table iter =? 0)) then
    if it_safe iter then Ret (set_iterators d (to_ulong (iterators d - 1)))
    else if it_fingerprint iter =? _dictFingerprint d then Ret d
    else Fault
  else Ret d.

(** *** Sequences of API calls *)

(** The calls a client may make between two calls of [dictScan]; the
    resize switch [dict_can_resize] is part of the state they act on. *)
Inductive dict_op : Type :=
| OpAdd (k : K) (v : V)
| OpAddRaw (k : K)
| OpAddOrFind (k : K)
| OpReplace (k : K) (v : V)
| OpDelete (k : K)
| OpUnlink (k : K)
| OpFind (k : K)
| OpFetchValue (k : K)
| OpRehash (n : Z)
| OpExpand (sz : Z)
| OpResize
| OpEmpty (callback : bool)
| OpNext (iter : dictIterator)
| OpReleaseIterator (iter : dictIterator)
| OpEnableResize
| OpDisableResize.

Definition exec_op (o : dict_op) (st : bool * dict) : res (bool * dict) :=
  let '(can, d) := st in
  match o with
  | OpAdd k v => '(d, _) ← dictAdd can d k v; Ret (can, d)
  | OpAddRaw k => '(d, _, _) ← dictAddRaw can d k; Ret (can, d)
  | OpAddOrFind k => '(d, _) ← dictAddOrFind can d k; Ret (can, d)
  | OpReplace k v => '(d, _, _) ← dictReplace can d k v; Ret (can, d)
  | OpDelete k => '(d, _, _) ← dictDelete d k; Ret (can, d)
  | OpUnlink k => '(d, _) ← dictUnlink d k; Ret (can, d)
  | OpFind k => '(d, _) ← dictFind d k; Ret (can, d)
  | OpFetchValue k => '(d, _) ← dictFetchValue d k; Ret (can, d)
  | OpRehash n => '(d, _) ← dictRehash d n; Ret (can, d)
  | OpExpand sz => Ret (can, fst (dictExpand d sz))
  | OpResize => Ret (can, fst (dictResize can d))
  | OpEmpty cb => '(d, _) ← dictEmpty d cb; Ret (can, d)
  | OpNext iter => '(_, d, _) ← dictNext iter d; Ret (can, d)
  | OpReleaseIterator iter => d ← dictReleaseIterator iter d; Ret (can, d)
  | OpEnableResize => Ret (true, d)
  | OpDisableResize => Ret (false, d)
  end.

Fixpoint exec_ops (os : list dict_op) (st : bool * dict) : res (bool * dict) :=
  match os with
  | [] => Ret st
  | o :: os => st ← exec_op o st; exec_ops os st
  end.

(** A scan session: before each call of [dictScan] the client runs a
    batch of API calls; the cursor returned by a call is the cursor of the
    next one.  The result is the last cursor returned, everything the
    callbacks were handed, and the dictionary as each scan call saw it. *)
Fixpoint scan_session (batches : list (list dict_op)) (st : bool * dict) (v : Z)
    (bucketfn : bool) : res (Z * list scan_call * list dict) :=
  match batches with
  | [] => Ret (v, [], [])
  | os :: batches =>
    st ← exec_ops os st;
    '(v, calls) ← dictScan (snd st) v bucketfn;
    '(v', more, seen) ← scan_session batches st v bucketfn;
    Ret (v', calls ++ more, snd st :: seen)
  end.


(** *** Well-formed dictionaries *)

Definition count_entries (t : list bucket) : Z := Z.of_nat (length (concat t)).

Definition is_pow2_size (n : Z) : Prop := exists k, 2 <= k <= 63 /\ n = 2 ^ k.

(** A hash table: the array has [size] slots, [used] counts the entries
    chained in it, and [size] is 0 (no array) or a power of two with
    [sizemask = size - 1]. *)
Definition ht_wf (h : dictht) : Prop :=
  Z.of_nat (length (table h)) = size h /\
  used h = count_entries (table h) /\
  ((size h = 0 /\ sizemask h = 0) \/
   (is_pow2_size (size h) /\ sizemask h = size h - 1)).

(** No bucket below index [n] holds an entry. *)
Definition prefix_empty (t : list bucket) (n : Z) : Prop :=
  forall i b, Z.of_nat i < n -> t !! i = Some b -> b = [].

(** The invariant of dict.h at every API boundary. *)
Definition dict_wf (d : dict) : Prop :=
  ht_wf (ht0 d) /\ ht_wf (ht1 d) /\
  (rehashidx d = -1 -> ht1 d = _dictReset) /\
  (rehashidx d <> -1 ->
     0 <= rehashidx d < size (ht0 d) /\ 0 < size (ht1 d) /\
     prefix_empty (table (ht0 d)) (rehashidx d)).

(** ** Proofs about dict.c *)

Lemma bind_ret_inv {A B} (m : res A) (f : A -> res B) (b : B) :
  m ≫= f = Ret b -> exists a, m = Ret a /\ f a = Ret b.
Proof. destruct m; simpl; intros H; try discriminate. eauto. Qed.

Lemma bucket_get_ret (t : list bucket) (i : Z) (b : bucket) :
  bucket_get t i = Ret b <-> 0 <= i /\ t !! Z.to_nat i = Some b.
Proof.
  unfold bucket_get. destruct (Z.ltb_spec i 0).
  - split; [discriminate | lia].
  - destruct (t !! Z.to_nat i) eqn:E; split; intros H1;
      try (injection H1 as ->); try discriminate; try tauto;
      destruct H1 as [_ H1]; try discriminate; congruence.
Qed.

Lemma bucket_get_in_range (t : list bucket) (i : Z) :
  0 <= i < Z.of_nat (length t) -> exists b, bucket_get t i = Ret b.
Proof.
  intros Hi. destruct (lookup_lt_is_Some_2 t (Z.to_nat i)) as [b Hb]; [lia |].
  exists b. apply bucket_get_ret. split; [lia | done].
Qed.

Lemma bucket_get_not_fuel (t : list bucket) (i : Z) : bucket_get t i <> OutOfFuel.
Proof.
  unfold bucket_get. destruct (i <? 0); [discriminate |].
  destruct (t !! Z.to_nat i); discriminate.
Qed.

Lemma count_entries_nil : count_entries [] = 0.
Proof. reflexivity. Qed.

Lemma count_entries_cons (b : bucket) (t : list bucket) :
  count_entries (b :: t) = Z.of_nat (length b) + count_entries t.
Proof. unfold count_entries. simpl. rewrite length_app. lia. Qed.

Lemma count_entries_nonneg (t : list bucket) : 0 <= count_entries t.
Proof. unfold count_entries. lia. Qed.

Lemma count_entries_replicate (n : nat) : count_entries (replicate n []) = 0.
Proof.
  induction n as [| n IH]; [reflexivity |].
  simpl. rewrite count_entries_cons, IH. reflexivity.
Qed.

Lemma count_entries_insert (t : list bucket) (i : nat) (old b : bucket) :
  t !! i = Some old ->
  count_entries (<[i := b]> t)
  = count_entries t - Z.of_nat (length old) + Z.of_nat (length b).
Proof.
  revert i. induction t as [| x t IH]; intros [| i] Hi; simpl in *; try discriminate.
  - injection Hi as ->. rewrite !count_entries_cons. lia.
  - rewrite !count_entries_cons. rewrite (IH i Hi). lia.
Qed.

Lemma count_entries_bucket_set (t : list bucket) (i : Z) (old b : bucket) :
  bucket_get t i = Ret old ->
  count_entries (bucket_set t i b)
  = count_entries t - Z.of_nat (length old) + Z.of_nat (length b).
Proof.
  intros H. apply bucket_get_ret in H as [_ H].
  unfold bucket_set. by apply count_entries_insert.
Qed.

Lemma count_entries_lookup_le (t : list bucket) (i : nat) (b : bucket) :
  t !! i = Some b -> Z.of_nat (length b) <= count_entries t.
Proof.
  revert i. induction t as [| x t IH]; intros [| i] Hi; simpl in *; try discriminate.
  - injection Hi as ->. rewrite count_entries_cons. pose proof (count_entries_nonneg t). lia.
  - rewrite count_entries_cons. specialize (IH i Hi). lia.
Qed.

(** A table that counts an entry has a non-empty bucket. *)
Lemma count_entries_pos (t : list bucket) :
  count_entries t <> 0 -> exists j e c, t !! j = Some (e :: c).
Proof.
  induction t as [| b t IH]; intros H.
  - by rewrite count_entries_nil in H.
  - destruct b as [| e c].
    + rewrite count_entries_cons in H. simpl in H.
      destruct (IH H) as (j & e & c & Hj). by exists (S j), e, c.
    + by exists O, e, c.
Qed.

Lemma nonempty_after_prefix (h : dictht) (idx : Z) :
  ht_wf h -> prefix_empty (table h) idx -> used h <> 0 ->
  exists j e c, idx <= Z.of_nat j /\ table h !! j = Some (e :: c).
Proof.
  intros (_ & Hu & _) Hpre Hne. rewrite Hu in Hne.
  destruct (count_entries_pos _ Hne) as (j & e & c & Hj).
  exists j, e, c. split; [| done].
  destruct (Z.le_gt_cases idx (Z.of_nat j)) as [| Hlt]; [done |].
  by specialize (Hpre j _ Hlt Hj).
Qed.

Lemma prefix_empty_0 (t : list bucket) : prefix_empty t 0.
Proof. intros i b Hi. lia. Qed.

Lemma prefix_empty_step (t : list bucket) (idx : Z) :
  0 <= idx -> prefix_empty t idx -> t !! Z.to_nat idx = Some [] ->
  prefix_empty t (idx + 1).
Proof.
  intros Hidx Hpre Hb i b Hi Hlk.
  destruct (decide (Z.of_nat i = idx)) as [<- | Hne].
  - rewrite Nat2Z.id in Hb. congruence.
  - apply (Hpre i); [lia | done].
Qed.

Lemma prefix_empty_insert (t : list bucket) (idx : Z) :
  0 <= idx -> prefix_empty t idx ->
  prefix_empty (bucket_set t idx []) (idx + 1).
Proof.
  intros Hidx Hpre i b Hi Hlk. unfold bucket_set in Hlk.
  destruct (decide (Z.to_nat idx = i)) as [<- | Hne].
  - apply list_lookup_insert_Some in Hlk as [(_ & <- & _) | (? & _)]; [done | lia].
  - rewrite list_lookup_insert_ne in Hlk by done. apply (Hpre i); [lia | done].
Qed.

(** *** Sizing *)

Lemma next_power_loop_spec (sz : Z) (fuel : nat) (j : Z) :
  2 <= j <= 63 -> (63 - j < Z.of_nat fuel) -> sz < 2 ^ 63 ->
  (j = 2 \/ 2 ^ (j - 1) < sz) ->
  exists k, j <= k <= 63 /\ next_power_loop fuel (2 ^ j) sz = Some (2 ^ k) /\
            sz <= 2 ^ k /\ (k = 2 \/ 2 ^ (k - 1) < sz).
Proof.
  revert j. induction fuel as [| fuel IH]; intros j Hj Hf Hsz Hmin; [lia |].
  simpl. destruct (Z.leb_spec sz (2 ^ j)) as [Hle | Hgt].
  - exists j. repeat split; try lia; try done.
  - assert (j < 63).
    { destruct (Z.eq_dec j 63) as [-> | ?]; lia. }
    destruct (IH (j + 1)) as (k & Hk & Hl & Hle & Hm); try lia.
    { right. replace (j + 1 - 1) with j by lia. done. }
    exists k. replace (2 ^ j * 2) with (2 ^ (j + 1)) by (rewrite Z.pow_add_r; lia).
    repeat split; try lia; try done.
Qed.

(** [_dictNextPower sz] is the least power of two that is at least [sz]
    and at least 4, capped by [2^63]. *)
Lemma _dictNextPower_spec (sz : Z) :
  exists k, 2 <= k <= 63 /\ _dictNextPower sz = 2 ^ k /\
            (sz <= 2 ^ 63 -> sz <= 2 ^ k) /\ (k = 2 \/ 2 ^ (k - 1) < sz).
Proof.
  unfold _dictNextPower, LONG_MAX. destruct (Z.leb_spec (2 ^ 63 - 1) sz) as [Hbig | Hsmall].
  - exists 63. repeat split; lia.
  - change DICT_HT_INITIAL_SIZE with (2 ^ 2).
    destruct (next_power_loop_spec sz 64 2) as (k & Hk & -> & Hle & Hm); try lia.
    exists k. repeat split; try lia; try done.
Qed.

Lemma _dictNextPower_pow2 (sz : Z) : is_pow2_size (_dictNextPower sz).
Proof.
  destruct (_dictNextPower_spec sz) as (k & Hk & -> & _). exists k. split; [lia | done].
Qed.

Lemma _dictNextPower_ge4 (sz : Z) : 4 <= _dictNextPower sz.
Proof.
  destruct (_dictNextPower_spec sz) as (k & Hk & -> & _).
  change 4 with (2 ^ 2). apply Z.pow_le_mono_r; lia.
Qed.


Lemma land_sizemask_range (h : dictht) (hash : Z) :
  ht_wf h -> 0 < size h -> 0 <= Z.land hash (sizemask h) < size h.
Proof.
  intros (_ & _ & [[Hs _] | [(k & Hk & Hs) Hm]]) Hpos; [lia |].
  rewrite Hm, Hs. replace (2 ^ k - 1) with (Z.ones k) by (rewrite Z.ones_equiv; lia).
  rewrite Z.land_ones by lia. apply Z.mod_pos_bound. apply Z.pow_pos_nonneg; lia.
Qed.

Lemma bucket_get_masked (h : dictht) (hash : Z) :
  ht_wf h -> 0 < size h ->
  exists b, bucket_get (table h) (Z.land hash (sizemask h)) = Ret b.
Proof.
  intros Hwf Hpos. apply bucket_get_in_range.
  pose proof (land_sizemask_range h hash Hwf Hpos). destruct Hwf as (Hl & _). lia.
Qed.

Lemma ht_wf_reset : ht_wf _dictReset.
Proof. repeat split; simpl; auto. Qed.

Lemma ht_wf_fresh (sz : Z) :
  ht_wf (mkHt (replicate (Z.to_nat (_dictNextPower sz)) []) (_dictNextPower sz)
              (_dictNextPower sz - 1) 0).
Proof.
  pose proof (_dictNextPower_ge4 sz).
  repeat split; simpl.
  - rewrite length_replicate. lia.
  - by rewrite count_entries_replicate.
  - right. split; [apply _dictNextPower_pow2 | done].
Qed.

(** Replacing the chain of one bucket keeps a table well formed once
    [used] is adjusted by the change in length. *)
Lemma ht_wf_set_bucket (h : dictht) (i : Z) (old b : bucket) :
  ht_wf h -> bucket_get (table h) i = Ret old ->
  ht_wf (set_used (set_table h (bucket_set (table h) i b))
                  (used h - Z.of_nat (length old) + Z.of_nat (length b))).
Proof.
  intros (Hl & Hu & Hs) Hget. repeat split; simpl.
  - unfold bucket_set. rewrite length_insert. done.
  - rewrite (count_entries_bucket_set _ _ old) by done. lia.
  - done.
Qed.

Lemma dictExpand_wf (d : dict) (sz : Z) : dict_wf d -> dict_wf (fst (dictExpand d sz)).
Proof.
  intros Hwf. unfold dictExpand.
  destruct (dictIsRehashing d || (sz <? used (ht0 d))) eqn:E; [done |].
  apply orb_false_iff in E as [Hr _]. unfold dictIsRehashing in Hr.
  apply negb_false_iff, Z.eqb_eq in Hr.
  destruct (_dictNextPower sz =? size (ht0 d)); [done |].
  destruct Hwf as (H0 & H1 & Hn & Hre).
  destruct (table_is_null (table (ht0 d))) eqn:Enull; simpl.
  - split; [apply ht_wf_fresh |]. split; [done |]. simpl.
    split; [done |]. intros; lia.
  - split; [done |]. split; [apply ht_wf_fresh |]. simpl.
    split; [intros; lia |]. intros _.
    pose proof (_dictNextPower_ge4 sz).
    destruct H0 as (Hl & _). destruct (table (ht0 d)); [done |]. simpl in Hl.
    repeat split; try lia. apply prefix_empty_0.
Qed.

Lemma dictExpand_iterators (d : dict) (sz : Z) :
  iterators (fst (dictExpand d sz)) = iterators d.
Proof.
  unfold dictExpand. repeat (match goal with |- context [if ?b then _ else _] => destruct b end); done.
Qed.

(** *** The rehash loops *)

Lemma migrate_chain_spec (de : bucket) (h0 h1 : dictht) :
  ht_wf h1 -> 0 < size h1 ->
  exists h1',
    migrate_chain de h0 h1
    = Ret (set_used h0 (used h0 - Z.of_nat (length de)), h1') /\
    ht_wf h1' /\ size h1' = size h1 /\
    used h1' = used h1 + Z.of_nat (length de).
Proof.
  revert h0 h1. induction de as [| e de IH]; intros h0 h1 Hwf Hpos.
  - exists h1. simpl. split_and?; try done; try lia.
    replace (used h0 - Z.of_nat 0) with (used h0) by lia. by destruct h0.
  - cbn [migrate_chain].
    destruct (bucket_get_masked h1 (dictHashKey (key e)) Hwf Hpos) as [b Hb].
    rewrite Hb. simpl.
    pose proof (ht_wf_set_bucket h1 _ b (e :: b) Hwf Hb) as Hwf'.
    replace (used h1 - Z.of_nat (length b) + Z.of_nat (length (e :: b)))
      with (used h1 + 1) in Hwf' by (simpl; lia).
    destruct (IH (set_used h0 (used h0 - 1)) _ Hwf') as (h1' & Heq & Hw & Hsz & Hu);
      [simpl; lia |].
    exists h1'. rewrite Heq. split_and?; try done.
    + unfold set_used; simpl. do 3 f_equal. lia.
    + rewrite Hu. simpl. lia.
Qed.

Lemma skip_empty_found (fuel : nat) (t : list bucket) (idx ev : Z)
    (j : nat) (e : dictEntry) (c : bucket) :
  0 <= idx <= Z.of_nat j -> t !! j = Some (e :: c) -> prefix_empty t idx ->
  Z.of_nat j - idx < Z.of_nat fuel ->
  (exists idx' ev' e' c',
     skip_empty fuel t idx ev = Ret (SkipFound idx' ev') /\
     idx <= idx' <= Z.of_nat j /\ prefix_empty t idx' /\
     bucket_get t idx' = Ret (e' :: c')) \/
  (exists idx',
     skip_empty fuel t idx ev = Ret (SkipBudget idx') /\
     idx < idx' <= Z.of_nat j /\ prefix_empty t idx').
Proof.
  revert idx ev. induction fuel as [| fuel IH]; intros idx ev Hidx Hj Hpre Hf; [lia |].
  cbn [skip_empty].
  destruct (bucket_get_in_range t idx) as [b Hb].
  { apply lookup_lt_Some in Hj. lia. }
  rewrite Hb. simpl. destruct b as [| e' c'].
  - assert (idx <> Z.of_nat j).
    { intros ->. apply bucket_get_ret in Hb as [_ Hb]. rewrite Nat2Z.id in Hb. congruence. }
    assert (prefix_empty t (idx + 1)) as Hpre'.
    { apply prefix_empty_step; [lia | done |]. by apply bucket_get_ret in Hb as [_ Hb]. }
    destruct (to_int (ev - 1) =? 0).
    + right. exists (idx + 1). split_and?; try done; lia.
    + destruct (IH (idx + 1) (to_int (ev - 1))) as
        [(idx' & ev' & e2 & c2 & Heq & Hr & Hp & Hg) | (idx' & Heq & Hr & Hp)];
        try done; try lia.
      * left. exists idx', ev', e2, c2. split_and?; try done; lia.
      * right. exists idx'. split_and?; try done; lia.
  - left. exists idx, ev, e', c'. split_and?; try done; lia.
Qed.

(** The invariant of the outer loop of [dictRehash]: as [dict_wf] while
    rehashing, except that the cursor may have reached [size]. *)
Definition rehash_inv (d : dict) : Prop :=
  ht_wf (ht0 d) /\ ht_wf (ht1 d) /\
  0 <= rehashidx d <= size (ht0 d) /\ 0 < size (ht1 d) /\
  prefix_empty (table (ht0 d)) (rehashidx d).

Lemma rehash_inv_lt (d : dict) :
  rehash_inv d -> used (ht0 d) <> 0 -> rehashidx d < size (ht0 d).
Proof.
  intros (H0 & _ & _ & _ & Hpre) Hu.
  destruct (nonempty_after_prefix _ _ H0 Hpre Hu) as (j & e & c & Hj & Hlk).
  apply lookup_lt_Some in Hlk. destruct H0 as (Hl & _). lia.
Qed.

Lemma rehash_loop_wf (fuel : nat) (d : dict) (n ev : Z) (st : rehash_stats) :
  rehash_inv d -> size (ht0 d) - rehashidx d < Z.of_nat fuel ->
  exists d' early st',
    rehash_loop fuel d n ev st = Ret (d', early, st') /\
    rehash_inv d' /\ iterators d' = iterators d /\
    (early = None \/ (early = Some 1 /\ used (ht0 d') <> 0)).
Proof.
  revert d n ev st. induction fuel as [| fuel IH]; intros d n ev st Hinv Hf.
  { destruct Hinv as (_ & _ & ? & _). lia. }
  cbn [rehash_loop].
  destruct ((n =? 0) || (used (ht0 d) =? 0)) eqn:Hc.
  { exists d, None, st. split_and?; try done; auto. }
  apply orb_false_iff in Hc as [_ Hu]. apply Z.eqb_neq in Hu.
  pose proof (rehash_inv_lt d Hinv Hu) as Hlt.
  destruct Hinv as (H0 & H1 & Hr & Hs1 & Hpre).
  assert ((to_ulong (rehashidx d) <? size (ht0 d)) = true) as ->.
  { apply Z.ltb_lt. unfold to_ulong, ULONG_MOD.
    destruct H0 as (_ & _ & [[? _] | [(k & Hk & Hs) _]]); [lia |].
    assert (2 ^ k <= 2 ^ 63) by (apply Z.pow_le_mono_r; lia).
    rewrite Z.mod_small; lia. }
  simpl negb. cbv iota.
  destruct (nonempty_after_prefix _ _ H0 Hpre Hu) as (j & e & c & Hj & Hlk).
  pose proof (lookup_lt_Some _ _ _ Hlk) as Hjlen.
  destruct (skip_empty_found (S (length (table (ht0 d)))) (table (ht0 d))
              (rehashidx d) ev j e c)
    as [(idx & ev' & e' & c' & Heq & Hr' & Hp & Hg) | (idx & Heq & Hr' & Hp)];
    try done; try lia.
  - rewrite Heq. cbn [mbind res_bind]. rewrite Hg. cbn [mbind res_bind].
    destruct (migrate_chain_spec (e' :: c') (ht0 d) (ht1 d) H1 Hs1)
      as (h1' & Hm & Hw1 & Hsz1 & Hu1).
    rewrite Hm. cbn [mbind res_bind].
    pose proof (ht_wf_set_bucket (ht0 d) idx (e' :: c') [] H0 Hg) as Hw0.
    replace (used (ht0 d) - Z.of_nat (length (e' :: c')) + Z.of_nat (length (@nil dictEntry)))
      with (used (ht0 d) - Z.of_nat (length (e' :: c'))) in Hw0 by (simpl; lia).
    destruct H0 as (Hl0 & _).
    match goal with
    | |- context [rehash_loop fuel ?d1 ?n1 ?ev1 ?st1] =>
      assert (rehash_inv d1) as Hinv1;
        [| destruct (IH d1 n1 ev1 st1 Hinv1)
             as (d' & early & st' & Heq' & Hinv' & Hit & Hearly);
           [simpl; lia |]]
    end.
    + unfold rehash_inv. simpl. split_and?; try done; try lia.
      apply prefix_empty_insert; [lia | done].
    + exists d', early, st'. rewrite Heq'. split_and?; done.
  - rewrite Heq. cbn [mbind res_bind].
    exists (set_rehashidx d idx), (Some 1),
      (mkStats (migrated st) (empty_probes st + (idx - rehashidx d))).
    split_and?; simpl; try done.
    + unfold rehash_inv; simpl. pose proof H0 as (Hl0 & _).
      split_and?; try done; lia.
    + right. done.
Qed.


(** A well-formed dictionary is rehashed without fault, and stays well
    formed; the call answers 1 exactly when entries are left in [ht[0]]. *)
Lemma dictRehash_stats_wf (d : dict) (n : Z) :
  dict_wf d ->
  exists d' r st,
    dictRehash_stats d n = Ret (d', r, st) /\ dict_wf d' /\
    iterators d' = iterators d /\
    ((r = 1 /\ dictIsRehashing d' = true /\ used (ht0 d') <> 0) \/
     (r = 0 /\ dictIsRehashing d' = false)).
Proof.
  intros Hwf. unfold dictRehash_stats.
  destruct (dictIsRehashing d) eqn:Hre; simpl negb; cbv iota.
  2:{ exists d, 0, (mkStats 0 0). split_and?; try done. right. done. }
  destruct Hwf as (H0 & H1 & Hn & Hr).
  unfold dictIsRehashing in Hre. apply negb_true_iff, Z.eqb_neq in Hre.
  destruct (Hr Hre) as (Hidx & Hs1 & Hpre).
  destruct (rehash_loop_wf (S (length (table (ht0 d)))) d n (to_int (n * 10))
              (mkStats 0 0))
    as (d' & early & st' & Heq & Hinv & Hit & Hearly).
  { unfold rehash_inv. split_and?; try done; lia. }
  { destruct H0 as (Hl & _). lia. }
  rewrite Heq. cbn [mbind res_bind].
  assert (used (ht0 d') <> 0 -> dict_wf d' /\ dictIsRehashing d' = true) as Hstill.
  { intros Hu. pose proof (rehash_inv_lt d' Hinv Hu).
    destruct Hinv as (Hw0 & Hw1 & Hr' & Hs1' & Hpre').
    assert (rehashidx d' <> -1) by lia. split.
    - unfold dict_wf. split_and?; try done; intros; split_and?; try done; lia.
    - unfold dictIsRehashing. by apply negb_true_iff, Z.eqb_neq. }
  destruct Hearly as [-> | [-> Hu]].
  - destruct (Z.eqb_spec (used (ht0 d')) 0) as [Hz | Hnz].
    + eexists _, 0, st'. split; [reflexivity |].
      destruct Hinv as (Hw0 & Hw1 & Hr' & Hs1' & Hpre').
      split_and?; simpl; try done.
      * unfold dict_wf. simpl.
        split_and?; try done; try apply ht_wf_reset; intros; lia.
      * right. done.
    + exists d', 1, st'. destruct (Hstill Hnz). split_and?; try done. left. done.
  - exists d', 1, st'. destruct (Hstill Hu). split_and?; try done. left. done.
Qed.

Lemma dictRehash_wf (d : dict) (n : Z) :
  dict_wf d ->
  exists d' r, dictRehash d n = Ret (d', r) /\ dict_wf d' /\
               iterators d' = iterators d.
Proof.
  intros Hwf. destruct (dictRehash_stats_wf d n Hwf) as (d' & r & st & Heq & Hw & Hit & _).
  exists d', r. unfold dictRehash. rewrite Heq. done.
Qed.

Lemma _dictRehashStep_wf (d : dict) :
  dict_wf d ->
  exists d', _dictRehashStep d = Ret d' /\ dict_wf d' /\ iterators d' = iterators d.
Proof.
  intros Hwf. unfold _dictRehashStep. destruct (iterators d =? 0); [| by exists d].
  destruct (dictRehash_wf d 1 Hwf) as (d' & r & Heq & Hw & Hit).
  exists d'. rewrite Heq. done.
Qed.

(** The step every mutating call starts with. *)
Lemma maybe_step_wf (d : dict) :
  dict_wf d ->
  exists d', (if dictIsRehashing d then _dictRehashStep d else Ret d) = Ret d' /\
             dict_wf d' /\ iterators d' = iterators d.
Proof.
  intros Hwf. destruct (dictIsRehashing d); [by apply _dictRehashStep_wf | by exists d].
Qed.

(** *** Work done by one call of [dictRehash] *)

(** [int] values are their own wrap. *)
Lemma to_int_small (x : Z) : INT_MIN <= x <= INT_MAX -> to_int x = x.
Proof.
  unfold to_int, INT_MIN, INT_MAX. intros H.
  change (2 ^ 31) with 2147483648 in *. change (2 ^ 32) with 4294967296.
  Z.div_mod_to_equations. lia.
Qed.

(** The number of decrements that take the [int] counter [ev] to zero:
    [ev] itself when it is positive, and the way round through [INT_MIN]
    when it is not. *)
Definition visits_left (ev : Z) : Z := (ev - 1) mod 2 ^ 32 + 1.

Lemma visits_left_range (ev : Z) : 1 <= visits_left ev <= 2 ^ 32.
Proof.
  unfold visits_left. change (2 ^ 32) with 4294967296.
  Z.div_mod_to_equations. lia.
Qed.

Lemma visits_left_pos (ev : Z) : 0 < ev <= INT_MAX -> visits_left ev = ev.
Proof.
  unfold visits_left, INT_MAX. change (2 ^ 31) with 2147483648.
  change (2 ^ 32) with 4294967296. intros H. Z.div_mod_to_equations. lia.
Qed.

Lemma visits_left_to_int (x : Z) : visits_left (to_int x) = (x - 1) mod 2 ^ 32 + 1.
Proof.
  unfold visits_left, to_int. change (2 ^ 31) with 2147483648.
  change (2 ^ 32) with 4294967296. Z.div_mod_to_equations. lia.
Qed.

Lemma to_int_dec_zero (ev : Z) : to_int (ev - 1) = 0 <-> visits_left ev = 1.
Proof.
  unfold visits_left, to_int. change (2 ^ 31) with 2147483648.
  change (2 ^ 32) with 4294967296. Z.div_mod_to_equations. lia.
Qed.

Lemma visits_left_dec (ev : Z) :
  to_int (ev - 1) <> 0 -> visits_left (to_int (ev - 1)) = visits_left ev - 1.
Proof.
  rewrite visits_left_to_int. unfold visits_left, to_int.
  change (2 ^ 31) with 2147483648. change (2 ^ 32) with 4294967296.
  Z.div_mod_to_equations. lia.
Qed.

Lemma skip_empty_counts (fuel : nat) (t : list bucket) (idx ev : Z) (out : skip_outcome) :
  skip_empty fuel t idx ev = Ret out ->
  0 <= idx /\
  match out with
  | SkipFound i e => idx <= i /\ visits_left e = visits_left ev - (i - idx)
  | SkipBudget i => idx < i /\ visits_left ev = i - idx
  end.
Proof.
  revert idx ev. induction fuel as [| fuel IH]; intros idx ev H; [discriminate |].
  cbn [skip_empty] in H. destruct (bucket_get t idx) as [b | |] eqn:Hb; try discriminate.
  apply bucket_get_ret in Hb as [Hidx _]. cbn [mbind res_bind] in H.
  split; [done |]. destruct b as [| e c].
  - destruct (Z.eqb_spec (to_int (ev - 1)) 0) as [Hz | Hnz].
    + injection H as <-. apply to_int_dec_zero in Hz. lia.
    + apply IH in H as [_ H]. rewrite (visits_left_dec _ Hnz) in H.
      destruct out; lia.
  - injection H as <-. lia.
Qed.

Lemma migrate_chain_table0 (de : bucket) (h0 h1 h0' h1' : dictht) :
  migrate_chain de h0 h1 = Ret (h0', h1') -> table h0' = table h0.
Proof.
  revert h0 h1. induction de as [| e de IH]; intros h0 h1 H; cbn [migrate_chain] in H.
  - by injection H as <- <-.
  - destruct (bucket_get (table h1) _) as [b | |]; try discriminate.
    cbn [mbind res_bind] in H. by apply IH in H.
Qed.

Lemma rehash_loop_counts (fuel : nat) (d : dict) (n ev : Z) (st : rehash_stats)
    (d' : dict) (early : option Z) (st' : rehash_stats) :
  rehash_loop fuel d n ev st = Ret (d', early, st') ->
  0 <= n <= INT_MAX ->
  0 <= migrated st' - migrated st <= n /\
  0 <= empty_probes st' - empty_probes st /\
  match early with
  | Some r => r = 1 /\ empty_probes st' - empty_probes st = visits_left ev /\ 0 < n
  | None => (n = 0 -> empty_probes st' = empty_probes st) /\
            empty_probes st' - empty_probes st < visits_left ev
  end.
Proof.
  revert d n ev st. induction fuel as [| fuel IH]; intros d n ev st H Hn;
    [discriminate |].
  cbn [rehash_loop] in H. pose proof (visits_left_range ev) as Hev.
  destruct ((n =? 0) || (used (ht0 d) =? 0)) eqn:Hc.
  { injection H as <- <- <-. split_and?; lia. }
  apply orb_false_iff in Hc as [Hn0 _]. apply Z.eqb_neq in Hn0.
  rewrite to_int_small in H by (unfold INT_MIN, INT_MAX in *; lia).
  destruct (negb _); [discriminate |].
  destruct (skip_empty _ _ _ _) as [sk | |] eqn:Hsk; try discriminate.
  cbn [mbind res_bind] in H. apply skip_empty_counts in Hsk as [Hidx Hsk].
  destruct sk as [idx ev' | idx].
  - destruct (bucket_get _ idx) as [de | |]; try discriminate.
    cbn [mbind res_bind] in H.
    destruct (migrate_chain _ _ _) as [[h0 h1] | |]; try discriminate.
    cbn [mbind res_bind] in H. destruct Hsk as (Hle & Hleft).
    apply IH in H; try lia. simpl in H.
    destruct H as (Hm & He & Hearly). split_and?; try lia.
    destruct early as [r |]; lia.
  - injection H as <- <- <-. simpl. lia.
Qed.

(** No call of [dictRehash], on any dictionary, runs the loops of the
    model out of budget. *)
Lemma skip_empty_fuel (fuel : nat) (t : list bucket) (idx ev : Z) :
  (0 < fuel)%nat -> (0 <= idx -> Z.of_nat (length t) - idx < Z.of_nat fuel) ->
  skip_empty fuel t idx ev <> OutOfFuel.
Proof.
  revert idx ev. induction fuel as [| fuel IH]; intros idx ev Hpos Hf; [lia |].
  cbn [skip_empty]. destruct (bucket_get t idx) as [b | |] eqn:Hb; try discriminate.
  - apply bucket_get_ret in Hb as [Hidx Hb]. apply lookup_lt_Some in Hb.
    cbn [mbind res_bind]. destruct b; [| discriminate].
    destruct (to_int (ev - 1) =? 0); [discriminate |]. apply IH; lia.
  - by apply bucket_get_not_fuel in Hb.
Qed.

Lemma migrate_chain_fuel (de : bucket) (h0 h1 : dictht) :
  migrate_chain de h0 h1 <> OutOfFuel.
Proof.
  revert h0 h1. induction de as [| e de IH]; intros h0 h1; cbn [migrate_chain];
    [discriminate |].
  destruct (bucket_get (table h1) _) as [b | |] eqn:Hb; try discriminate.
  - cbn [mbind res_bind]. apply IH.
  - by apply bucket_get_not_fuel in Hb.
Qed.

Lemma rehash_loop_fuel (fuel : nat) (d : dict) (n ev : Z) (st : rehash_stats) :
  (0 < fuel)%nat ->
  (0 <= rehashidx d -> Z.of_nat (length (table (ht0 d))) - rehashidx d < Z.of_nat fuel) ->
  rehash_loop fuel d n ev st <> OutOfFuel.
Proof.
  revert d n ev st. induction fuel as [| fuel IH]; intros d n ev st Hpos Hf; [lia |].
  cbn [rehash_loop]. destruct (_ || _); [discriminate |].
  destruct (negb _); [discriminate |].
  destruct (skip_empty _ _ _ _) as [sk | |] eqn:Hsk; try discriminate.
  2:{ apply skip_empty_fuel in Hsk; [done | lia | lia]. }
  cbn [mbind res_bind]. apply skip_empty_counts in Hsk as [Hidx Hsk].
  destruct sk as [idx ev' | idx]; [| discriminate].
  destruct (bucket_get _ idx) as [de | |] eqn:Hb; try discriminate.
  2:{ by apply bucket_get_not_fuel in Hb. }
  cbn [mbind res_bind].
  destruct (migrate_chain _ _ _) as [[h0 h1] | |] eqn:Hm; try discriminate.
  2:{ by apply migrate_chain_fuel in Hm. }
  cbn [mbind res_bind]. apply migrate_chain_table0 in Hm.
  apply bucket_get_ret in Hb as [_ Hb]. apply lookup_lt_Some in Hb.
  apply IH; simpl; unfold bucket_set; rewrite ?length_insert, ?Hm; lia.
Qed.

Lemma dictRehash_stats_fuel (d : dict) (n : Z) : dictRehash_stats d n <> OutOfFuel.
Proof.
  unfold dictRehash_stats. destruct (negb _); [discriminate |].
  destruct (rehash_loop _ _ _ _ _) as [[[d' early] st] | |] eqn:H; try discriminate.
  - cbn [mbind res_bind]. destruct early; [discriminate |].
    destruct (_ =? _); discriminate.
  - apply rehash_loop_fuel in H; [done | lia | lia].
Qed.


(** The budget of empty visits of a call with [n] steps: [n * 10] as an
    [int].  It is [10 * n] while that fits in an [int], and less once the
    product wraps around. *)
Lemma visits_left_budget (n : Z) :
  0 < n <= INT_MAX ->
  visits_left (to_int (n * 10)) <= 10 * n /\
  (n * 10 <= INT_MAX -> visits_left (to_int (n * 10)) = 10 * n).
Proof.
  intros Hn. rewrite visits_left_to_int. unfold INT_MAX in *.
  change (2 ^ 31) with 2147483648 in *. change (2 ^ 32) with 4294967296.
  Z.div_mod_to_equations. lia.
Qed.

(** C8.  [dictRehash(d, N)] always terminates: no call, on any dictionary
    and for any [n], exhausts the loop budget of the model; and on a
    well-formed dictionary a call with a non-negative [int] [n] returns
    normally, having migrated at most [n] non-empty buckets and stepped
    over at most [10 * n] empty ones; when [10 * n] empty buckets have been
    stepped over ([0 < n]) the call has returned 1, with the rehash still
    in progress.  [empty_visits = n * 10] is computed in [int]: when the
    product does not fit, the budget is what is left of it after the
    wrap-around, which is less than [10 * n]. *)
Theorem dictRehash_bounded_work (d : dict) (n : Z) :
  dict_wf d -> 0 <= n <= INT_MAX ->
  (forall d0 n0, dictRehash_stats d0 n0 <> OutOfFuel) /\
  exists d' r st,
    dictRehash_stats d n = Ret (d', r, st) /\
    dictRehash d n = Ret (d', r) /\
    dict_wf d' /\
    0 <= migrated st <= n /\
    0 <= empty_probes st <= 10 * n /\
    (0 < n -> empty_probes st = 10 * n -> r = 1 /\ dictIsRehashing d' = true) /\
    (r = 1 /\ dictIsRehashing d' = true \/ r = 0 /\ dictIsRehashing d' = false).
Proof.
  intros Hwf Hn. split; [apply dictRehash_stats_fuel |].
  destruct (dictRehash_stats_wf d n Hwf) as (d' & r & st & Heq & Hw & Hit & Hr).
  exists d', r, st. split; [done |].
  split; [unfold dictRehash; by rewrite Heq |]. split; [done |].
  assert (r = 1 /\ dictIsRehashing d' = true \/ r = 0 /\ dictIsRehashing d' = false)
    as Hr' by (destruct Hr as [(? & ? & _) | ?]; auto).
  unfold dictRehash_stats in Heq.
  destruct (negb (dictIsRehashing d)).
  { injection Heq as <- <- <-. simpl. split_and?; try lia; done. }
  destruct (rehash_loop _ _ _ _ _) as [[[d1 early] st1] | |] eqn:Hl; try discriminate.
  cbn [mbind res_bind] in Heq.
  apply rehash_loop_counts in Hl; [| lia]. simpl in Hl.
  destruct Hl as (Hm & He & Hearly).
  assert (st1 = st /\ (early = None \/ early = Some r)) as [-> Hcase].
  { destruct early; [| destruct (_ =? _)]; injection Heq as <- <- <-; auto. }
  assert (0 < n -> visits_left (to_int (n * 10)) <= 10 * n) as Hbudget.
  { intros Hpos. apply visits_left_budget. lia. }
  split_and?; try lia.
  - destruct early as [r0 |]; [lia |].
    destruct (Z.eq_dec n 0) as [-> | Hne]; [lia |]. lia.
  - intros Hpos Hfull. specialize (Hbudget Hpos).
    destruct early as [r0 |]; [| lia].
    destruct Hcase as [? | [= ->]]; [done |].
    destruct Hearly as (-> & _). destruct Hr' as [? | [? _]]; [done | lia].
  - done.
Qed.


(** *** The invariant through the mutating calls *)

(** Replacing the chain of one bucket of [ht[t]]: the shape all of
    insertion, [dictSetVal] and unlinking have. *)
Lemma dict_wf_update (d : dict) (t idx : Z) (old b : bucket) (h' : dictht) :
  dict_wf d ->
  bucket_get (table (ht_at d t)) idx = Ret old ->
  table h' = bucket_set (table (ht_at d t)) idx b ->
  size h' = size (ht_at d t) -> sizemask h' = sizemask (ht_at d t) ->
  used h' = used (ht_at d t) - Z.of_nat (length old) + Z.of_nat (length b) ->
  (t = 0 -> dictIsRehashing d = true -> old = [] -> b = []) ->
  dict_wf (set_ht_at d t h').
Proof.
  intros (H0 & H1 & Hn & Hr) Hget Ht Hs Hm Hu Hcond.
  assert (ht_wf (ht_at d t)) as Hwt by (unfold ht_at; destruct (t =? 0); done).
  assert (ht_wf h') as Hw'.
  { pose proof (ht_wf_set_bucket _ _ _ b Hwt Hget) as (Hl' & Hu' & Hs').
    simpl in *. unfold ht_wf. rewrite Ht, Hs, Hm, Hu. done. }
  unfold set_ht_at, ht_at in *. destruct (Z.eqb_spec t 0) as [-> | Hne].
  - unfold dict_wf. simpl. split_and?; try done.
    intros Hre. destruct (Hr Hre) as (Hidx & Hs1 & Hpre). rewrite Hs.
    split_and?; try done; try lia.
    intros i c Hi Hlk. rewrite Ht in Hlk. unfold bucket_set in Hlk.
    destruct (decide (Z.to_nat idx = i)) as [<- | Hdiff].
    + apply list_lookup_insert_Some in Hlk as [(_ & <- & _) | (? & _)]; [| lia].
      apply bucket_get_ret in Hget as [Hge Hget].
      apply Hcond; try done.
      * unfold dictIsRehashing. by apply negb_true_iff, Z.eqb_neq.
      * apply (Hpre (Z.to_nat idx)); [lia | done].
    + rewrite list_lookup_insert_ne in Hlk by done. by apply (Hpre i).
  - assert (rehashidx d <> -1) as Hre.
    { intros Hidle. rewrite (Hn Hidle) in Hget. simpl in Hget.
      unfold bucket_get in Hget. destruct (idx <? 0); [discriminate |].
      by rewrite lookup_nil in Hget. }
    unfold dict_wf. simpl. split_and?; try done.
    intros _. rewrite Hs. by apply Hr.
Qed.

Lemma _dictNextPower_4 : _dictNextPower DICT_HT_INITIAL_SIZE = 4.
Proof. reflexivity. Qed.

Lemma _dictExpandIfNeeded_wf (can : bool) (d : dict) :
  dict_wf d ->
  dict_wf (fst (_dictExpandIfNeeded can d)) /\
  iterators (fst (_dictExpandIfNeeded can d)) = iterators d /\
  0 < size (ht0 (fst (_dictExpandIfNeeded can d))).
Proof.
  intros Hwf. unfold _dictExpandIfNeeded.
  destruct (dictIsRehashing d) eqn:Hre.
  { simpl. split_and?; try done. destruct Hwf as (_ & _ & _ & Hr).
    unfold dictIsRehashing in Hre. apply negb_true_iff, Z.eqb_neq in Hre.
    destruct (Hr Hre); lia. }
  destruct (Z.eqb_spec (size (ht0 d)) 0) as [Hz | Hnz].
  - split; [by apply dictExpand_wf |]. split; [apply dictExpand_iterators |].
    unfold dictExpand. rewrite Hre. simpl orb.
    destruct Hwf as ((Hl & Hu & _) & _).
    assert (table (ht0 d) = []) as Hnil by (destruct (table (ht0 d)); [done | simpl in Hl; lia]).
    rewrite Hnil in *. rewrite Hu, count_entries_nil.
    rewrite _dictNextPower_4, Hz. simpl. lia.
  - assert (0 < size (ht0 d)) as Hpos.
    { destruct Hwf as ((Hl & _) & _). lia. }
    destruct (_ && _); [| done].
    split; [by apply dictExpand_wf |]. split; [apply dictExpand_iterators |].
    unfold dictExpand. destruct (_ || _); [done |]. destruct (_ =? _); [done |].
    destruct (table_is_null (table (ht0 d))) eqn:Hnull; [| done].
    destruct Hwf as ((Hl & _) & _). destruct (table (ht0 d)); [simpl in Hl; lia | done].
Qed.

(** [_dictKeyIndex] on a well-formed dictionary: the only change is the
    one [_dictExpandIfNeeded] makes, and the index returned, when it is
    not -1, is [hash & sizemask] in the table insertions go to. *)
Lemma _dictKeyIndex_wf (can : bool) (d : dict) (k : K) (hash : Z) :
  dict_wf d ->
  exists idx ex,
    let d' := fst (_dictExpandIfNeeded can d) in
    let t := if dictIsRehashing d' then 1 else 0 in
    _dictKeyIndex can d k hash = Ret (d', idx, ex) /\
    (idx = -1 \/ (ex = None /\ idx = Z.land hash (sizemask (ht_at d' t)) /\
                  0 <= idx < size (ht_at d' t))).
Proof.
  intros Hwf. destruct (_dictExpandIfNeeded_wf can d Hwf) as (Hwf' & _ & Hpos).
  unfold _dictKeyIndex. destruct (_dictExpandIfNeeded can d) as [d' rc]. simpl in *.
  destruct (rc =? DICT_ERR); [by exists (-1), None; auto |].
  pose proof Hwf' as (H0 & H1 & Hn & Hr).
  destruct (bucket_get_masked (ht0 d') hash H0 Hpos) as [b0 Hb0].
  rewrite Hb0. cbn [mbind res_bind].
  destruct (chain_index k b0) as [p |]; [by eexists (-1), _; auto |].
  destruct (dictIsRehashing d') eqn:Hre; simpl negb; cbv iota.
  - unfold dictIsRehashing in Hre. apply negb_true_iff, Z.eqb_neq in Hre.
    destruct (Hr Hre) as (_ & Hs1 & _).
    destruct (bucket_get_masked (ht1 d') hash H1 Hs1) as [b1 Hb1].
    rewrite Hb1. cbn [mbind res_bind].
    destruct (chain_index k b1) as [p |]; [by eexists (-1), _; auto |].
    eexists _, None. split; [done |]. right. split_and?; try done;
      by apply land_sizemask_range.
  - eexists _, None. split; [done |]. right. split_and?; try done;
      by apply land_sizemask_range.
Qed.

(** [dictAddRaw] on a well-formed dictionary returns normally and keeps it
    well formed; whether the result is rehashing, and the sizes of its
    tables, are as [_dictExpandIfNeeded] left them. *)
Lemma dictAddRaw_wf_sizes (can : bool) (d : dict) (k : K) :
  dict_wf d ->
  exists d1 d' entry ex,
    (if dictIsRehashing d then _dictRehashStep d else Ret d) = Ret d1 /\
    dictAddRaw can d k = Ret (d', entry, ex) /\ dict_wf d' /\
    let d2 := fst (_dictExpandIfNeeded can d1) in
    rehashidx d' = rehashidx d2 /\
    size (ht0 d') = size (ht0 d2) /\ size (ht1 d') = size (ht1 d2).
Proof.
  intros Hwf. unfold dictAddRaw.
  destruct (maybe_step_wf d Hwf) as (d1 & Hstep & Hwf1 & _). exists d1.
  rewrite Hstep. cbn [mbind res_bind].
  destruct (_dictKeyIndex_wf can d1 k (dictHashKey k) Hwf1) as (idx & ex & Heq & Hidx).
  destruct (_dictExpandIfNeeded_wf can d1 Hwf1) as (Hwf2 & _ & _).
  simpl in Heq, Hidx. rewrite Heq. cbn [mbind res_bind].
  set (d2 := fst (_dictExpandIfNeeded can d1)) in *.
  destruct (Z.eqb_spec idx (-1)) as [-> | Hne]; [by eexists _, _, _ |].
  destruct Hidx as [? | (_ & _ & Hrange)]; [done |].
  set (t := if dictIsRehashing d2 then 1 else 0) in *.
  destruct (bucket_get_in_range (table (ht_at d2 t)) idx) as [next Hnext].
  { assert (ht_wf (ht_at d2 t)) as (Hl & _).
    { destruct Hwf2 as (? & ? & _). unfold ht_at. by destruct (t =? 0). }
    lia. }
  rewrite Hnext. cbn [mbind res_bind]. eexists _, _, _.
  split; [done |]. split; [done |]. split.
  - eapply dict_wf_update; try done; simpl; try lia.
    intros Ht Hre. subst t. by rewrite Hre in Ht.
  - unfold set_ht_at, ht_at. destruct (t =? 0); done.
Qed.

Lemma dictAddRaw_wf (can : bool) (d : dict) (k : K) :
  dict_wf d ->
  exists d' entry ex, dictAddRaw can d k = Ret (d', entry, ex) /\ dict_wf d'.
Proof.
  intros Hwf.
  destruct (dictAddRaw_wf_sizes can d k Hwf) as (_ & d' & entry & ex & _ & H & Hw & _).
  by exists d', entry, ex.
Qed.

Lemma dictSetVal_wf (d : dict) (r : entryRef) (v : option V) (d' : dict) :
  dict_wf d -> dictSetVal d r v = Ret d' -> dict_wf d'.
Proof.
  intros Hwf H. unfold dictSetVal in H.
  destruct (bucket_get _ _) as [b | |] eqn:Hb; try discriminate.
  cbn [mbind res_bind] in H. destruct (b !! ref_pos r) as [e |] eqn:He; try discriminate.
  injection H as <-. eapply dict_wf_update; try done; simpl.
  - rewrite length_insert. lia.
  - intros _ _ ->. done.
Qed.

Lemma chain_unlink_length (k : K) (he : bucket) (x : dictEntry) (rest : bucket) :
  chain_unlink k he = Some (x, rest) -> length he = S (length rest).
Proof.
  revert x rest. induction he as [| e he IH]; intros x rest H; simpl in H; [discriminate |].
  destruct (keyCompare k (key e)).
  - by injection H as <- <-.
  - destruct (chain_unlink k he) as [[y rest'] |]; [| discriminate].
    simpl in H. injection H as <- <-. simpl. f_equal. by eapply IH.
Qed.

Lemma generic_delete_in_wf (d : dict) (t : Z) (k : K) (hkey : Z) (nofree : bool)
    (h : dictht) (x : dictEntry) (log : list free_event) :
  dict_wf d ->
  generic_delete_in (ht_at d t) k hkey nofree = Ret (Some (h, x, log)) ->
  dict_wf (set_ht_at d t h).
Proof.
  intros Hwf H. unfold generic_delete_in in H.
  destruct (bucket_get _ _) as [he | |] eqn:Hb; try discriminate.
  cbn [mbind res_bind] in H.
  destruct (chain_unlink k he) as [[y rest] |] eqn:Hu; [| discriminate].
  injection H as <- <- <-. apply chain_unlink_length in Hu.
  eapply dict_wf_update; try done; simpl; try lia.
  intros _ _ ->. done.
Qed.

Lemma _dictGenericDelete_wf (d : dict) (k : K) (nofree : bool)
    (d' : dict) (he : option dictEntry) (log : list free_event) :
  dict_wf d -> _dictGenericDelete d k nofree = Ret (d', he, log) -> dict_wf d'.
Proof.
  intros Hwf H. unfold _dictGenericDelete in H.
  destruct (_ && _); [by injection H as <- <- <- |].
  destruct (maybe_step_wf d Hwf) as (d1 & Heq & Hwf1 & _).
  rewrite Heq in H. cbn [mbind res_bind] in H.
  destruct (generic_delete_in (ht0 d1) _ _ _) as [[[[h x] l] |] | |] eqn:H0;
    try discriminate; cbn [mbind res_bind] in H.
  - injection H as <- <- <-. by apply (generic_delete_in_wf d1 0) in H0.
  - destruct (negb _); [by injection H as <- <- <- |].
    destruct (generic_delete_in (ht1 d1) _ _ _) as [[[[h x] l] |] | |] eqn:H1;
      try discriminate; cbn [mbind res_bind] in H; injection H as <- <- <-;
      [by apply (generic_delete_in_wf d1 1) in H1 | done].
Qed.

Lemma dictFind_wf (d : dict) (k : K) (d' : dict) (r : option entryRef) :
  dict_wf d -> dictFind d k = Ret (d', r) -> dict_wf d'.
Proof.
  intros Hwf H. unfold dictFind in H.
  destruct (used (ht0 d) + used (ht1 d) =? 0); [by injection H as <- <- |].
  destruct (maybe_step_wf d Hwf) as (d1 & Heq & Hwf1 & _).
  rewrite Heq in H. cbn [mbind res_bind] in H.
  bind_case H. destruct (chain_index k a); [by injection H as <- <- |].
  destruct (negb _); [by injection H as <- <- |].
  bind_case H. destruct (chain_index k a0); by injection H as <- <-.
Qed.

(** *** Removal and lookup return *)

Lemma ht_wf_used_size (h : dictht) : ht_wf h -> used h <> 0 -> 0 < size h.
Proof.
  intros (Hl & Hu & _) Hne.
  destruct (table h) as [| b t] eqn:Ht; [| simpl in Hl; lia].
  rewrite Hu in Hne. by rewrite count_entries_nil in Hne.
Qed.

Lemma dict_wf_size_pos (d : dict) :
  dict_wf d -> used (ht0 d) <> 0 \/ used (ht1 d) <> 0 -> 0 < size (ht0 d).
Proof.
  intros (H0 & H1 & Hn & Hr) [Hu | Hu]; [by apply ht_wf_used_size |].
  destruct (Z.eq_dec (rehashidx d) (-1)) as [He | He].
  - rewrite (Hn He) in Hu. done.
  - destruct (Hr He) as (? & _). lia.
Qed.

Lemma dictRehash_stats_size_pos (d d' : dict) (n r : Z) (st : rehash_stats) :
  dict_wf d -> 0 < size (ht0 d) ->
  dictRehash_stats d n = Ret (d', r, st) -> 0 < size (ht0 d').
Proof.
  intros Hwf Hpos H. unfold dictRehash_stats in H.
  destruct (dictIsRehashing d) eqn:Hre; simpl negb in H; cbv iota in H;
    [| by simplify_eq].
  destruct Hwf as (H0 & H1 & Hn & Hr).
  unfold dictIsRehashing in Hre. apply negb_true_iff, Z.eqb_neq in Hre.
  destruct (Hr Hre) as (Hidx & Hs1 & Hpre).
  destruct (rehash_loop_wf (S (length (table (ht0 d)))) d n (to_int (n * 10))
              (mkStats 0 0))
    as (dl & early & st' & Heq & Hinv & Hit & Hearly).
  { unfold rehash_inv. split_and?; try done; lia. }
  { destruct H0 as (Hl & _). lia. }
  rewrite Heq in H. cbn [mbind res_bind] in H.
  assert (used (ht0 dl) <> 0 -> 0 < size (ht0 dl)) as Hstill.
  { intros Hu. pose proof (rehash_inv_lt dl Hinv Hu).
    destruct Hinv as (_ & _ & ? & _). lia. }
  destruct Hearly as [-> | [-> Hu]].
  - destruct (Z.eqb_spec (used (ht0 dl)) 0) as [Hz | Hnz]; simplify_eq.
    + simpl. by destruct Hinv as (_ & _ & _ & ? & _).
    + by apply Hstill.
  - simplify_eq. by apply Hstill.
Qed.

Lemma maybe_step_size_pos (d : dict) :
  dict_wf d -> 0 < size (ht0 d) ->
  exists d', (if dictIsRehashing d then _dictRehashStep d else Ret d) = Ret d' /\
             dict_wf d' /\ 0 < size (ht0 d').
Proof.
  intros Hwf Hpos. destruct (dictIsRehashing d); [| by exists d].
  unfold _dictRehashStep. destruct (iterators d =? 0); [| by exists d].
  destruct (dictRehash_stats_wf d 1 Hwf) as (d' & r & st & Heq & Hw & _).
  exists d'. unfold dictRehash. rewrite Heq. cbn [mbind res_bind].
  split_and!; try done. exact (dictRehash_stats_size_pos d d' 1 r st Hwf Hpos Heq).
Qed.

(** [_dictGenericDelete] returns on every well-formed dictionary. *)
Lemma _dictGenericDelete_total (d : dict) (k : K) (nofree : bool) :
  dict_wf d ->
  exists d' he log, _dictGenericDelete d k nofree = Ret (d', he, log).
Proof.
  intros Hwf. unfold _dictGenericDelete.
  destruct ((used (ht0 d) =? 0) && (used (ht1 d) =? 0)) eqn:He; [by eauto |].
  assert (0 < size (ht0 d)) as Hpos.
  { apply dict_wf_size_pos; [done |].
    apply andb_false_iff in He as [He | He]; apply Z.eqb_neq in He; auto. }
  destruct (maybe_step_size_pos d Hwf Hpos) as (d1 & -> & Hwf1 & Hpos1).
  cbn [mbind res_bind]. unfold generic_delete_in.
  pose proof Hwf1 as (H0 & H1 & Hn & Hr).
  destruct (bucket_get_masked (ht0 d1) (dictHashKey k) H0 Hpos1) as (b0 & ->).
  cbn [mbind res_bind].
  destruct (chain_unlink k b0) as [[x rest] |]; [by eauto |].
  destruct (dictIsRehashing d1) eqn:Hre; simpl negb; cbv iota; [| by eauto].
  unfold dictIsRehashing in Hre. apply negb_true_iff, Z.eqb_neq in Hre.
  destruct (Hr Hre) as (_ & Hs1 & _).
  destruct (bucket_get_masked (ht1 d1) (dictHashKey k) H1 Hs1) as (b1 & ->).
  cbn [mbind res_bind].
  destruct (chain_unlink k b1) as [[x rest] |]; by eauto.
Qed.

Lemma chain_unlink_index (k : K) (b : bucket) :
  is_Some (chain_unlink k b) <-> is_Some (chain_index k b).
Proof.
  induction b as [| e b IH]; simpl.
  - split; intros [? ?]; discriminate.
  - destruct (keyCompare k (key e)); [split; eauto |].
    destruct (chain_unlink k b) as [[x rest] |], (chain_index k b) as [p |];
      simpl; split; intros [? ?]; try discriminate; eauto;
      exfalso; [apply (is_Some_None (A := nat)), IH | apply (is_Some_None (A := dictEntry * bucket)), IH];
      eauto.
Qed.

(** [dictUnlink] finds an entry exactly when [dictFind] finds one. *)
Lemma dictUnlink_dictFind (d d' : dict) (k : K) (he : option dictEntry) :
  dict_wf d -> dictUnlink d k = Ret (d', he) ->
  exists d'' r, dictFind d k = Ret (d'', r) /\ (is_Some r <-> is_Some he).
Proof.
  intros Hwf H. unfold dictUnlink, _dictGenericDelete in H. unfold dictFind.
  pose proof Hwf as (Hw0 & Hw1 & _).
  assert (0 <= used (ht0 d) /\ 0 <= used (ht1 d)) as [Hu0 Hu1].
  { destruct Hw0 as (_ & -> & _), Hw1 as (_ & -> & _).
    split; apply count_entries_nonneg. }
  destruct ((used (ht0 d) =? 0) && (used (ht1 d) =? 0)) eqn:He.
  - apply andb_true_iff in He as [?%Z.eqb_eq ?%Z.eqb_eq].
    replace (used (ht0 d) + used (ht1 d) =? 0) with true by (symmetry; apply Z.eqb_eq; lia).
    cbn [mbind res_bind] in H. simplify_eq. eexists _, _. split; [reflexivity |].
    split; intros [? ?]; discriminate.
  - replace (used (ht0 d) + used (ht1 d) =? 0) with false.
    2:{ symmetry. apply Z.eqb_neq.
        apply andb_false_iff in He as [He | He]; apply Z.eqb_neq in He; lia. }
    destruct (if dictIsRehashing d then _dictRehashStep d else Ret d) as [d1 | |];
      cbn [mbind res_bind] in *; try discriminate.
    unfold generic_delete_in in H.
    destruct (bucket_get (table (ht0 d1)) _) as [b0 | |];
      cbn [mbind res_bind] in *; try discriminate.
    pose proof (chain_unlink_index k b0) as Hi0.
    destruct (chain_unlink k b0) as [[x rest] |], (chain_index k b0) as [p |];
      cbn [mbind res_bind] in *.
    + simplify_eq. eexists _, _. split; [done |]. split; eauto.
    + exfalso. apply (is_Some_None (A := nat)), Hi0. eauto.
    + exfalso. apply (is_Some_None (A := dictEntry * bucket)), Hi0. eauto.
    + destruct (negb (dictIsRehashing d1)); cbn [mbind res_bind] in H.
      * simplify_eq. eexists _, _. split; [done |]. split; intros [? ?]; discriminate.
      * destruct (bucket_get (table (ht1 d1)) _) as [b1 | |];
          cbn [mbind res_bind] in *; try discriminate.
        pose proof (chain_unlink_index k b1) as Hi1.
        destruct (chain_unlink k b1) as [[x rest] |], (chain_index k b1) as [p |];
          cbn [mbind res_bind] in *.
        -- simplify_eq. eexists _, _. split; [done |]. split; eauto.
        -- exfalso. apply (is_Some_None (A := nat)), Hi1. eauto.
        -- exfalso. apply (is_Some_None (A := dictEntry * bucket)), Hi1. eauto.
        -- simplify_eq. eexists _, _. split; [done |].
           split; intros [? ?]; discriminate.
Qed.

(** [dictDelete] returns on every well-formed dictionary, with [DICT_OK]
    or [DICT_ERR], and leaves a well-formed dictionary. *)
Theorem dictDelete_returns (d : dict) (k : K) :
  dict_wf d ->
  exists d' r log,
    dictDelete d k = Ret (d', r, log) /\ dict_wf d' /\
    (r = DICT_OK \/ r = DICT_ERR).
Proof.
  intros Hwf.
  destruct (_dictGenericDelete_total d k false Hwf) as (d' & he & log & H).
  exists d', (match he with Some _ => DICT_OK | None => DICT_ERR end), log.
  unfold dictDelete. rewrite H. cbn [mbind res_bind].
  split_and!; [done | by eapply _dictGenericDelete_wf | destruct he; auto].
Qed.


Lemma dict_wf_set_iterators (d : dict) (n : Z) : dict_wf d -> dict_wf (set_iterators d n).
Proof. intros Hwf. exact Hwf. Qed.

Lemma next_loop_dict (fuel : nat) (iter : dictIterator) (d : dict)
    (iter' : dictIterator) (d' : dict) (e : option dictEntry) :
  next_loop fuel iter d = Ret (iter', d', e) ->
  exists n, d' = set_iterators d n.
Proof.
  revert iter d. induction fuel as [| fuel IH]; intros iter d H; [discriminate |].
  assert (forall it0 d0 entry,
            match entry with
            | x :: next =>
              Ret (mkIter (it_index it0) (it_table it0) (it_safe it0) entry next
                          (it_fingerprint it0), d0, Some x)
            | [] =>
              next_loop fuel (mkIter (it_index it0) (it_table it0) (it_safe it0) []
                                     (it_nextEntry it0) (it_fingerprint it0)) d0
            end = Ret (iter', d', e) ->
            exists n, d' = set_iterators d0 n) as Hyield.
  { intros it0 d0 [| x next] Hy.
    - by apply IH in Hy.
    - injection Hy as <- <- <-. exists (iterators d0). by destruct d0. }
  cbn [next_loop] in H.
  destruct (it_entry iter); [| by apply Hyield in H].
  set (d1 := if _ : bool then set_iterators d _ else d) in H.
  assert (exists n, d1 = set_iterators d n) as [n Hd1].
  { subst d1. destruct (_ && it_safe iter); eauto. exists (iterators d). by destruct d. }
  assert (forall m, set_iterators d1 m = set_iterators d m) as Hset by (by rewrite Hd1).
  destruct (_ <=? _).
  - destruct (dictIsRehashing d1 && (it_table iter =? 0)).
    + bind_case H. apply Hyield in H as [m ->]. rewrite Hset. eauto.
    + injection H as <- <- <-. eauto.
  - bind_case H. apply Hyield in H as [m ->]. rewrite Hset. eauto.
Qed.

Lemma clear_res_wf (d : dict) (cb : bool) (d' : dict) (log : list clear_event) :
  dictEmpty d cb = Ret (d', log) -> dict_wf d'.
Proof.
  unfold dictEmpty, _dictClear. intros H.
  bind_case H. destruct a as [h0 l0]. bind_case E. injection E as <- <-.
  bind_case H. destruct a0 as [h1 l1]. bind_case E. injection E as <- <-.
  injection H as <- <-.
  unfold dict_wf. simpl. split_and?; try apply ht_wf_reset; try done.
Qed.

(** Every API call keeps a well-formed dictionary well formed. *)
Lemma exec_op_wf (o : dict_op) (can : bool) (d : dict) (can' : bool) (d' : dict) :
  dict_wf d -> exec_op o (can, d) = Ret (can', d') -> dict_wf d'.
Proof.
  intros Hwf H. destruct o; cbn [exec_op] in H.
  - (* dictAdd *)
    bind_case H. destruct a as [d1 rc]. injection H as <- <-.
    unfold dictAdd in E. bind_case E. destruct a as [[d2 entry] ex].
    destruct (dictAddRaw_wf can d k Hwf) as (d3 & en & ex' & Heq & Hw).
    rewrite Heq in E0. injection E0 as <- <- <-.
    destruct en; [| by injection E as <- <-].
    bind_case E. injection E as <- <-. by eapply dictSetVal_wf.
  - (* dictAddRaw *)
    bind_case H. destruct a as [[d1 entry] ex]. injection H as <- <-.
    destruct (dictAddRaw_wf can d k Hwf) as (d3 & en & ex' & Heq & Hw).
    rewrite Heq in E. by injection E as <- <- <-.
  - (* dictAddOrFind *)
    bind_case H. destruct a as [d1 r]. injection H as <- <-.
    unfold dictAddOrFind in E. bind_case E. destruct a as [[d2 entry] ex].
    destruct (dictAddRaw_wf can d k Hwf) as (d3 & en & ex' & Heq & Hw).
    rewrite Heq in E0. injection E0 as <- <- <-. by injection E as <- <-.
  - (* dictReplace *)
    bind_case H. destruct a as [[d1 rc] log]. injection H as <- <-.
    unfold dictReplace in E. bind_case E. destruct a as [[d2 entry] ex].
    destruct (dictAddRaw_wf can d k Hwf) as (d3 & en & ex' & Heq & Hw).
    rewrite Heq in E0. injection E0 as <- <- <-.
    destruct en.
    + bind_case E. injection E as <- <- <-. by eapply dictSetVal_wf.
    + destruct ex'; [| discriminate]. bind_case E. bind_case E.
      injection E as <- <- <-. by eapply dictSetVal_wf.
  - (* dictDelete *)
    bind_case H. destruct a as [[d1 rc] log]. injection H as <- <-.
    unfold dictDelete in E. bind_case E. destruct a as [[d2 he] l].
    injection E as <- <- <-. by eapply _dictGenericDelete_wf.
  - (* dictUnlink *)
    bind_case H. destruct a as [d1 he]. injection H as <- <-.
    unfold dictUnlink in E. bind_case E. destruct a as [[d2 x] l].
    injection E as <- <-. by eapply _dictGenericDelete_wf.
  - (* dictFind *)
    bind_case H. destruct a as [d1 r]. injection H as <- <-. by eapply dictFind_wf.
  - (* dictFetchValue *)
    bind_case H. destruct a as [d1 r]. injection H as <- <-.
    unfold dictFetchValue in E. bind_case E. destruct a as [d2 he].
    apply dictFind_wf in E0; [| done].
    destruct he; [bind_case E |]; by injection E as <- <-.
  - (* dictRehash *)
    bind_case H. destruct a as [d1 r]. injection H as <- <-.
    destruct (dictRehash_wf d n Hwf) as (d2 & r2 & Heq & Hw & _).
    rewrite Heq in E. by injection E as <- <-.
  - (* dictExpand *)
    injection H as <- <-. by apply dictExpand_wf.
  - (* dictResize *)
    injection H as <- <-. unfold dictResize. destruct (_ || _); [done |].
    by apply dictExpand_wf.
  - (* dictEmpty *)
    bind_case H. destruct a as [d1 log]. injection H as <- <-. by eapply clear_res_wf.
  - (* dictNext *)
    bind_case H. destruct a as [[it d1] e]. injection H as <- <-.
    apply next_loop_dict in E as [n ->]. by apply dict_wf_set_iterators.
  - (* dictReleaseIterator *)
    bind_case H. injection H as <- <-. unfold dictReleaseIterator in E.
    destruct (negb _); [| by injection E as <-].
    destruct (it_safe iter); [by injection E as <- |].
    destruct (_ =? _); [by injection E as <- | discriminate].
  - by injection H as <- <-.
  - by injection H as <- <-.
Qed.

Lemma exec_ops_wf (os : list dict_op) (can : bool) (d : dict) (can' : bool) (d' : dict) :
  dict_wf d -> exec_ops os (can, d) = Ret (can', d') -> dict_wf d'.
Proof.
  revert can d. induction os as [| o os IH]; intros can d Hwf H; cbn [exec_ops] in H.
  - by injection H as <- <-.
  - bind_case H. destruct a as [can1 d1]. eapply IH; [| done]. by eapply exec_op_wf.
Qed.


(** *** What one rehash step and one insertion do *)

Lemma bucket_get_set_eq (t : list bucket) (i : Z) (old b : bucket) :
  bucket_get t i = Ret old -> bucket_get (bucket_set t i b) i = Ret b.
Proof.
  intros H. apply bucket_get_ret in H as [Hi H]. apply bucket_get_ret.
  split; [done |]. unfold bucket_set. apply list_lookup_insert_eq.
  by apply lookup_lt_Some in H.
Qed.

Lemma bucket_get_set_ne (t : list bucket) (i j : Z) (b : bucket) :
  0 <= i -> 0 <= j -> i <> j -> bucket_get (bucket_set t i b) j = bucket_get t j.
Proof.
  intros Hi Hj Hne. unfold bucket_get, bucket_set.
  rewrite list_lookup_insert_ne by lia. done.
Qed.

(** Entries pushed by [migrate_chain] are in the bucket their hash selects
    under the mask of [ht[1]], and nothing leaves [ht[1]]. *)
Lemma migrate_chain_member (de : bucket) (h0 h1 h0' h1' : dictht) :
  migrate_chain de h0 h1 = Ret (h0', h1') ->
  sizemask h1' = sizemask h1 /\
  (forall i b x, bucket_get (table h1) i = Ret b -> In x b ->
                 exists b', bucket_get (table h1') i = Ret b' /\ In x b') /\
  (forall x, In x de ->
             exists b', bucket_get (table h1')
                          (Z.land (dictHashKey (key x)) (sizemask h1)) = Ret b' /\
                        In x b').
Proof.
  revert h0 h1. induction de as [| e de IH]; intros h0 h1 H; cbn [migrate_chain] in H.
  - injection H as <- <-. split_and?; [done | eauto | intros x []].
  - bind_case H. apply IH in H as (Hm & Hkeep & Hnew). simpl in Hm, Hkeep, Hnew.
    set (hk := Z.land (dictHashKey (key e)) (sizemask h1)) in *.
    assert (forall i b x, bucket_get (table h1) i = Ret b -> In x b ->
              exists b', bucket_get (bucket_set (table h1) hk (e :: a)) i = Ret b' /\ In x b')
      as Hstep.
    { intros i b x Hb Hx. destruct (Z.eq_dec hk i) as [<- | Hne].
      - rewrite (bucket_get_set_eq _ _ a) by done. eexists. split; [done |].
        right. congruence.
      - rewrite bucket_get_set_ne; eauto.
        + by apply bucket_get_ret in E as [? _].
        + by apply bucket_get_ret in Hb as [? _]. }
    split_and?; [done | |].
    + intros i b x Hb Hx. destruct (Hstep i b x Hb Hx) as (b1 & Hb1 & Hx1). eauto.
    + intros x [<- | Hx]; [| by apply Hnew].
      apply (Hkeep hk (e :: a)); [| by left]. by apply (bucket_get_set_eq _ _ a).
Qed.

Lemma rehash_loop_unfold (fuel : nat) (d : dict) (n ev : Z) (st : rehash_stats) :
  rehash_loop (S fuel) d n ev st =
  if (n =? 0) || (used (ht0 d) =? 0) then Ret (d, None, st)
  else
    if negb (to_ulong (rehashidx d) <? size (ht0 d)) then Fault
    else
      sk ← skip_empty (S (length (table (ht0 d)))) (table (ht0 d))
                      (rehashidx d) ev;
      match sk with
      | SkipBudget idx =>
        Ret (set_rehashidx d idx, Some 1,
             mkStats (migrated st) (empty_probes st + (idx - rehashidx d)))
      | SkipFound idx empty_visits =>
        de ← bucket_get (table (ht0 d)) idx;
        '(h0, h1) ← migrate_chain de (ht0 d) (ht1 d);
        rehash_loop fuel (mkDict (set_table h0 (bucket_set (table h0) idx [])) h1
                                 (idx + 1) (iterators d)) (to_int (n - 1))
          empty_visits
          (mkStats (migrated st + 1) (empty_probes st + (idx - rehashidx d)))
      end.
Proof. reflexivity. Qed.

(** One step on a dictionary whose bucket at the cursor holds entries:
    all of them are in [ht[1]] afterwards (which has become [ht[0]] if the
    step completed the rehash), each in the bucket its hash selects under
    the mask of [ht[1]]; while the rehash goes on, the bucket they left is
    empty and the cursor is one further. *)
Lemma rehash_step_moves_bucket (d : dict) (e : dictEntry) (c : bucket) :
  dict_wf d -> dictIsRehashing d = true ->
  bucket_get (table (ht0 d)) (rehashidx d) = Ret (e :: c) ->
  exists d' r,
    dictRehash d 1 = Ret (d', r) /\
    let t1' := if dictIsRehashing d' then ht1 d' else ht0 d' in
    sizemask t1' = sizemask (ht1 d) /\
    (forall x, In x (e :: c) ->
       exists b, bucket_get (table t1')
                   (Z.land (dictHashKey (key x)) (sizemask (ht1 d))) = Ret b /\
                 In x b) /\
    (dictIsRehashing d' = true ->
       rehashidx d' = rehashidx d + 1 /\
       table (ht0 d') = bucket_set (table (ht0 d)) (rehashidx d) []).
Proof.
  intros Hwf Hre Hb.
  pose proof Hwf as (H0 & H1 & Hn & Hr).
  pose proof Hre as Hre'. unfold dictIsRehashing in Hre'.
  apply negb_true_iff, Z.eqb_neq in Hre'.
  destruct (Hr Hre') as (Hidx & Hs1 & Hpre).
  assert (used (ht0 d) <> 0) as Hu.
  { pose proof Hb as Hb'. apply bucket_get_ret in Hb' as [_ Hlk].
    apply count_entries_lookup_le in Hlk. destruct H0 as (_ & -> & _). simpl in Hlk. lia. }
  destruct (length (table (ht0 d))) as [| m] eqn:Hlen.
  { destruct H0 as (Hl & _). lia. }
  destruct (migrate_chain_spec (e :: c) (ht0 d) (ht1 d) H1 Hs1)
    as (h1' & Hm & Hw1 & Hsz1 & Hu1).
  pose proof (migrate_chain_member _ _ _ _ _ Hm) as (Hmask & _ & Hnew).
  unfold dictRehash, dictRehash_stats. rewrite Hre. simpl negb. cbv iota.
  rewrite Hlen, rehash_loop_unfold.
  assert (((1 =? 0) || (used (ht0 d) =? 0)) = false) as ->.
  { apply orb_false_iff. split; [done | by apply Z.eqb_neq]. }
  assert ((to_ulong (rehashidx d) <? size (ht0 d)) = true) as ->.
  { apply Z.ltb_lt. unfold to_ulong, ULONG_MOD.
    destruct H0 as (_ & _ & [[? _] | [(k & Hk & Hs) _]]); [lia |].
    assert (2 ^ k <= 2 ^ 63) by (apply Z.pow_le_mono_r; lia).
    rewrite Z.mod_small; lia. }
  simpl negb. cbv iota. rewrite Hlen. cbn [skip_empty]. rewrite Hb.
  cbn [mbind res_bind]. rewrite Hb. cbn [mbind res_bind]. rewrite Hm.
  cbn [mbind res_bind]. rewrite rehash_loop_unfold.
  change (to_int (1 - 1)) with 0. simpl orb. cbv iota.
  cbn [mbind res_bind]. cbn [ht0 ht1 used set_table set_used rehashidx table].
  destruct (used (ht0 d) - Z.of_nat (length (e :: c)) =? 0) eqn:Hz;
    cbn [mbind res_bind]; eexists _, _; (split; [reflexivity |]);
    unfold dictIsRehashing; cbn [rehashidx ht0 ht1 table set_table set_used sizemask].
  - simpl. split_and?; [done | done | discriminate].
  - assert ((rehashidx d + 1 =? -1) = false) as -> by (apply Z.eqb_neq; lia).
    simpl negb. cbv iota. split_and?; done.
Qed.

(** An entry added while the dictionary is rehashing is the head of its
    bucket of [ht[1]], chosen with the mask of [ht[1]]; [ht[0]] is as the
    rehash step of the call left it. *)
Lemma dictAddRaw_targets_ht1 (can : bool) (d : dict) (k : K)
    (d' : dict) (r : entryRef) (ex : option entryRef) :
  dictAddRaw can d k = Ret (d', Some r, ex) -> dictIsRehashing d' = true ->
  r = mkRef 1 (Z.land (dictHashKey k) (sizemask (ht1 d'))) O /\
  (exists next, bucket_get (table (ht1 d')) (ref_idx r)
                = Ret (mkEntry (keyDup k) None :: next)) /\
  exists d1, (if dictIsRehashing d then _dictRehashStep d else Ret d) = Ret d1 /\
             ht0 d' = ht0 d1.
Proof.
  intros H Hre. unfold dictAddRaw in H. bind_case H. rename a into d1.
  bind_case H. destruct a as [[d2 index] ex2].
  destruct (Z.eqb_spec index (-1)) as [| Hidx]; [discriminate |].
  bind_case H. injection H as <- <- <-.
  assert (dictIsRehashing d2 = true) as Hre2.
  { unfold dictIsRehashing in *. unfold set_ht_at in Hre.
    destruct (_ =? 0) in Hre; done. }
  rewrite Hre2 in *. cbn [ht_at set_ht_at Z.eqb] in *.
  unfold _dictKeyIndex in E0.
  destruct (_dictExpandIfNeeded can d1) as [d3 rc] eqn:Hex.
  destruct (rc =? DICT_ERR); [by injection E0 as <- <- <- |].
  bind_case E0. destruct (chain_index k a0); [by injection E0 as <- <- <- |].
  assert (d3 = d2) as ->.
  { destruct (negb (dictIsRehashing d3)); [by simplify_eq |].
    bind_case E0. destruct (chain_index k a1); by simplify_eq. }
  rewrite Hre2 in E0. simpl negb in E0. cbv iota in E0.
  bind_case E0. destruct (chain_index k a1); [by simplify_eq |].
  injection E0 as <- <-.
  split_and?; [done | |].
  - exists a. simpl. by apply (bucket_get_set_eq _ _ a).
  - exists d1. split; [done |]. simpl.
    unfold _dictExpandIfNeeded in Hex.
    destruct (dictIsRehashing d1); [by injection Hex as <- <- |].
    unfold dictExpand in Hex.
    repeat match type of Hex with
           | (if ?b then _ else _) = _ => destruct b eqn:?
           end; injection Hex as <- <-; try done;
      unfold dictIsRehashing in Hre2; simpl in Hre2;
      match goal with
      | H : dictIsRehashing d1 || _ = false |- _ =>
        apply orb_false_iff in H as [H _]; unfold dictIsRehashing in H;
          rewrite H in Hre2; discriminate
      end.
Qed.


Lemma dict_wf_prefix (d : dict) :
  dict_wf d -> dictIsRehashing d = true ->
  prefix_empty (table (ht0 d)) (rehashidx d).
Proof.
  intros (_ & _ & _ & Hr) Hre. unfold dictIsRehashing in Hre.
  apply negb_true_iff, Z.eqb_neq in Hre. by apply Hr.
Qed.

(** C4.  Migration monotonicity.  In a well-formed dictionary that is
    rehashing, every bucket of [ht[0]] below [rehashidx] is empty, and
    every API call that returns leaves the dictionary well formed, so the
    property holds again.  A rehash step on a non-empty bucket at the
    cursor puts each of its entries in the bucket of [ht[1]] that
    [hash & ht[1].sizemask] selects and, while the rehash goes on, leaves
    the bucket empty with the cursor one further.  An entry inserted by a
    call that leaves the dictionary rehashing heads its bucket of [ht[1]],
    and [ht[0]] is as the rehash step of that call left it. *)
Theorem migration_monotonicity (d : dict) :
  dict_wf d ->
  (dictIsRehashing d = true -> prefix_empty (table (ht0 d)) (rehashidx d)) /\
  (forall o can can' d',
     exec_op o (can, d) = Ret (can', d') ->
     dict_wf d' /\
     (dictIsRehashing d' = true -> prefix_empty (table (ht0 d')) (rehashidx d'))) /\
  (forall e c,
     dictIsRehashing d = true ->
     bucket_get (table (ht0 d)) (rehashidx d) = Ret (e :: c) ->
     exists d' r,
       dictRehash d 1 = Ret (d', r) /\
       let t1' := if dictIsRehashing d' then ht1 d' else ht0 d' in
       sizemask t1' = sizemask (ht1 d) /\
       (forall x, In x (e :: c) ->
          exists b, bucket_get (table t1')
                      (Z.land (dictHashKey (key x)) (sizemask (ht1 d))) = Ret b /\
                    In x b) /\
       (dictIsRehashing d' = true ->
          rehashidx d' = rehashidx d + 1 /\
          table (ht0 d') = bucket_set (table (ht0 d)) (rehashidx d) [])) /\
  (forall can k,
     exists d' entry ex,
       dictAddRaw can d k = Ret (d', entry, ex) /\
       forall r, entry = Some r -> dictIsRehashing d' = true ->
         r = mkRef 1 (Z.land (dictHashKey k) (sizemask (ht1 d'))) O /\
         (exists next, bucket_get (table (ht1 d')) (ref_idx r)
                       = Ret (mkEntry (keyDup k) None :: next)) /\
         exists d1, (if dictIsRehashing d then _dictRehashStep d else Ret d) = Ret d1 /\
                    ht0 d' = ht0 d1).
Proof.
  intros Hwf. split_and?.
  - by apply dict_wf_prefix.
  - intros o can can' d' H. pose proof (exec_op_wf _ _ _ _ _ Hwf H) as Hwf'.
    split; [done | by apply dict_wf_prefix].
  - intros e c Hre Hb. by apply rehash_step_moves_bucket.
  - intros can k. destruct (dictAddRaw_wf can d k Hwf) as (d' & entry & ex & Heq & _).
    exists d', entry, ex. split; [done |]. intros r -> Hre.
    by eapply dictAddRaw_targets_ht1.
Qed.

(** C9.  [dictUnlink] followed by [dictFreeUnlinkedEntry] on the entry it
    returned ends in the dictionary [dictDelete] ends in and makes the
    calls of the key destructor, the value destructor and [zfree] that
    [dictDelete] makes, in the same order; for a key that was found these
    are the destructors of the unlinked entry. *)
Theorem unlink_free_refines_delete (d : dict) (k : K) :
  match dictUnlink d k with
  | Ret (d', he) =>
    dictDelete d k
    = Ret (d', match he with Some _ => DICT_OK | None => DICT_ERR end,
           dictFreeUnlinkedEntry he) /\
    match he with
    | Some x => dictFreeUnlinkedEntry he
                = dictFreeKey x ++ dictFreeVal x ++ [ZfreeEntry x]
    | None => dictFreeUnlinkedEntry he = []
    end
  | Fault => dictDelete d k = Fault
  | OutOfFuel => dictDelete d k = OutOfFuel
  end.
Proof.
  unfold dictUnlink, dictDelete, _dictGenericDelete.
  destruct (_ && _); [done |].
  destruct (if dictIsRehashing d then _dictRehashStep d else Ret d) as [d1 | |];
    cbn [mbind res_bind]; [| done | done].
  unfold generic_delete_in.
  destruct (bucket_get (table (ht0 d1)) _) as [he0 | |]; cbn [mbind res_bind];
    [| done | done].
  destruct (chain_unlink k he0) as [[x rest] |]; cbn [mbind res_bind]; [done |].
  destruct (negb (dictIsRehashing d1)); [done |].
  destruct (bucket_get (table (ht1 d1)) _) as [he1 | |]; cbn [mbind res_bind];
    [| done | done].
  destruct (chain_unlink k he1) as [[x rest] |]; cbn [mbind res_bind]; done.
Qed.

(** C10.  An iterator on which [dictNext] was never called is released
    without any check or bookkeeping, whatever the dictionary has become
    since the iterator was created and whatever its uninitialised
    fingerprint field holds: the unsafe one passes (no assertion is
    evaluated, so the call cannot fault), and neither changes the
    dictionary, the count of live safe iterators included. *)
Theorem release_before_first_next (junk : Z) (d : dict) :
  dictReleaseIterator (dictGetIterator junk) d = Ret d /\
  dictReleaseIterator (dictGetSafeIterator junk) d = Ret d.
Proof. split; reflexivity. Qed.


(** *** Growth on insertion *)

(** What [_dictExpandIfNeeded] does to an idle, allocated table: it starts
    a rehash towards [_dictNextPower (2 * used)] exactly when the guard
    of the source holds. *)
Lemma _dictExpandIfNeeded_idle (can : bool) (d : dict) :
  dict_wf d -> rehashidx d = -1 -> 0 < size (ht0 d) -> used (ht0 d) < 2 ^ 62 ->
  let d2 := fst (_dictExpandIfNeeded can d) in
  let grow := (size (ht0 d) <=? used (ht0 d))
              && (can || (dict_force_resize_ratio <? used (ht0 d) / size (ht0 d))) in
  dictIsRehashing d2 = grow /\
  size (ht0 d2) = size (ht0 d) /\
  (grow = true -> size (ht1 d2) = _dictNextPower (2 * used (ht0 d))).
Proof.
  intros Hwf Hidle Hpos Hbound. simpl.
  pose proof Hwf as ((Hl & Hu & _) & _).
  pose proof (count_entries_nonneg (table (ht0 d))) as Hnn. rewrite <- Hu in Hnn.
  unfold _dictExpandIfNeeded.
  assert (dictIsRehashing d = false) as Hre.
  { unfold dictIsRehashing. rewrite Hidle. done. }
  rewrite Hre. destruct (Z.eqb_spec (size (ht0 d)) 0) as [| _]; [lia |].
  destruct (_ && _) eqn:Hg; [| simpl; rewrite Hre; split_and?; done].
  apply andb_true_iff in Hg as [Hle _]. apply Z.leb_le in Hle.
  assert (to_ulong (used (ht0 d) * 2) = 2 * used (ht0 d)) as ->.
  { unfold to_ulong, ULONG_MOD. rewrite Z.mod_small; lia. }
  unfold dictExpand. rewrite Hre. simpl orb.
  assert ((2 * used (ht0 d) <? used (ht0 d)) = false) as -> by (apply Z.ltb_ge; lia).
  destruct (_dictNextPower_spec (2 * used (ht0 d))) as (j & Hj & Hnp & Hge & _).
  assert ((_dictNextPower (2 * used (ht0 d)) =? size (ht0 d)) = false) as ->.
  { apply Z.eqb_neq. rewrite Hnp. lia. }
  destruct (table (ht0 d)); [simpl in Hl; lia |]. simpl. done.
Qed.

Lemma ht_wf_size_ge4 (h : dictht) : ht_wf h -> 0 < size h -> 4 <= size h.
Proof.
  intros (_ & _ & [[? _] | [(j & Hj & ->) _]]) Hpos; [lia |].
  change 4 with (2 ^ 2). apply Z.pow_le_mono_r; lia.
Qed.

Lemma _dictNextPower_double (k : Z) :
  2 <= k <= 61 -> _dictNextPower (2 * 2 ^ k) = 2 * 2 ^ k.
Proof.
  intros Hk. destruct (_dictNextPower_spec (2 * 2 ^ k)) as (j & Hj & -> & Hge & Hmin).
  replace (2 * 2 ^ k) with (2 ^ (k + 1)) in * by (rewrite Z.pow_add_r; lia).
  f_equal. assert (2 ^ (k + 1) <= 2 ^ 63) as Hb by (apply Z.pow_le_mono_r; lia).
  specialize (Hge Hb). apply Z.pow_le_mono_r_iff in Hge; try lia.
  destruct Hmin as [-> | Hlt]; [lia |].
  apply Z.pow_lt_mono_r_iff in Hlt; lia.
Qed.

(** The forced growth as [_dictExpandIfNeeded] computes it.  With resizing
    disallowed ([dict_can_resize = 0]), on a dictionary that is not
    rehashing and whose table is allocated, an insertion starts the growth
    of [ht[0]] iff the integer quotient [used / size] exceeds the force
    ratio 5, that is iff [6 * size <= used]; the new table then has
    [_dictNextPower (2 * used)] slots.  The comment above
    [dict_force_resize_ratio] in dict.c promises the growth as soon as the
    ratio of elements to buckets exceeds 5: between [5 * size] and
    [6 * size] the quotient of the two integers misses it (see
    [forced_growth_missed]). *)
Lemma forced_growth_threshold (d : dict) (k : K) :
  dict_wf d -> rehashidx d = -1 -> 0 < size (ht0 d) -> used (ht0 d) < 2 ^ 62 ->
  exists d' entry ex,
    dictAddRaw false d k = Ret (d', entry, ex) /\
    (dictIsRehashing d' = true <->
     dict_force_resize_ratio < used (ht0 d) / size (ht0 d)) /\
    (dictIsRehashing d' = true <-> 6 * size (ht0 d) <= used (ht0 d)) /\
    size (ht0 d') = size (ht0 d) /\
    (dictIsRehashing d' = true ->
     size (ht1 d') = _dictNextPower (2 * used (ht0 d)) /\
     size (ht0 d') < size (ht1 d')).
Proof.
  intros Hwf Hidle Hpos Hbound.
  destruct (dictAddRaw_wf_sizes false d k Hwf)
    as (d1 & d' & entry & ex & Hstep & Heq & _ & Hidx & Hs0 & Hs1).
  assert (dictIsRehashing d = false) as Hre.
  { unfold dictIsRehashing. rewrite Hidle. done. }
  rewrite Hre in Hstep. injection Hstep as <-.
  destruct (_dictExpandIfNeeded_idle false d Hwf Hidle Hpos Hbound)
    as (Hgrow & Hsz0 & Hsz1). simpl in *.
  exists d', entry, ex. split; [done |].
  assert (dictIsRehashing d' = dictIsRehashing (fst (_dictExpandIfNeeded false d)))
    as Hsame by (unfold dictIsRehashing; by rewrite Hidx).
  rewrite Hsame, Hgrow, Hs0, Hs1, Hsz0. unfold dict_force_resize_ratio in *.
  pose proof Hwf as ((_ & Hu & _) & _).
  pose proof (count_entries_nonneg (table (ht0 d))) as Hnn. rewrite <- Hu in Hnn.
  assert (5 < used (ht0 d) / size (ht0 d) <-> 6 * size (ht0 d) <= used (ht0 d)) as Hdiv.
  { split; intros H.
    - assert (6 <= used (ht0 d) / size (ht0 d)) as H6 by lia.
      pose proof (Z.mul_div_le (used (ht0 d)) (size (ht0 d)) Hpos). nia.
    - assert (6 <= used (ht0 d) / size (ht0 d)); [| lia].
      apply Z.div_le_lower_bound; lia. }
  rewrite andb_true_iff, Z.leb_le, Z.ltb_lt. simpl orb.
  split_and?; try tauto.
  - split; [tauto |]. intros H. split; [| done]. apply Hdiv in H. lia.
  - split; [intros [_ H]; by apply Hdiv | intros H; split; [lia | by apply Hdiv]].
  - intros [Hle Hlt]. rewrite Hsz1.
    2:{ apply andb_true_iff. split; [by apply Z.leb_le | by apply Z.ltb_lt]. }
    split; [done |].
    destruct (_dictNextPower_spec (2 * used (ht0 d))) as (j & Hj & -> & Hge & _). lia.
Qed.

(** C3, as the code has it.  With resizing allowed, on a dictionary that
    is not rehashing and whose table is full ([size <= used]), an
    insertion allocates a second table of [_dictNextPower (2 * used)]
    slots, the least power of two that is at least [2 * used]; when
    [used = size] (the insert of the [(size+1)]-th element) that is
    [2 * size]. *)
Theorem growth_target_size (d : dict) (k : K) :
  dict_wf d -> rehashidx d = -1 -> 0 < size (ht0 d) ->
  size (ht0 d) <= used (ht0 d) -> used (ht0 d) < 2 ^ 62 ->
  exists d' entry ex,
    dictAddRaw true d k = Ret (d', entry, ex) /\
    dictIsRehashing d' = true /\
    size (ht0 d') = size (ht0 d) /\
    size (ht1 d') = _dictNextPower (2 * used (ht0 d)) /\
    (exists j, size (ht1 d') = 2 ^ j /\ 2 * used (ht0 d) <= 2 ^ j /\
               2 ^ (j - 1) < 2 * used (ht0 d)) /\
    (used (ht0 d) = size (ht0 d) -> size (ht1 d') = 2 * size (ht0 d)).
Proof.
  intros Hwf Hidle Hpos Hfull Hbound.
  destruct (dictAddRaw_wf_sizes true d k Hwf)
    as (d1 & d' & entry & ex & Hstep & Heq & _ & Hidx & Hs0 & Hs1).
  assert (dictIsRehashing d = false) as Hre.
  { unfold dictIsRehashing. rewrite Hidle. done. }
  rewrite Hre in Hstep. injection Hstep as <-.
  destruct (_dictExpandIfNeeded_idle true d Hwf Hidle Hpos Hbound)
    as (Hgrow & Hsz0 & Hsz1). simpl in *.
  assert ((size (ht0 d) <=? used (ht0 d)) = true) as Hle by (by apply Z.leb_le).
  rewrite Hle in *. simpl in Hgrow. specialize (Hsz1 eq_refl).
  exists d', entry, ex. split; [done |].
  assert (dictIsRehashing d' = dictIsRehashing (fst (_dictExpandIfNeeded true d)))
    as Hsame by (unfold dictIsRehashing; by rewrite Hidx).
  rewrite Hsame, Hgrow, Hs0, Hs1, Hsz0, Hsz1.
  split_and?; try done.
  - destruct (_dictNextPower_spec (2 * used (ht0 d))) as (j & Hj & Hnp & Hge & Hmin).
    exists j. rewrite Hnp. split_and?; [done | lia |].
    pose proof Hwf as (Hw0 & _). pose proof (ht_wf_size_ge4 _ Hw0 Hpos).
    destruct Hmin as [-> | ?]; [simpl; lia | done].
  - intros Hus. rewrite Hus.
    destruct Hwf as ((_ & _ & [[? _] | [(j & Hj & Hsz) _]]) & _); [lia |].
    rewrite Hsz. apply _dictNextPower_double.
    assert (j < 62); [| lia].
    apply (Z.pow_lt_mono_r_iff 2); lia.
Qed.


(** *** Bit reversal and the scan cursor *)

(** One round of the loop of [rev]: the blocks of [s] bits are swapped
    pairwise. *)
Definition rev_stage (s mask v : Z) : Z :=
  Z.lor (Z.land (Z.shiftr v s) mask)
        (Z.land (to_ulong (Z.shiftl v s)) (ulong_not mask)).

Lemma rev_loop_round (f : nat) (s mask v s' mask' : Z) :
  Z.shiftr s 1 = s' /\ 0 < s' /\ Z.lxor mask (to_ulong (Z.shiftl mask s')) = mask' ->
  rev_loop (S f) s mask v = rev_loop f s' mask' (rev_stage s' mask' v).
Proof.
  intros (<- & Hpos & <-). cbn [rev_loop].
  apply Z.ltb_lt in Hpos. rewrite Hpos. reflexivity.
Qed.

Lemma rev_stages (v : Z) :
  rev v = rev_stage 1 0x5555555555555555
            (rev_stage 2 0x3333333333333333
               (rev_stage 4 0x0F0F0F0F0F0F0F0F
                  (rev_stage 8 0x00FF00FF00FF00FF
                     (rev_stage 16 0x0000FFFF0000FFFF
                        (rev_stage 32 0x00000000FFFFFFFF v))))).
Proof.
  unfold rev.
  rewrite (rev_loop_round _ _ _ _ 32 0x00000000FFFFFFFF) by (vm_compute; done).
  rewrite (rev_loop_round _ _ _ _ 16 0x0000FFFF0000FFFF) by (vm_compute; done).
  rewrite (rev_loop_round _ _ _ _ 8 0x00FF00FF00FF00FF) by (vm_compute; done).
  rewrite (rev_loop_round _ _ _ _ 4 0x0F0F0F0F0F0F0F0F) by (vm_compute; done).
  rewrite (rev_loop_round _ _ _ _ 2 0x3333333333333333) by (vm_compute; done).
  rewrite (rev_loop_round _ _ _ _ 1 0x5555555555555555) by (vm_compute; done).
  reflexivity.
Qed.

Lemma range64_forall (P : Z -> bool) :
  forallb P (map Z.of_nat (seq 0 64)) = true ->
  forall i, 0 <= i < 64 -> P i = true.
Proof.
  intros H i Hi. rewrite forallb_forall in H. apply H.
  apply in_map_iff. exists (Z.to_nat i). split; [lia |]. apply in_seq. lia.
Qed.

Lemma testbit_ulong_high (x i : Z) : in_ulong x -> 64 <= i -> Z.testbit x i = false.
Proof.
  intros Hx Hi. rewrite <- (Z.mod_small x (2 ^ 64)) by done.
  apply Z.mod_pow2_bits_high. lia.
Qed.

Lemma in_ulong_bits (x : Z) :
  0 <= x -> (forall i, 64 <= i -> Z.testbit x i = false) -> in_ulong x.
Proof.
  intros H0 H. split; [done |].
  destruct (Z.lt_ge_cases x (2 ^ 64)) as [| Hge]; [done |].
  assert (0 < x) as Hpos by lia.
  pose proof (Z.log2_spec x Hpos) as [Hl _].
  assert (64 <= Z.log2 x) as Hlog.
  { apply Z.log2_le_pow2; lia. }
  specialize (H _ Hlog). rewrite Z.bit_log2 in H by lia. done.
Qed.

Definition stage_mask_ok (j mask : Z) : bool :=
  forallb (fun i => Bool.eqb (Z.testbit mask i) (negb (Z.testbit i j)))
          (map Z.of_nat (seq 0 64)).

Definition lxor_index_ok (j : Z) : bool :=
  forallb (fun i => (Z.lxor i (2 ^ j) =? (if Z.testbit i j then i - 2 ^ j else i + 2 ^ j))
                    && (0 <=? Z.lxor i (2 ^ j)) && (Z.lxor i (2 ^ j) <? 64))
          (map Z.of_nat (seq 0 64)).

Lemma lxor_index (j i : Z) :
  0 <= j <= 5 -> 0 <= i < 64 ->
  Z.lxor i (2 ^ j) = (if Z.testbit i j then i - 2 ^ j else i + 2 ^ j) /\
  0 <= Z.lxor i (2 ^ j) < 64.
Proof.
  intros Hj Hi.
  assert (lxor_index_ok j = true) as Hok.
  { assert (j = 0 \/ j = 1 \/ j = 2 \/ j = 3 \/ j = 4 \/ j = 5) as Hc by lia.
    destruct Hc as [-> | [-> | [-> | [-> | [-> | ->]]]]]; vm_compute; reflexivity. }
  pose proof (range64_forall _ Hok i Hi) as H. simpl in H.
  apply andb_true_iff in H as [H H3]. apply andb_true_iff in H as [H1 H2].
  apply Z.eqb_eq in H1. apply Z.leb_le in H2. apply Z.ltb_lt in H3. done.
Qed.

Lemma testbit_ulong_max (i : Z) : 0 <= i < 64 -> Z.testbit ULONG_MAX i = true.
Proof.
  intros Hi. change ULONG_MAX with (Z.ones 64). apply Z.ones_spec_low. lia.
Qed.

Lemma rev_stage_spec (j s mask v : Z) :
  0 <= j <= 5 -> s = 2 ^ j -> in_ulong mask -> stage_mask_ok j mask = true ->
  in_ulong v ->
  in_ulong (rev_stage s mask v) /\
  forall i, 0 <= i < 64 ->
            Z.testbit (rev_stage s mask v) i = Z.testbit v (Z.lxor i s).
Proof.
  intros Hj -> Hmask Hok Hv.
  assert (0 < 2 ^ j) as Hs by (apply Z.pow_pos_nonneg; lia).
  split.
  - apply in_ulong_bits.
    + unfold rev_stage. apply Z.lor_nonneg. split; apply Z.land_nonneg.
      * right. apply Hmask.
      * left. unfold to_ulong, ULONG_MOD. apply Z.mod_pos_bound. lia.
    + intros i Hi. unfold rev_stage, to_ulong, ULONG_MOD.
      rewrite Z.lor_spec, !Z.land_spec.
      rewrite (testbit_ulong_high mask) by done.
      rewrite Z.mod_pow2_bits_high by lia.
      by rewrite andb_false_r.
  - intros i Hi. unfold rev_stage, to_ulong, ULONG_MOD, ulong_not.
    rewrite Z.lor_spec, !Z.land_spec, Z.lxor_spec.
    rewrite Z.shiftr_spec by lia.
    rewrite Z.mod_pow2_bits_low by lia.
    rewrite Z.shiftl_spec by lia.
    rewrite testbit_ulong_max by done.
    pose proof (range64_forall _ Hok i Hi) as Hm. simpl in Hm.
    apply Bool.eqb_prop in Hm. rewrite Hm.
    destruct (lxor_index j i Hj Hi) as [-> _].
    destruct (Z.testbit i j); simpl;
      by destruct (Z.testbit v (i + 2 ^ j)), (Z.testbit v (i - 2 ^ j)).
Qed.

Lemma rev_spec (v : Z) :
  in_ulong v ->
  in_ulong (rev v) /\
  forall i, 0 <= i < 64 -> Z.testbit (rev v) i = Z.testbit v (63 - i).
Proof.
  intros Hv. rewrite rev_stages.
  destruct (rev_stage_spec 5 32 0x00000000FFFFFFFF v) as [H5 B5];
    [lia | done | by vm_compute | by vm_compute | done |].
  destruct (rev_stage_spec 4 16 0x0000FFFF0000FFFF _ ltac:(lia) eq_refl
              ltac:(by vm_compute) ltac:(by vm_compute) H5) as [H4 B4].
  destruct (rev_stage_spec 3 8 0x00FF00FF00FF00FF _ ltac:(lia) eq_refl
              ltac:(by vm_compute) ltac:(by vm_compute) H4) as [H3 B3].
  destruct (rev_stage_spec 2 4 0x0F0F0F0F0F0F0F0F _ ltac:(lia) eq_refl
              ltac:(by vm_compute) ltac:(by vm_compute) H3) as [H2 B2].
  destruct (rev_stage_spec 1 2 0x3333333333333333 _ ltac:(lia) eq_refl
              ltac:(by vm_compute) ltac:(by vm_compute) H2) as [H1 B1].
  destruct (rev_stage_spec 0 1 0x5555555555555555 _ ltac:(lia) eq_refl
              ltac:(by vm_compute) ltac:(by vm_compute) H1) as [H0 B0].
  split; [done |]. intros i Hi.
  pose proof (lxor_index 0 i ltac:(lia) Hi) as [_ R0]. change (2 ^ 0) with 1 in R0.
  pose proof (lxor_index 1 _ ltac:(lia) R0) as [_ R1]. change (2 ^ 1) with 2 in R1.
  pose proof (lxor_index 2 _ ltac:(lia) R1) as [_ R2]. change (2 ^ 2) with 4 in R2.
  pose proof (lxor_index 3 _ ltac:(lia) R2) as [_ R3]. change (2 ^ 3) with 8 in R3.
  pose proof (lxor_index 4 _ ltac:(lia) R3) as [_ R4]. change (2 ^ 4) with 16 in R4.
  rewrite B0, B1, B2, B3, B4, B5 by done. f_equal.
  assert (forallb (fun i => Z.lxor (Z.lxor (Z.lxor (Z.lxor (Z.lxor (Z.lxor i 1) 2) 4) 8) 16) 32
                            =? 63 - i) (map Z.of_nat (seq 0 64)) = true) as Hall
    by (by vm_compute).
  pose proof (range64_forall _ Hall i Hi) as H. simpl in H. by apply Z.eqb_eq in H.
Qed.

Lemma rev_in_ulong (v : Z) : in_ulong v -> in_ulong (rev v).
Proof. intros Hv. by apply rev_spec. Qed.

Lemma rev_bits (v i : Z) :
  in_ulong v -> 0 <= i < 64 -> Z.testbit (rev v) i = Z.testbit v (63 - i).
Proof. intros Hv. by apply rev_spec. Qed.

Lemma rev_involutive (v : Z) : in_ulong v -> rev (rev v) = v.
Proof.
  intros Hv. pose proof (rev_in_ulong v Hv) as Hr.
  pose proof (rev_in_ulong _ Hr) as Hrr.
  apply Z.bits_inj'. intros i Hi. destruct (Z.lt_ge_cases i 64).
  - rewrite rev_bits by (done || lia). rewrite rev_bits by (done || lia).
    f_equal. lia.
  - by rewrite !testbit_ulong_high.
Qed.

Lemma rev_0 : rev 0 = 0.
Proof. reflexivity. Qed.

Lemma rev_eq_0 (v : Z) : in_ulong v -> rev v = 0 -> v = 0.
Proof. intros Hv H. rewrite <- (rev_involutive v Hv), H. apply rev_0. Qed.

Lemma in_ulong_ones (k : Z) : 0 <= k <= 64 -> in_ulong (Z.ones k).
Proof.
  intros Hk. rewrite Z.ones_equiv. unfold in_ulong.
  assert (0 < 2 ^ k) by (apply Z.pow_pos_nonneg; lia).
  assert (2 ^ k <= 2 ^ 64) by (apply Z.pow_le_mono_r; lia). lia.
Qed.

Lemma in_ulong_lor (a b : Z) : in_ulong a -> in_ulong b -> in_ulong (Z.lor a b).
Proof.
  intros Ha Hb. apply in_ulong_bits.
  - apply Z.lor_nonneg. split; [apply Ha | apply Hb].
  - intros i Hi. by rewrite Z.lor_spec, !testbit_ulong_high.
Qed.

Lemma ulong_not_ones (k : Z) :
  0 <= k <= 64 ->
  in_ulong (ulong_not (Z.ones k)) /\
  forall i, 0 <= i < 64 -> Z.testbit (ulong_not (Z.ones k)) i = (k <=? i).
Proof.
  intros Hk. unfold ulong_not. split.
  - apply in_ulong_bits.
    + apply Z.lxor_nonneg. pose proof (in_ulong_ones k Hk) as [? _].
      unfold ULONG_MAX. lia.
    + intros i Hi. rewrite Z.lxor_spec.
      rewrite (testbit_ulong_high (Z.ones k)) by (by apply in_ulong_ones || done).
      change ULONG_MAX with (Z.ones 64). by rewrite Z.ones_spec_high by lia.
  - intros i Hi. rewrite Z.lxor_spec, testbit_ulong_max by done.
    destruct (Z.leb_spec k i).
    + by rewrite Z.ones_spec_high by lia.
    + by rewrite Z.ones_spec_low by lia.
Qed.

(** Setting the bits above the mask is, on the reversed cursor, setting
    the bits below the quotient by [2 ^ (64 - k)]. *)
Lemma rev_lor_not_mask (k v : Z) :
  0 <= k <= 64 -> in_ulong v ->
  rev (Z.lor v (ulong_not (Z.ones k))) = Z.lor (rev v) (Z.ones (64 - k)).
Proof.
  intros Hk Hv. destruct (ulong_not_ones k Hk) as [Hn Hbits].
  pose proof (in_ulong_lor _ _ Hv Hn) as Hl.
  apply Z.bits_inj'. intros i Hi. destruct (Z.lt_ge_cases i 64).
  - rewrite rev_bits by (done || lia). rewrite !Z.lor_spec, Hbits by lia.
    rewrite rev_bits by (done || lia). f_equal.
    destruct (Z.leb_spec k (63 - i)).
    + by rewrite Z.ones_spec_low by lia.
    + by rewrite Z.ones_spec_high by lia.
  - rewrite testbit_ulong_high by (by apply rev_in_ulong || done).
    rewrite Z.lor_spec, testbit_ulong_high by (by apply rev_in_ulong || done).
    by rewrite Z.ones_spec_high by lia.
Qed.

Lemma lor_ones_low (x n : Z) :
  0 <= x -> 0 <= n -> Z.lor x (Z.ones n) = x / 2 ^ n * 2 ^ n + (2 ^ n - 1).
Proof.
  intros Hx Hn. assert (0 < 2 ^ n) as HB by (apply Z.pow_pos_nonneg; lia).
  set (L := Z.lor x (Z.ones n)).
  assert (L / 2 ^ n = x / 2 ^ n) as Hq.
  { rewrite <- !Z.shiftr_div_pow2 by done. unfold L.
    rewrite Z.shiftr_lor. rewrite (Z.shiftr_div_pow2 (Z.ones n)) by done.
    rewrite Z.div_small; [apply Z.lor_0_r |]. rewrite Z.ones_equiv. lia. }
  assert (L mod 2 ^ n = 2 ^ n - 1) as Hr.
  { rewrite <- Z.land_ones by done. unfold L.
    replace (2 ^ n - 1) with (Z.ones n) by (rewrite Z.ones_equiv; lia).
    apply Z.bits_inj'. intros i Hi. rewrite Z.land_spec, Z.lor_spec.
    destruct (Z.testbit x i), (Z.testbit (Z.ones n) i); done. }
  rewrite (Z.div_mod L (2 ^ n)) by lia. rewrite Hq, Hr. lia.
Qed.

(** The cursor increment, read on the reversed cursor: go to the start of
    the next block of [2 ^ (64 - k)] values, wrapping to 0 after the last. *)
Lemma scan_next_spec (k v : Z) :
  0 <= k <= 64 -> in_ulong v ->
  in_ulong (scan_next (Z.ones k) v) /\
  rev (scan_next (Z.ones k) v)
  = ((rev v / 2 ^ (64 - k) + 1) * 2 ^ (64 - k)) mod 2 ^ 64.
Proof.
  intros Hk Hv. unfold scan_next, to_ulong, ULONG_MOD.
  rewrite rev_lor_not_mask by done.
  pose proof (rev_in_ulong v Hv) as Hr.
  rewrite lor_ones_low by (apply Hr || lia).
  set (x := (rev v / 2 ^ (64 - k) * 2 ^ (64 - k) + (2 ^ (64 - k) - 1) + 1) mod 2 ^ 64).
  assert (in_ulong x) as Hx by (apply Z.mod_pos_bound; lia).
  split; [by apply rev_in_ulong |]. rewrite rev_involutive by done.
  unfold x. f_equal. lia.
Qed.

(** Two hashes whose reversals lie in the same block of [2 ^ (64 - k)]
    values select the same bucket under the mask [2 ^ k - 1]. *)
Lemma land_eq_of_rev_quot (k a b : Z) :
  0 <= k <= 64 -> in_ulong a -> in_ulong b ->
  rev a / 2 ^ (64 - k) = rev b / 2 ^ (64 - k) ->
  Z.land a (Z.ones k) = Z.land b (Z.ones k).
Proof.
  intros Hk Ha Hb Hq. apply Z.bits_inj'. intros i Hi.
  rewrite !Z.land_spec. destruct (Z.lt_ge_cases i k).
  - rewrite Z.ones_spec_low, !andb_true_r by lia.
    assert (forall x, in_ulong x ->
              Z.testbit x i = Z.testbit (rev x / 2 ^ (64 - k)) (k - 1 - i)) as Hbit.
    { intros x Hx. rewrite <- (rev_involutive x Hx) at 1.
      rewrite rev_bits by (by apply rev_in_ulong || lia).
      replace (63 - i) with (k - 1 - i + (64 - k)) by lia.
      rewrite <- Z.shiftr_spec by lia. by rewrite Z.shiftr_div_pow2 by lia. }
    by rewrite (Hbit a), (Hbit b), Hq.
  - by rewrite Z.ones_spec_high, !andb_false_r by lia.
Qed.

(** A cursor whose reversal is a multiple of [2 ^ (64 - ks)] has no bit at
    or above position [ks]. *)
Lemma land_mask_diff_0 (ks kl v : Z) :
  0 <= ks <= kl -> kl <= 64 -> in_ulong v ->
  rev v mod 2 ^ (64 - ks) = 0 ->
  Z.land v (Z.lxor (Z.ones ks) (Z.ones kl)) = 0.
Proof.
  intros Hks Hkl Hv Hmod. apply Z.bits_inj'. intros i Hi.
  rewrite Z.land_spec, Z.lxor_spec, Z.bits_0.
  destruct (Z.lt_ge_cases i ks).
  - by rewrite !Z.ones_spec_low, andb_false_r by lia.
  - destruct (Z.lt_ge_cases i kl).
    + rewrite <- (rev_involutive v Hv).
      rewrite rev_bits by (by apply rev_in_ulong || lia).
      rewrite <- (Z.mod_pow2_bits_low _ (64 - ks)) by lia.
      by rewrite Hmod, Z.bits_0.
    + by rewrite !Z.ones_spec_high, andb_false_r by lia.
Qed.

Lemma block_bounds (k x : Z) :
  0 <= k <= 64 -> 0 <= x < 2 ^ 64 ->
  0 < 2 ^ (64 - k) /\
  x / 2 ^ (64 - k) * 2 ^ (64 - k) <= x < (x / 2 ^ (64 - k) + 1) * 2 ^ (64 - k) /\
  (x / 2 ^ (64 - k) + 1) * 2 ^ (64 - k) <= 2 ^ 64.
Proof.
  intros Hk Hx. set (B := 2 ^ (64 - k)).
  assert (0 < B) as HB by (apply Z.pow_pos_nonneg; lia).
  assert (2 ^ 64 = 2 ^ k * B) as H64.
  { unfold B. rewrite <- Z.pow_add_r by lia. f_equal. lia. }
  pose proof (Z.mul_div_le x B HB). pose proof (Z.mul_succ_div_gt x B HB).
  assert (x / B < 2 ^ k) by (apply Z.div_lt_upper_bound; lia).
  split_and?; try lia. rewrite H64. nia.
Qed.

(** Coverage of one increment: a hash whose reversal lies between the
    reversed cursor and the reversed next cursor (or beyond the cursor, if
    the next cursor is 0) is in the block of the cursor, hence in the
    bucket the cursor selects. *)
Lemma scan_next_cover_quot (k v h : Z) :
  0 <= k <= 64 -> in_ulong v -> in_ulong h ->
  rev v <= rev h ->
  (rev h < rev (scan_next (Z.ones k) v) \/ scan_next (Z.ones k) v = 0) ->
  rev h / 2 ^ (64 - k) = rev v / 2 ^ (64 - k).
Proof.
  intros Hk Hv Hh Hle Hlt.
  destruct (scan_next_spec k v Hk Hv) as [Hn Hrev].
  pose proof (rev_in_ulong v Hv) as HV. pose proof (rev_in_ulong h Hh) as HH.
  destruct (block_bounds k (rev v) Hk HV) as (HB & Hblock & Hmax).
  set (B := 2 ^ (64 - k)) in *. set (q := rev v / B) in *.
  unfold in_ulong in HV, HH.
  assert (rev h < (q + 1) * B) as Hup.
  { destruct (Z.eq_dec ((q + 1) * B) (2 ^ 64)) as [Heq | Hne].
    - rewrite Heq. apply HH.
    - rewrite Z.mod_small in Hrev by lia.
      destruct Hlt as [Hlt | Hz]; [lia |].
      rewrite Hz, rev_0 in Hrev. lia. }
  apply Z.le_antisymm.
  - assert (rev h / B < q + 1); [| lia]. apply Z.div_lt_upper_bound; lia.
  - apply Z.div_le_lower_bound; lia.
Qed.

Lemma scan_next_cover (k v h : Z) :
  0 <= k <= 64 -> in_ulong v -> in_ulong h ->
  rev v <= rev h ->
  (rev h < rev (scan_next (Z.ones k) v) \/ scan_next (Z.ones k) v = 0) ->
  Z.land h (Z.ones k) = Z.land v (Z.ones k).
Proof.
  intros Hk Hv Hh Hle Hlt. apply land_eq_of_rev_quot; try done.
  by apply scan_next_cover_quot.
Qed.

(** Blocks of the larger table refine the blocks of the smaller one. *)
Lemma rev_quot_coarser (ks kl a b : Z) :
  0 <= ks <= kl -> kl <= 64 ->
  a / 2 ^ (64 - kl) = b / 2 ^ (64 - kl) -> a / 2 ^ (64 - ks) = b / 2 ^ (64 - ks).
Proof.
  intros Hks Hkl Hq.
  replace (2 ^ (64 - ks)) with (2 ^ (64 - kl) * 2 ^ (kl - ks))
    by (rewrite <- Z.pow_add_r by lia; f_equal; lia).
  assert (0 < 2 ^ (64 - kl)) by (apply Z.pow_pos_nonneg; lia).
  assert (0 < 2 ^ (kl - ks)) by (apply Z.pow_pos_nonneg; lia).
  rewrite <- !Z.div_div by lia. by rewrite Hq.
Qed.

(** The reversed cursor moves forward unless the increment wraps to 0. *)
Lemma scan_next_progress (k v : Z) :
  0 <= k <= 64 -> in_ulong v ->
  scan_next (Z.ones k) v <> 0 -> rev v < rev (scan_next (Z.ones k) v).
Proof.
  intros Hk Hv Hnz. destruct (scan_next_spec k v Hk Hv) as [Hn Hrev].
  pose proof (rev_in_ulong v Hv) as HV.
  destruct (block_bounds k (rev v) Hk HV) as (HB & Hblock & Hmax).
  unfold in_ulong in HV.
  destruct (Z.eq_dec ((rev v / 2 ^ (64 - k) + 1) * 2 ^ (64 - k)) (2 ^ 64)) as [Heq | Hne].
  - rewrite Heq, Z.mod_same in Hrev by lia. by apply rev_eq_0 in Hrev.
  - rewrite Z.mod_small in Hrev by lia. lia.
Qed.

(** While the loop over the larger table goes on, the cursor stays in the
    block of the smaller table, and the number of larger buckets left in
    that block goes down by one. *)
Lemma scan_next_keeps_small (ks kl v : Z) :
  0 <= ks <= kl -> kl <= 64 -> in_ulong v ->
  let v1 := scan_next (Z.ones kl) v in
  let D := 2 ^ (kl - ks) in
  Z.land v1 (Z.lxor (Z.ones ks) (Z.ones kl)) <> 0 ->
  v1 <> 0 /\
  rev v1 / 2 ^ (64 - ks) = rev v / 2 ^ (64 - ks) /\
  D - (rev v1 / 2 ^ (64 - kl)) mod D = D - (rev v / 2 ^ (64 - kl)) mod D - 1.
Proof.
  intros Hks Hkl Hv v1 D Hnz.
  destruct (scan_next_spec kl v ltac:(lia) Hv) as [Hn Hrev]. fold v1 in Hn, Hrev.
  pose proof (rev_in_ulong v Hv) as HV.
  destruct (block_bounds kl (rev v) ltac:(lia) HV) as (HB & Hblock & Hmax).
  set (Bl := 2 ^ (64 - kl)) in *. set (q := rev v / Bl) in *.
  unfold in_ulong in HV.
  assert (0 < D) as HD by (apply Z.pow_pos_nonneg; lia).
  assert (2 ^ (64 - ks) = D * Bl) as HBs.
  { unfold D, Bl. rewrite <- Z.pow_add_r by lia. f_equal. lia. }
  assert (rev v1 mod 2 ^ (64 - ks) <> 0) as Hmod.
  { intros Hz. apply Hnz. by apply land_mask_diff_0. }
  assert ((q + 1) * Bl <> 2 ^ 64) as Hnowrap.
  { intros Heq. rewrite Heq, Z.mod_same in Hrev by lia.
    rewrite Hrev in Hmod. by rewrite Z.mod_0_l in Hmod by lia. }
  rewrite Z.mod_small in Hrev by lia.
  assert ((q + 1) mod D <> 0) as HqD.
  { intros Hz. apply Hmod. rewrite Hrev, HBs.
    rewrite Z.mul_mod_distr_r by lia. rewrite Hz. lia. }
  assert (0 <= q) as Hq0 by (apply Z.div_pos; lia).
  pose proof (Z.mod_pos_bound q D HD) as Hqm.
  pose proof (Z.div_mod q D ltac:(lia)) as Hqd.
  assert (q mod D <> D - 1) as Hlast.
  { intros Heq. apply HqD.
    replace (q + 1) with ((q / D + 1) * D) by lia. apply Z.mod_mul. lia. }
  assert ((q + 1) / D = q / D /\ (q + 1) mod D = q mod D + 1) as [Hdiv Hrem].
  { split; symmetry.
    - apply (Z.div_unique _ _ _ (q mod D + 1)); lia.
    - apply (Z.mod_unique _ _ (q / D)); lia. }
  split_and?.
  - intros Hz. rewrite Hz, rev_0 in Hrev. lia.
  - rewrite HBs, Hrev. rewrite (Z.mul_comm D Bl).
    rewrite <- !Z.div_div by lia. rewrite Z.div_mul by lia. fold q. done.
  - rewrite Hrev, Z.div_mul by lia. fold q. lia.
Qed.


(** *** Scan completeness *)

Lemma ht_wf_mask (h : dictht) :
  ht_wf h -> 0 < size h ->
  exists k, 2 <= k <= 63 /\ size h = 2 ^ k /\ sizemask h = Z.ones k.
Proof.
  intros (_ & _ & [[? _] | [(k & Hk & Hs) Hm]]) Hpos; [lia |].
  exists k. split; [done |]. split; [done |]. rewrite Hm, Hs, Z.ones_equiv. lia.
Qed.

Lemma chain_index_In (k : K) (b : bucket) :
  is_Some (chain_index k b) -> exists e, In e b /\ keyCompare k (key e) = true.
Proof.
  induction b as [| e b IH]; simpl; intros [p Hp]; [discriminate |].
  destruct (keyCompare k (key e)) eqn:Hc.
  - exists e. split; [by left | done].
  - destruct (chain_index k b) as [p' |]; [| discriminate].
    destruct IH as (x & Hx & Hk); [by eexists |]. exists x. split; [by right | done].
Qed.

Lemma ht_contains_bucket (h : dictht) (k : K) :
  ht_contains h k = true ->
  exists b e, bucket_get (table h) (Z.land (dictHashKey k) (sizemask h)) = Ret b /\
              In e b /\ keyCompare k (key e) = true.
Proof.
  unfold ht_contains. destruct (bucket_get _ _) as [b | |]; try discriminate.
  intros H. apply bool_decide_eq_true in H.
  destruct (chain_index_In k b H) as (e & He & Hk). by exists b, e.
Qed.

Lemma ht_contains_used (h : dictht) (k : K) :
  ht_wf h -> ht_contains h k = true -> 0 < used h /\ 0 < size h.
Proof.
  intros (Hl & Hu & _) H. destruct (ht_contains_bucket h k H) as (b & e & Hb & He & _).
  apply bucket_get_ret in Hb as [_ Hb].
  pose proof (count_entries_lookup_le _ _ _ Hb) as Hc.
  apply lookup_lt_Some in Hb. destruct b; [done |]. simpl in Hc. lia.
Qed.

Lemma emit_ret (bf : bool) (t : Z) (h : dictht) (idx : Z) (b : bucket) :
  bucket_get (table h) idx = Ret b ->
  emit bf t h idx = Ret ((if bf then [BucketFn t idx] else []) ++ map Fn b).
Proof. intros H. unfold emit. by rewrite H. Qed.

(** The loop over the larger table returns within its budget; a hash
    lying, in reversed order, between the cursor and the cursor returned
    is in the block of the cursor for the smaller mask, and the entries of
    its bucket of the larger table have been handed to [fn]. *)
Lemma scan_larger_spec (bf : bool) (n1 : Z) (t1 : dictht) (ks kl : Z)
    (fuel : nat) (v : Z) :
  0 <= ks <= kl -> kl <= 63 -> ht_wf t1 ->
  size t1 = 2 ^ kl -> sizemask t1 = Z.ones kl -> in_ulong v ->
  2 ^ (kl - ks) - (rev v / 2 ^ (64 - kl)) mod 2 ^ (kl - ks) <= Z.of_nat fuel ->
  exists v' calls,
    scan_larger fuel bf n1 t1 (Z.ones ks) (Z.ones kl) v = Ret (v', calls) /\
    in_ulong v' /\
    forall h, in_ulong h -> rev v <= rev h -> (rev h < rev v' \/ v' = 0) ->
      rev h / 2 ^ (64 - ks) = rev v / 2 ^ (64 - ks) /\
      forall b e, bucket_get (table t1) (Z.land h (Z.ones kl)) = Ret b ->
                  In e b -> In (Fn e) calls.
Proof.
  intros Hks Hkl Hwf Hsz Hm. revert v.
  assert (0 < 2 ^ (kl - ks)) as HD by (apply Z.pow_pos_nonneg; lia).
  assert (0 < size t1) as Hpos by (rewrite Hsz; apply Z.pow_pos_nonneg; lia).
  induction fuel as [| fuel IH]; intros v Hv Hfuel.
  { pose proof (Z.mod_pos_bound (rev v / 2 ^ (64 - kl)) _ HD). lia. }
  cbn [scan_larger].
  destruct (bucket_get_masked t1 v Hwf Hpos) as [b0 Hb0]. rewrite Hm in Hb0.
  rewrite (emit_ret _ _ _ _ _ Hb0). cbn [mbind res_bind].
  destruct (scan_next_spec kl v ltac:(lia) Hv) as [Hv1 _].
  set (v1 := scan_next (Z.ones kl) v) in *.
  assert (forall h, in_ulong h -> rev v <= rev h -> (rev h < rev v1 \/ v1 = 0) ->
            rev h / 2 ^ (64 - ks) = rev v / 2 ^ (64 - ks) /\
            forall b e, bucket_get (table t1) (Z.land h (Z.ones kl)) = Ret b ->
                        In e b ->
                        In (Fn e) ((if bf then [BucketFn n1 (Z.land v (Z.ones kl))] else [])
                                   ++ map Fn b0)) as Hfirst.
  { intros h Hh Hle Hlt.
    pose proof (scan_next_cover_quot kl v h ltac:(lia) Hv Hh Hle Hlt) as Hq.
    split; [apply (rev_quot_coarser ks kl); [done | lia | done] |].
    intros b e Hb He. rewrite (land_eq_of_rev_quot kl h v) in Hb by (done || lia).
    rewrite Hb0 in Hb. injection Hb as <-.
    apply in_or_app. right. by apply in_map. }
  destruct (Z.eqb_spec (Z.land v1 (Z.lxor (Z.ones ks) (Z.ones kl))) 0) as [Hstop | Hgo].
  - eexists _, _. split; [done |]. split; [done |]. apply Hfirst.
  - destruct (scan_next_keeps_small ks kl v Hks ltac:(lia) Hv Hgo) as (Hnz & Hq1 & Hmu).
    fold v1 in Hnz, Hq1, Hmu.
    destruct (IH v1 Hv1) as (v' & more & Heq & Hv' & Hcover); [lia |].
    rewrite Heq. cbn [mbind res_bind]. eexists _, _. split; [done |].
    split; [done |]. intros h Hh Hle Hlt.
    destruct (Z.lt_ge_cases (rev h) (rev v1)) as [Hbefore | Hafter].
    + destruct (Hfirst h Hh Hle (or_introl Hbefore)) as [Hq Hin].
      split; [done |]. intros b e Hb He. apply in_or_app. left. by eapply Hin.
    + destruct (Hcover h Hh Hafter Hlt) as [Hq Hin].
      split; [by rewrite Hq |]. intros b e Hb He. apply in_or_app. right. by eapply Hin.
Qed.


Lemma reported_app_l (k : K) (c1 c2 : list scan_call) :
  reported k c1 -> reported k (c1 ++ c2).
Proof. intros (e & He & Hk). exists e. split; [apply in_or_app; by left | done]. Qed.

Lemma reported_app_r (k : K) (c1 c2 : list scan_call) :
  reported k c2 -> reported k (c1 ++ c2).
Proof. intros (e & He & Hk). exists e. split; [apply in_or_app; by right | done]. Qed.

(** The rehashing branch of [dictScan], on the smaller table [t0] and the
    larger table [t1]. *)
Lemma scan_two_tables (bf : bool) (n0 n1 : Z) (t0 t1 : dictht) (v : Z) (k : K) :
  ht_wf t0 -> ht_wf t1 -> 0 < size t0 <= size t1 ->
  in_ulong v -> in_ulong (dictHashKey k) ->
  ht_contains t0 k = true \/ ht_contains t1 k = true ->
  exists v' calls,
    (calls ← emit bf n0 t0 (Z.land v (sizemask t0));
     '(v, more) ← scan_larger (S (length (table t1))) bf n1 t1
                               (sizemask t0) (sizemask t1) v;
     Ret (v, calls ++ more)) = Ret (v', calls) /\
    in_ulong v' /\
    (rev v <= rev (dictHashKey k) ->
     (rev (dictHashKey k) < rev v' \/ v' = 0) -> reported k calls).
Proof.
  intros Hw0 Hw1 Hsz Hv Hh Hin.
  destruct (ht_wf_mask t0 Hw0 ltac:(lia)) as (ks & Hks & Hs0 & Hm0).
  destruct (ht_wf_mask t1 Hw1 ltac:(lia)) as (kl & Hkl & Hs1 & Hm1).
  assert (ks <= kl) as Hle.
  { apply (Z.pow_le_mono_r_iff 2); lia. }
  destruct (bucket_get_masked t0 v Hw0 ltac:(lia)) as [b0 Hb0].
  rewrite (emit_ret _ _ _ _ _ Hb0). cbn [mbind res_bind].
  rewrite Hm0, Hm1 in *.
  destruct (scan_larger_spec bf n1 t1 ks kl (S (length (table t1))) v)
    as (v' & more & Heq & Hv' & Hcover); try done; try lia.
  { destruct Hw1 as (Hl & _).
    assert (0 < 2 ^ (kl - ks)) as HD by (apply Z.pow_pos_nonneg; lia).
    pose proof (Z.mod_pos_bound (rev v / 2 ^ (64 - kl)) _ HD).
    assert (2 ^ (kl - ks) <= 2 ^ kl) by (apply Z.pow_le_mono_r; lia). lia. }
  rewrite Heq. cbn [mbind res_bind]. eexists _, _. split; [done |]. split; [done |].
  intros Hrle Hrlt. destruct (Hcover _ Hh Hrle Hrlt) as [Hq Hlarge].
  destruct Hin as [Hin | Hin];
    destruct (ht_contains_bucket _ _ Hin) as (b & e & Hb & He & Hk).
  - apply reported_app_l. exists e. split; [| done].
    rewrite Hm0 in Hb.
    rewrite (land_eq_of_rev_quot ks _ v) in Hb by (done || lia).
    rewrite Hb0 in Hb. injection Hb as <-.
    apply in_or_app. right. by apply in_map.
  - apply reported_app_r. exists e. split; [| done].
    rewrite Hm1 in Hb. by eapply Hlarge.
Qed.

(** One call of [dictScan] on a well-formed dictionary that holds the key:
    the call returns, and it hands the key to [fn] if the reversed hash of
    the key lies between the reversed cursor and the reversed cursor
    returned (or anywhere from the reversed cursor on, when 0 is
    returned). *)
Lemma dictScan_covers (d : dict) (v : Z) (bf : bool) (k : K) :
  dict_wf d -> in_ulong v -> in_ulong (dictHashKey k) -> dictContains d k = true ->
  exists v' calls,
    dictScan d v bf = Ret (v', calls) /\ in_ulong v' /\
    (rev v <= rev (dictHashKey k) ->
     (rev (dictHashKey k) < rev v' \/ v' = 0) -> reported k calls).
Proof.
  intros Hwf Hv Hh Hin. pose proof Hwf as (Hw0 & Hw1 & Hn & Hr).
  unfold dictContains in Hin. unfold dictScan.
  assert (0 <= used (ht0 d) /\ 0 <= used (ht1 d)) as [Hu0 Hu1].
  { destruct Hw0 as (_ & -> & _), Hw1 as (_ & -> & _).
    split; apply count_entries_nonneg. }
  assert ((dictSize d =? 0) = false) as ->.
  { apply Z.eqb_neq. unfold dictSize.
    apply orb_true_iff in Hin as [Hin | Hin].
    - destruct (ht_contains_used _ _ Hw0 Hin). lia.
    - apply andb_true_iff in Hin as [_ Hin]. destruct (ht_contains_used _ _ Hw1 Hin). lia. }
  destruct (dictIsRehashing d) eqn:Hre; simpl negb; cbv iota.
  - unfold dictIsRehashing in Hre. apply negb_true_iff, Z.eqb_neq in Hre.
    destruct (Hr Hre) as (Hidx & Hs1 & _). rewrite andb_true_l in Hin.
    apply orb_true_iff in Hin.
    destruct (Z.ltb_spec (size (ht1 d)) (size (ht0 d))).
    + apply scan_two_tables; try done; [lia | tauto].
    + apply scan_two_tables; try done; lia.
  - rewrite andb_false_l, orb_false_r in Hin.
    destruct (ht_contains_used _ _ Hw0 Hin) as [_ Hpos].
    destruct (ht_wf_mask _ Hw0 Hpos) as (k0 & Hk0 & Hs0 & Hm0).
    destruct (bucket_get_masked (ht0 d) v Hw0 Hpos) as [b0 Hb0].
    rewrite (emit_ret _ _ _ _ _ Hb0). cbn [mbind res_bind]. rewrite Hm0 in *.
    destruct (scan_next_spec k0 v ltac:(lia) Hv) as [Hv' _].
    eexists _, _. split; [done |]. split; [done |]. intros Hle Hlt.
    destruct (ht_contains_bucket _ _ Hin) as (b & e & Hb & He & Hk).
    exists e. split; [| done]. rewrite Hm0 in Hb.
    rewrite (scan_next_cover k0 v) in Hb by (done || lia).
    rewrite Hb0 in Hb. injection Hb as <-.
    apply in_or_app. right. by apply in_map.
Qed.

(** The induction behind scan completeness, from any cursor whose
    reversal does not exceed the reversed hash of the key. *)
Lemma scan_session_covers (k : K) (bf : bool) (batches : list (list dict_op)) :
  in_ulong (dictHashKey k) ->
  forall (st : bool * dict) (v : Z) (calls : list scan_call) (seen : list dict),
    dict_wf (snd st) -> in_ulong v -> rev v <= rev (dictHashKey k) ->
    batches <> [] ->
    scan_session batches st v bf = Ret (0, calls, seen) ->
    Forall (fun d => dictContains d k = true) seen ->
    reported k calls.
Proof.
  intros Hh. induction batches as [| os batches IH];
    intros st v calls seen Hwf Hv Hle Hne H Hseen; [done |].
  cbn [scan_session] in H. bind_case H. rename a into st1.
  destruct st as [can d], st1 as [can1 d1].
  pose proof (exec_ops_wf _ _ _ _ _ Hwf E) as Hwf1. simpl in Hwf1.
  bind_case H. destruct a as [v1 calls1]. simpl in E0.
  bind_case H. destruct a as [[v2 more] seen']. injection H as -> <- <-.
  simpl in Hseen. inversion Hseen as [| ? ? Hin Hseen']; subst.
  destruct (dictScan_covers d1 v bf k Hwf1 Hv Hh Hin) as (v1' & c1' & Heq & Hv1 & Hcover).
  rewrite Heq in E0. injection E0 as -> ->.
  destruct (Z.eq_dec v1 0) as [Hz | Hnz].
  { apply reported_app_l, Hcover; [done | by right]. }
  destruct (Z.lt_ge_cases (rev (dictHashKey k)) (rev v1)) as [Hbefore | Hafter].
  { apply reported_app_l, Hcover; [done | by left]. }
  apply reported_app_r.
  apply (IH (can1, d1) v1 more seen'); try done.
  intros ->. cbn [scan_session] in E1. injection E1 as -> _ _. done.
Qed.

(** C1.  Scan completeness.  Take any scan session on a well-formed
    dictionary: calls of [dictScan] starting from cursor 0, each fed the
    cursor the previous one returned, with arbitrary batches of API calls
    (inserts, deletes, rehash steps, expansions, shrinks, iterator use, the
    resize switch) run between them, ended by a call that returns 0.
    Every key that is in the dictionary at each of the scan calls is handed
    to [fn] at least once. *)
Theorem scan_completeness (k : K) (bf : bool) (batches : list (list dict_op))
    (st : bool * dict) (calls : list scan_call) (seen : list dict) :
  dict_wf (snd st) -> in_ulong (dictHashKey k) -> batches <> [] ->
  scan_session batches st 0 bf = Ret (0, calls, seen) ->
  Forall (fun d => dictContains d k = true) seen ->
  reported k calls.
Proof.
  intros Hwf Hh Hne H Hseen.
  apply (scan_session_covers k bf batches Hh st 0 calls seen); try done.
  rewrite rev_0. by apply rev_in_ulong.
Qed.



(** ** More of dict.c: what the operations keep *)

(** *** The entries of a dictionary *)

(** All the entries, bucket by bucket, [ht[0]] first. *)
Definition dict_entries (d : dict) : list dictEntry :=
  concat (table (ht0 d)) ++ concat (table (ht1 d)).

Lemma concat_insert_perm {A} (t : list (list A)) (i : nat) (old b : list A) :
  t !! i = Some old -> concat (<[i := b]> t) ++ old ≡ₚ b ++ concat t.
Proof.
  revert i. induction t as [| c t IH]; intros [| i] H; try discriminate.
  - injection H as ->. cbn. rewrite <- app_assoc.
    apply Permutation_app_head, Permutation_app_comm.
  - cbn in *. rewrite <- app_assoc, (IH i H). apply Permutation_app_swap_app.
Qed.

Lemma concat_bucket_set_perm (t : list bucket) (i : Z) (old b : bucket) :
  bucket_get t i = Ret old -> concat (bucket_set t i b) ++ old ≡ₚ b ++ concat t.
Proof.
  intros [_ H]%bucket_get_ret. by apply concat_insert_perm.
Qed.

Lemma count_entries_concat_nil (t : list bucket) :
  count_entries t = 0 -> concat t = [].
Proof.
  unfold count_entries. intros H. destruct (concat t); [done | simpl in H; lia].
Qed.

Lemma migrate_chain_perm (de : bucket) (h0 h1 h0' h1' : dictht) :
  migrate_chain de h0 h1 = Ret (h0', h1') ->
  concat (table h1') ≡ₚ de ++ concat (table h1) /\
  size h1' = size h1 /\ sizemask h1' = sizemask h1 /\
  size h0' = size h0 /\ sizemask h0' = sizemask h0.
Proof.
  revert h0 h1. induction de as [| e de IH]; intros h0 h1 H; cbn [migrate_chain] in H.
  - by simplify_eq.
  - bind_case H. apply IH in H as (Hp & Hs & Hm & Hs0 & Hm0). simpl in *.
    split_and!; try done.
    rewrite Hp. pose proof (concat_bucket_set_perm _ _ _ (e :: a) E) as Hq.
    apply (Permutation_app_inv_r a).
    rewrite <- app_assoc, Hq. cbn. rewrite <- Permutation_middle.
    apply perm_skip. rewrite <- app_assoc.
    apply Permutation_app_head, Permutation_app_comm.
Qed.

(** The outer loop of [dictRehash] moves entries, it neither drops nor
    copies one; the cursor only moves up, and it does move whenever the
    body of the loop runs. *)
Lemma rehash_loop_entries (fuel : nat) (d : dict) (n ev : Z) (st : rehash_stats)
    (d' : dict) (early : option Z) (st' : rehash_stats) :
  rehash_loop fuel d n ev st = Ret (d', early, st') ->
  dict_entries d' ≡ₚ dict_entries d /\
  rehashidx d <= rehashidx d' /\
  ((n =? 0) || (used (ht0 d) =? 0) = false -> rehashidx d < rehashidx d') /\
  size (ht0 d') = size (ht0 d) /\ sizemask (ht0 d') = sizemask (ht0 d) /\
  size (ht1 d') = size (ht1 d) /\ sizemask (ht1 d') = sizemask (ht1 d).
Proof.
  revert d n ev st. induction fuel as [| fuel IH]; intros d n ev st H;
    cbn [rehash_loop] in H; [discriminate |].
  destruct ((n =? 0) || (used (ht0 d) =? 0)) eqn:Hc.
  { simplify_eq. split_and!; try done; lia. }
  destruct (negb (to_ulong (rehashidx d) <? size (ht0 d))); [discriminate |].
  bind_case H.
  pose proof (skip_empty_counts _ _ _ _ _ E) as [Hidx Hout].
  destruct a as [idx ev' | idx].
  - bind_case H. bind_case H. destruct a0 as [h0 h1].
    pose proof (migrate_chain_table0 _ _ _ _ _ E1) as Ht0.
    apply migrate_chain_perm in E1 as (Hp & Hs1 & Hm1 & Hs0 & Hm0).
    apply IH in H as (Hperm & Hle & _ & Hz0 & Hk0 & Hz1 & Hk1). simpl in *.
    split_and!; try congruence; try lia.
    rewrite Hperm. unfold dict_entries. simpl. rewrite Ht0, Hp.
    pose proof (concat_bucket_set_perm _ _ _ [] E0) as Hq. cbn in Hq.
    by rewrite app_assoc, Hq.
  - simplify_eq. simpl. split_and!; try done; lia.
Qed.

Lemma dictSize_entries (d : dict) :
  dict_wf d -> dictSize d = Z.of_nat (length (dict_entries d)).
Proof.
  intros ((_ & H0 & _) & (_ & H1 & _) & _).
  unfold dictSize, dict_entries. rewrite H0, H1, length_app.
  unfold count_entries. lia.
Qed.

Lemma dictRehash_entries (d : dict) (n : Z) :
  dict_wf d ->
  exists d' r,
    dictRehash d n = Ret (d', r) /\ dict_wf d' /\
    dict_entries d' ≡ₚ dict_entries d /\ dictSize d' = dictSize d.
Proof.
  intros Hwf.
  destruct (dictRehash_stats_wf d n Hwf) as (d' & r & st & Heq & Hwf' & _).
  exists d', r. unfold dictRehash. rewrite Heq. cbn [mbind res_bind].
  assert (dict_entries d' ≡ₚ dict_entries d) as Hperm.
  { unfold dictRehash_stats in Heq.
    destruct (dictIsRehashing d) eqn:Hre; simpl negb in Heq; cbv iota in Heq;
      [| by simplify_eq].
    unfold dictIsRehashing in Hre. apply negb_true_iff, Z.eqb_neq in Hre.
    destruct Hwf as (H0 & H1 & Hn & Hr). destruct (Hr Hre) as (Hidx & Hs1 & Hpre).
    destruct (rehash_loop_wf (S (length (table (ht0 d)))) d n (to_int (n * 10))
                (mkStats 0 0))
      as (dl & early & st0 & Heql & ((_ & Hc & _) & _) & _).
    { unfold rehash_inv. split_and!; try done; lia. }
    { destruct H0 as (Hl & _). lia. }
    rewrite Heql in Heq. cbn [mbind res_bind] in Heq.
    pose proof (rehash_loop_entries _ _ _ _ _ _ _ _ Heql) as (Hp & _).
    destruct early as [r0 |]; [by simplify_eq |].
    destruct (used (ht0 dl) =? 0) eqn:Hu; [| by simplify_eq].
    apply Z.eqb_eq in Hu. simplify_eq. rewrite <- Hp.
    unfold dict_entries. cbn.
    rewrite Hu in Hc. symmetry in Hc. apply count_entries_concat_nil in Hc.
    rewrite Hc. by rewrite app_nil_r. }
  split_and!; try done.
  rewrite !dictSize_entries by done. by rewrite Hperm.
Qed.

(** *** What removal removes *)

Lemma maybe_step_entries (d : dict) :
  dict_wf d ->
  exists d', (if dictIsRehashing d then _dictRehashStep d else Ret d) = Ret d' /\
             dict_wf d' /\ dict_entries d' ≡ₚ dict_entries d.
Proof.
  intros Hwf. destruct (dictIsRehashing d); [| by exists d].
  unfold _dictRehashStep. destruct (iterators d =? 0); [| by exists d].
  destruct (dictRehash_entries d 1 Hwf) as (d' & r & -> & Hwf' & Hp & _).
  by exists d'.
Qed.

(** The walk of [_dictGenericDelete] takes the first entry of the chain
    that compares equal to the key, and nothing else. *)
Lemma chain_unlink_spec (k : K) (chain : bucket) (x : dictEntry) (rest : bucket) :
  chain_unlink k chain = Some (x, rest) ->
  keyCompare k (key x) = true /\
  exists pre post,
    chain = pre ++ x :: post /\ rest = pre ++ post /\
    Forall (fun e => keyCompare k (key e) = false) pre.
Proof.
  revert x rest. induction chain as [| e chain IH]; intros x rest H; simpl in H;
    [discriminate |].
  destruct (keyCompare k (key e)) eqn:Hc.
  - injection H as <- <-. split; [done |]. by exists [], chain.
  - destruct (chain_unlink k chain) as [[y rest'] |]; [| discriminate].
    simpl in H. injection H as <- <-.
    destruct (IH y rest' eq_refl) as (Hk & pre & post & -> & -> & Hpre).
    split; [done |]. exists (e :: pre), post. split_and!; try done.
    by constructor.
Qed.

Lemma generic_delete_in_removes (h : dictht) (k : K) (hkey : Z) (nofree : bool)
    (h' : dictht) (x : dictEntry) (log : list free_event) :
  generic_delete_in h k hkey nofree = Ret (Some (h', x, log)) ->
  keyCompare k (key x) = true /\ concat (table h) ≡ₚ x :: concat (table h').
Proof.
  unfold generic_delete_in. intros H. bind_case H.
  destruct (chain_unlink k a) as [[y rest] |] eqn:Hu; [| discriminate].
  injection H as <- <- <-.
  apply chain_unlink_spec in Hu as (Hk & pre & post & -> & -> & _).
  split; [done |]. cbn [table set_used set_table].
  pose proof (concat_bucket_set_perm _ _ _ (pre ++ post) E) as Hq.
  apply (Permutation_app_inv_r (pre ++ post)).
  rewrite (Permutation_app_comm (concat (table h))), <- Hq.
  cbn. rewrite !app_assoc. symmetry. apply Permutation_middle.
Qed.

(** [_dictGenericDelete] takes out of the dictionary the entry it returns,
    whose key compares equal to the one asked for, and no other; when it
    returns [NULL] every entry is still there. *)
Lemma _dictGenericDelete_removes (d : dict) (k : K) (nofree : bool)
    (d' : dict) (he : option dictEntry) (log : list free_event) :
  dict_wf d -> _dictGenericDelete d k nofree = Ret (d', he, log) ->
  match he with
  | Some x => keyCompare k (key x) = true /\ dict_entries d ≡ₚ x :: dict_entries d'
  | None => dict_entries d' ≡ₚ dict_entries d
  end.
Proof.
  intros Hwf H. unfold _dictGenericDelete in H.
  destruct (_ && _); [by injection H as <- <- <- |].
  destruct (maybe_step_entries d Hwf) as (d1 & Heq & Hwf1 & Hp).
  rewrite Heq in H. cbn [mbind res_bind] in H.
  destruct (generic_delete_in (ht0 d1) _ _ _) as [[[[h x] l] |] | |] eqn:H0;
    try discriminate; cbn [mbind res_bind] in H.
  - injection H as <- <- <-. apply generic_delete_in_removes in H0 as [Hk Hq].
    split; [done |]. rewrite <- Hp. unfold dict_entries. cbn. by rewrite Hq.
  - destruct (negb _); [by injection H as <- <- <- |].
    destruct (generic_delete_in (ht1 d1) _ _ _) as [[[[h x] l] |] | |] eqn:H1;
      try discriminate; cbn [mbind res_bind] in H; injection H as <- <- <-;
      [| done].
    apply generic_delete_in_removes in H1 as [Hk Hq].
    split; [done |]. rewrite <- Hp. unfold dict_entries. cbn. rewrite Hq.
    by rewrite Permutation_middle.
Qed.

(** The number of entries whose key compares equal to [k]. *)
Definition key_count (k : K) (d : dict) : nat :=
  length (List.filter (fun e => keyCompare k (key e)) (dict_entries d)).

Lemma filter_length_Permutation {A} (f : A -> bool) (l l' : list A) :
  l ≡ₚ l' -> length (List.filter f l) = length (List.filter f l').
Proof.
  induction 1 as [| x l l' _ IH | x y l | l l' l'' _ IH1 _ IH2]; simpl.
  - done.
  - destruct (f x); simpl; by rewrite IH.
  - by destruct (f x), (f y).
  - by rewrite IH1.
Qed.

Lemma key_count_Permutation (k : K) (d d' : dict) :
  dict_entries d ≡ₚ dict_entries d' -> key_count k d = key_count k d'.
Proof. apply filter_length_Permutation. Qed.

Lemma key_count_In (k : K) (d : dict) (e : dictEntry) :
  In e (dict_entries d) -> keyCompare k (key e) = true -> (0 < key_count k d)%nat.
Proof.
  intros Hin Hk. unfold key_count.
  assert (In e (List.filter (fun e => keyCompare k (key e)) (dict_entries d))) as H
    by (apply filter_In; done).
  destruct (List.filter _ _); [done | simpl; lia].
Qed.

Lemma bucket_In_entries (d : dict) (t idx : Z) (b : bucket) (e : dictEntry) :
  bucket_get (table (ht_at d t)) idx = Ret b -> In e b -> In e (dict_entries d).
Proof.
  intros [_ Hb]%bucket_get_ret He. unfold dict_entries, ht_at in *.
  apply in_or_app. destruct (t =? 0); [left | right];
    apply in_concat; exists b; split; try done;
    apply list_elem_of_In; by eapply list_elem_of_lookup_2.
Qed.

Lemma chain_index_lookup (k : K) (b : bucket) (p : nat) :
  chain_index k b = Some p ->
  exists e, b !! p = Some e /\ keyCompare k (key e) = true.
Proof.
  revert p. induction b as [| e b IH]; intros p H; simpl in H; [discriminate |].
  destruct (keyCompare k (key e)) eqn:Hc.
  - injection H as <-. by exists e.
  - destruct (chain_index k b) as [q |]; [| discriminate].
    injection H as <-. destruct (IH q eq_refl) as (x & Hx & Hk). by exists x.
Qed.

(** What [dictFind] returns is an entry of the dictionary whose key
    compares equal to the one looked up; the rehash step it may make moves
    entries but keeps them all. *)
Lemma dictFind_found (d : dict) (k : K) (d' : dict) (r : entryRef) :
  dict_wf d -> dictFind d k = Ret (d', Some r) ->
  dict_entries d' ≡ₚ dict_entries d /\
  exists e, deref d' r = Ret e /\ keyCompare k (key e) = true /\
            In e (dict_entries d').
Proof.
  intros Hwf H. unfold dictFind in H.
  destruct (used (ht0 d) + used (ht1 d) =? 0); [discriminate |].
  destruct (maybe_step_entries d Hwf) as (d1 & Heq & Hwf1 & Hp).
  rewrite Heq in H. cbn [mbind res_bind] in H.
  assert (forall t idx b p,
            bucket_get (table (ht_at d1 t)) idx = Ret b -> chain_index k b = Some p ->
            exists e, deref d1 (mkRef t idx p) = Ret e /\ keyCompare k (key e) = true /\
                      In e (dict_entries d1)) as Hat.
  { intros t idx b p Hb Hi. destruct (chain_index_lookup _ _ _ Hi) as (e & He & Hk).
    exists e. unfold deref. cbn. rewrite Hb. cbn. rewrite He. split_and!; try done.
    eapply bucket_In_entries; [exact Hb |].
    apply list_elem_of_In. by eapply list_elem_of_lookup_2. }
  bind_case H. destruct (chain_index k a) as [p |] eqn:Hi.
  { injection H as <- <-. split; [done |]. by apply (Hat 0 _ a p). }
  destruct (negb _); [discriminate |].
  bind_case H. destruct (chain_index k a0) as [p |] eqn:Hi1; [| discriminate].
  injection H as <- <-. split; [done |]. by apply (Hat 1 _ a0 p).
Qed.

Lemma dictFind_total (d : dict) (k : K) :
  dict_wf d -> exists d' r, dictFind d k = Ret (d', r).
Proof.
  intros Hwf.
  destruct (_dictGenericDelete_total d k true Hwf) as (d1 & he & log & H).
  destruct (dictUnlink_dictFind d d1 k he Hwf) as (d' & r & Hf & _).
  { unfold dictUnlink. by rewrite H. }
  by exists d', r.
Qed.

(** Once the only entry of the key has been taken out, a lookup of the key
    finds nothing. *)
Lemma removed_key_not_found (d : dict) (k : K) (nofree : bool)
    (d' : dict) (x : dictEntry) (log : list free_event) :
  dict_wf d -> (key_count k d <= 1)%nat ->
  _dictGenericDelete d k nofree = Ret (d', Some x, log) ->
  key_count k d' = 0%nat /\ exists d'', dictFind d' k = Ret (d'', None).
Proof.
  intros Hwf Hone H.
  pose proof (_dictGenericDelete_wf _ _ _ _ _ _ Hwf H) as Hwf'.
  apply _dictGenericDelete_removes in H as [Hk Hp]; [| done].
  assert (key_count k d = S (key_count k d')) as Hc.
  { unfold key_count. rewrite (filter_length_Permutation _ _ _ Hp). simpl.
    by rewrite Hk. }
  assert (key_count k d' = 0%nat) as Hz by lia. split; [done |].
  destruct (dictFind_total d' k Hwf') as (d'' & r & Hf).
  destruct r as [r |]; [| by exists d''].
  destruct (dictFind_found _ _ _ _ Hwf' Hf) as (Hq & e & _ & Hke & Hin).
  pose proof (key_count_In k d'' e Hin Hke) as Hpos.
  rewrite (key_count_Permutation k d'' d' Hq) in Hpos. lia.
Qed.

(** What a removal amounts to: the entry [x], whose key compares equal to
    [k], is no longer among the entries of the dictionary, every other
    entry still is, and the size has gone down by one; with no entry
    removed the entries are all there. *)
Definition taken_out (k : K) (d : dict) (x : option dictEntry) (d' : dict) : Prop :=
  match x with
  | Some e => keyCompare k (key e) = true /\
              dict_entries d ≡ₚ e :: dict_entries d' /\
              dictSize d' = dictSize d - 1
  | None => dict_entries d' ≡ₚ dict_entries d /\ dictSize d' = dictSize d
  end.

Lemma _dictGenericDelete_taken_out (d : dict) (k : K) (nofree : bool)
    (d' : dict) (he : option dictEntry) (log : list free_event) :
  dict_wf d -> _dictGenericDelete d k nofree = Ret (d', he, log) ->
  taken_out k d he d'.
Proof.
  intros Hwf H.
  pose proof (_dictGenericDelete_wf _ _ _ _ _ _ Hwf H) as Hwf'.
  apply _dictGenericDelete_removes in H; [| done]. unfold taken_out.
  rewrite !dictSize_entries by done.
  destruct he as [x |].
  - destruct H as [Hk Hp]. split_and!; try done. rewrite Hp. cbn [length]. lia.
  - split; [done |]. by rewrite H.
Qed.


Lemma rehash_loop_early (fuel : nat) (d : dict) (n ev : Z) (st : rehash_stats)
    (d' : dict) (r : Z) (st' : rehash_stats) :
  rehash_loop fuel d n ev st = Ret (d', Some r, st') ->
  (n =? 0) || (used (ht0 d) =? 0) = false.
Proof.
  destruct fuel; cbn [rehash_loop]; [discriminate |].
  destruct ((n =? 0) || (used (ht0 d) =? 0)); [discriminate | done].
Qed.

Lemma dictRehash_advance (d : dict) (n : Z) :
  dict_wf d -> dictIsRehashing d = true -> 0 < n <= INT_MAX ->
  exists d' r,
    dictRehash d n = Ret (d', r) /\ dict_wf d' /\
    ((r = 0 /\ dictIsRehashing d' = false /\
      size (ht0 d') = size (ht1 d) /\ ht1 d' = _dictReset) \/
     (r = 1 /\ dictIsRehashing d' = true /\ rehashidx d < rehashidx d' /\
      size (ht0 d') = size (ht0 d) /\ size (ht1 d') = size (ht1 d))).
Proof.
  intros Hwf Hre Hn.
  destruct (dictRehash_stats_wf d n Hwf) as (d' & r & st & Heq & Hwf' & _ & Hr).
  exists d', r. unfold dictRehash. rewrite Heq. cbn [mbind res_bind].
  split; [done |]. split; [done |].
  unfold dictRehash_stats in Heq. rewrite Hre in Heq. simpl negb in Heq.
  cbv iota in Heq. bind_case Heq. destruct a as [[dl early] st0].
  pose proof (rehash_loop_entries _ _ _ _ _ _ _ _ E)
    as (_ & Hle & Hlt & Hz0 & _ & Hz1 & _).
  destruct early as [r0 |].
  - pose proof (rehash_loop_counts _ _ _ _ _ _ _ _ E ltac:(lia))
      as (_ & _ & -> & _).
    apply rehash_loop_early in E. simplify_eq.
    destruct Hr as [(_ & Hre' & _) | (? & _)]; [| done].
    right. split_and!; try done. by apply Hlt.
  - destruct (used (ht0 dl) =? 0) eqn:Hu; simplify_eq.
    + left. simpl. split_and!; done.
    + right. apply Z.eqb_neq in Hu.
      destruct Hr as [(_ & Hre' & _) | (? & _)]; [| done].
      split_and!; try done. apply Hlt.
      apply orb_false_iff. split; [apply Z.eqb_neq; lia |].
      apply Z.eqb_neq. intros Hz.
      destruct (length (table (ht0 d))); cbn [rehash_loop] in E.
      all: rewrite Hz in E; rewrite orb_true_r in E; simplify_eq; done.
Qed.

(** [dictRehash] returns on every well-formed dictionary, whatever [n];
    it moves entries from one table to the other and loses none, copies
    none: the entries after the call are those before it, in another
    order, and [dictSize] is unchanged. *)
Theorem dictRehash_keeps_entries (d : dict) (n : Z) :
  dict_wf d ->
  exists d' r,
    dictRehash d n = Ret (d', r) /\
    dict_entries d' ≡ₚ dict_entries d /\ dictSize d' = dictSize d.
Proof.
  intros Hwf. destruct (dictRehash_entries d n Hwf) as (d' & r & H & _ & Hp & Hs).
  exists d', r. done.
Qed.

(** A call of [dictRehash] with a positive [int] [n] on a dictionary that
    is being rehashed makes progress: either it finishes the rehash
    (returns 0; [ht[0]] is now the table that was [ht[1]], and [ht[1]] is
    reset), or it returns 1 with the cursor strictly further than it was
    and both tables of the size they had. *)
Theorem dictRehash_progress (d : dict) (n : Z) :
  dict_wf d -> dictIsRehashing d = true -> 0 < n <= INT_MAX ->
  exists d' r,
    dictRehash d n = Ret (d', r) /\
    ((r = 0 /\ dictIsRehashing d' = false /\
      size (ht0 d') = size (ht1 d) /\ ht1 d' = _dictReset) \/
     (r = 1 /\ dictIsRehashing d' = true /\ rehashidx d < rehashidx d' /\
      rehashidx d' < size (ht0 d) /\
      size (ht0 d') = size (ht0 d) /\ size (ht1 d') = size (ht1 d))).
Proof.
  intros Hwf Hre Hn.
  destruct (dictRehash_advance d n Hwf Hre Hn) as (d' & r & H & Hwf' & Hc).
  exists d', r. split; [done |].
  destruct Hc as [? | (-> & Hre' & Hlt & Hs0 & Hs1)]; [by left | right].
  split_and!; try done.
  unfold dictIsRehashing in Hre'. apply negb_true_iff, Z.eqb_neq in Hre'.
  destruct Hwf' as (_ & _ & _ & Hw). destruct (Hw Hre') as ((_ & ?) & _). lia.
Qed.

(** *** dictRehashMilliseconds *)

(** [timeInMilliseconds()]: the value its [n]-th call returns.  Nothing is
    assumed of the clock. *)
Variable timeInMilliseconds : nat -> Z.

(** The [while (dictRehash(d, 100))] loop; [reads] counts the calls of
    [timeInMilliseconds] made so far.  [rehashes] is an [int], the
    difference of the two clock readings a [long long]. *)
Fixpoint rehash_ms_loop (fuel : nat) (d : dict) (start ms : Z) (reads : nat)
    (rehashes : Z) : res (dict * Z * nat) :=
  match fuel with
  | O => OutOfFuel
  | S f =>
    '(d, r) ← dictRehash d 100;
    if r =? 0 then Ret (d, rehashes, reads)
    else
      let rehashes := to_int (rehashes + 100) in
      if ms <? to_long (timeInMilliseconds reads - start)
      then Ret (d, rehashes, S reads)
      else rehash_ms_loop f d start ms (S reads) rehashes
  end.

Definition dictRehashMilliseconds (d : dict) (ms : Z) (reads : nat)
  : res (dict * Z * nat) :=
  let start := timeInMilliseconds reads in
  rehash_ms_loop (S (S (length (table (ht0 d))))) d start ms (S reads) 0.

Lemma to_int_add (a b : Z) : to_int (to_int a + b) = to_int (a + b).
Proof.
  unfold to_int. change (2 ^ 31) with 2147483648.
  change (2 ^ 32) with 4294967296. Z.div_mod_to_equations. lia.
Qed.

Lemma rehash_ms_loop_spec (fuel : nat) (d : dict) (start ms : Z) (reads : nat)
    (rehashes : Z) :
  dict_wf d ->
  (if dictIsRehashing d then size (ht0 d) - rehashidx d < Z.of_nat fuel
   else (0 < fuel)%nat) ->
  exists d' r reads',
    rehash_ms_loop fuel d start ms reads rehashes = Ret (d', r, reads') /\
    dict_wf d' /\ dict_entries d' ≡ₚ dict_entries d /\
    (exists q, r = (if q =? 0 then rehashes else to_int (rehashes + 100 * q)) /\
               0 <= q <= if dictIsRehashing d then size (ht0 d) - rehashidx d else 0) /\
    (dictIsRehashing d = false -> d' = d) /\
    (dictIsRehashing d' = true ->
     exists i, (reads <= i)%nat /\ ms < to_long (timeInMilliseconds i - start)).
Proof.
  revert d reads rehashes.
  induction fuel as [| fuel IH]; intros d reads rehashes Hwf Hf.
  { destruct (dictIsRehashing d) eqn:Hre; [| lia].
    unfold dictIsRehashing in Hre. apply negb_true_iff, Z.eqb_neq in Hre.
    destruct Hwf as (_ & _ & _ & Hw). destruct (Hw Hre) as ((_ & ?) & _). lia. }
  cbn [rehash_ms_loop].
  destruct (dictRehash_entries d 100 Hwf) as (d1 & r & Heq & Hwf1 & Hp & _).
  rewrite Heq. cbn [mbind res_bind].
  assert (0 < 100 <= INT_MAX) as H100 by (unfold INT_MAX; lia).
  destruct (dictIsRehashing d) eqn:Hre.
  - destruct (dictRehash_advance d 100 Hwf Hre H100)
      as (d1' & r' & Heq' & _ & Hcase).
    rewrite Heq in Heq'. symmetry in Heq'. simplify_eq.
    pose proof Hre as Hre0.
    unfold dictIsRehashing in Hre0. apply negb_true_iff, Z.eqb_neq in Hre0.
    pose proof Hwf as (_ & _ & _ & Hw). destruct (Hw Hre0) as ((Hi0 & Hi1) & _).
    destruct Hcase as [(-> & Hre1 & _) | (-> & Hre1 & Hlt & Hs0 & Hs1)].
    + exists d1, rehashes, reads. simpl. split_and!; try done.
      * exists 0. split; [done | lia].
      * intros ?. congruence.
    + simpl. destruct (ms <? to_long (timeInMilliseconds reads - start)) eqn:Ht.
      * exists d1, (to_int (rehashes + 100)), (S reads). split_and!; try done.
        -- exists 1. split; [done | lia].
        -- intros _. exists reads. split; [lia | by apply Z.ltb_lt].
      * destruct (IH d1 (S reads) (to_int (rehashes + 100)) Hwf1)
          as (d' & r' & reads' & Hrun & Hwf' & Hp' & (q & -> & Hq) & _ & Hclock).
        { rewrite Hre1. lia. }
        rewrite Hre1 in Hq.
        eexists d', _, reads'. split_and!; try done.
        -- by rewrite Hp'.
        -- exists (q + 1). split; [| lia].
           destruct (Z.eqb_spec (q + 1) 0) as [? | _]; [lia |].
           destruct (Z.eqb_spec q 0) as [Hq0 | Hne].
           ++ rewrite Hq0. reflexivity.
           ++ rewrite to_int_add. f_equal. lia.
        -- intros Hr''. destruct (Hclock Hr'') as (i & Hi & Hms).
           exists i. split; [lia | done].
  - assert (d1 = d /\ r = 0) as [-> ->].
    { unfold dictRehash, dictRehash_stats in Heq. rewrite Hre in Heq.
      cbn in Heq. by simplify_eq. }
    exists d, rehashes, reads. simpl. split_and!; try done.
    + exists 0. split; [done | lia].
    + intros ?. congruence.
Qed.



Lemma _dictGenericDelete_log (d : dict) (k : K) (nofree : bool)
    (d' : dict) (he : option dictEntry) (log : list free_event) :
  _dictGenericDelete d k nofree = Ret (d', he, log) ->
  log = if nofree then [] else dictFreeUnlinkedEntry he.
Proof.
  intros H. unfold _dictGenericDelete in H.
  assert (forall h r, generic_delete_in h k (dictHashKey k) nofree = Ret r ->
            match r with
            | Some (_, x, l) => l = if nofree then [] else dictFreeUnlinkedEntry (Some x)
            | None => True
            end) as Hin.
  { intros h r Hr. unfold generic_delete_in in Hr. bind_case Hr.
    destruct (chain_unlink k a) as [[y rest] |]; injection Hr as <-; [| done].
    by destruct nofree. }
  destruct (_ && _); [injection H as <- <- <-; by destruct nofree |].
  bind_case H. bind_case H. pose proof (Hin _ _ E0) as H0.
  destruct a0 as [[[h x] l] |].
  - by injection H as <- <- <-.
  - destruct (negb _); [injection H as <- <- <-; by destruct nofree |].
    bind_case H. pose proof (Hin _ _ E1) as H1.
    destruct a0 as [[[h x] l] |]; injection H as <- <- <-; [done |].
    by destruct nofree.
Qed.

(** What [dictDelete] removes.  With [DICT_OK] one entry is gone, its key
    compares equal to the key asked for, every other entry is still in the
    dictionary, [dictSize] is one less, and the entry has been freed: key
    destructor, value destructor, [zfree], in this order; if the
    dictionary held the key once, a lookup of the key now finds nothing.
    With [DICT_ERR] the dictionary holds the entries it held and nothing
    has been freed. *)
Theorem dictDelete_removes (d : dict) (k : K) :
  dict_wf d ->
  exists d' r log,
    dictDelete d k = Ret (d', r, log) /\
    ((r = DICT_OK /\
      exists x, keyCompare k (key x) = true /\
                dict_entries d ≡ₚ x :: dict_entries d' /\
                dictSize d' = dictSize d - 1 /\
                log = dictFreeKey x ++ dictFreeVal x ++ [ZfreeEntry x] /\
                ((key_count k d <= 1)%nat ->
                 exists d'', dictFind d' k = Ret (d'', None))) \/
     (r = DICT_ERR /\ dict_entries d' ≡ₚ dict_entries d /\
      dictSize d' = dictSize d /\ log = [])).
Proof.
  intros Hwf.
  destruct (_dictGenericDelete_total d k false Hwf) as (d' & he & log & H).
  pose proof (_dictGenericDelete_taken_out _ _ _ _ _ _ Hwf H) as Hout.
  pose proof (_dictGenericDelete_log _ _ _ _ _ _ H) as Hlog. cbv iota in Hlog.
  eexists d', _, log. unfold dictDelete. rewrite H. cbn [mbind res_bind].
  split; [reflexivity |]. destruct he as [x |].
  - left. split; [done |]. destruct Hout as (Hk & Hp & Hs).
    exists x. split_and!; try done.
    intros Hone. by destruct (removed_key_not_found _ _ _ _ _ _ Hwf Hone H).
  - right. destruct Hout as [Hp Hs]. by split_and!.
Qed.


(** *** A complete scan of a table that is not touched meanwhile *)

(** The loop of a client of [dictScan]:
    [v = 0; do { v = dictScan(d, v, fn, ...); } while (v != 0);]
    with the calls of each round. *)
Fixpoint scan_to_end (fuel : nat) (d : dict) (v : Z) (bucketfn : bool)
  : res (list (list scan_call)) :=
  match fuel with
  | O => OutOfFuel
  | S f =>
    '(v, calls) ← dictScan d v bucketfn;
    if v =? 0 then Ret [calls]
    else rest ← scan_to_end f d v bucketfn; Ret (calls :: rest)
  end.

(** The entries handed to [fn]. *)
Definition fn_entries (calls : list scan_call) : list dictEntry :=
  omap (fun c => match c with Fn e => Some e | BucketFn _ _ => None end) calls.

(** The cursor of round [i] of a scan of a table of [2^k] buckets. *)
Definition cursor_at (k i : Z) : Z := rev (i * 2 ^ (64 - k)).

Lemma cursor_arg_in_ulong (k i : Z) :
  0 <= k <= 64 -> 0 <= i < 2 ^ k -> in_ulong (i * 2 ^ (64 - k)).
Proof.
  intros Hk Hi. unfold in_ulong.
  assert (0 < 2 ^ (64 - k)) by (apply Z.pow_pos_nonneg; lia).
  replace (2 ^ 64) with (2 ^ k * 2 ^ (64 - k))
    by (rewrite <- Z.pow_add_r by lia; f_equal; lia).
  split; [nia |]. apply Z.mul_lt_mono_pos_r; lia.
Qed.

Lemma cursor_at_in_ulong (k i : Z) :
  0 <= k <= 64 -> 0 <= i < 2 ^ k -> in_ulong (cursor_at k i).
Proof. intros. by apply rev_in_ulong, cursor_arg_in_ulong. Qed.

Lemma rev_cursor_at (k i : Z) :
  0 <= k <= 64 -> 0 <= i < 2 ^ k -> rev (cursor_at k i) = i * 2 ^ (64 - k).
Proof. intros. by apply rev_involutive, cursor_arg_in_ulong. Qed.

Lemma cursor_at_inj (k i j : Z) :
  0 <= k <= 64 -> 0 <= i < 2 ^ k -> 0 <= j < 2 ^ k ->
  cursor_at k i = cursor_at k j -> i = j.
Proof.
  intros Hk Hi Hj H. apply (f_equal rev) in H.
  rewrite !rev_cursor_at in H by done.
  assert (0 < 2 ^ (64 - k)) by (apply Z.pow_pos_nonneg; lia). nia.
Qed.

(** The cursor has its bits in the low [k] positions only. *)
Lemma cursor_at_low (k i : Z) :
  0 <= k <= 64 -> 0 <= i < 2 ^ k ->
  Z.land (cursor_at k i) (Z.ones k) = cursor_at k i /\
  0 <= cursor_at k i < 2 ^ k.
Proof.
  intros Hk Hi.
  pose proof (cursor_at_in_ulong k i Hk Hi) as Hu.
  assert (Z.land (cursor_at k i) (Z.ones k) = cursor_at k i) as Hl.
  { apply Z.bits_inj'. intros j Hj. rewrite Z.land_spec.
    destruct (Z.lt_ge_cases j k) as [Hlt | Hge].
    - rewrite Z.ones_spec_low by lia. apply andb_true_r.
    - rewrite Z.ones_spec_high by lia. rewrite andb_false_r. symmetry.
      destruct (Z.lt_ge_cases j 64) as [Hj64 | Hj64].
      + unfold cursor_at. rewrite rev_bits by (try apply cursor_arg_in_ulong; lia).
        apply Z.mul_pow2_bits_low. lia.
      + by apply testbit_ulong_high. }
  split; [done |]. rewrite <- Hl, Z.land_ones by lia.
  apply Z.mod_pos_bound. apply Z.pow_pos_nonneg; lia.
Qed.

Lemma scan_next_cursor_at (k i : Z) :
  0 <= k <= 64 -> 0 <= i < 2 ^ k ->
  scan_next (Z.ones k) (cursor_at k i)
  = if i + 1 <? 2 ^ k then cursor_at k (i + 1) else 0.
Proof.
  intros Hk Hi.
  pose proof (cursor_at_in_ulong k i Hk Hi) as Hu.
  destruct (scan_next_spec k (cursor_at k i) Hk Hu) as [Hin Hrev].
  rewrite rev_cursor_at in Hrev by done.
  assert (0 < 2 ^ (64 - k)) as Hp by (apply Z.pow_pos_nonneg; lia).
  rewrite Z.div_mul in Hrev by lia.
  assert (2 ^ 64 = 2 ^ k * 2 ^ (64 - k)) as H64
    by (rewrite <- Z.pow_add_r by lia; f_equal; lia).
  destruct (i + 1 <? 2 ^ k) eqn:Hlt.
  - apply Z.ltb_lt in Hlt.
    rewrite Z.mod_small in Hrev by (apply cursor_arg_in_ulong; lia).
    rewrite <- (rev_involutive _ Hin), Hrev. unfold cursor_at. exact eq_refl.
  - apply Z.ltb_ge in Hlt. assert (i + 1 = 2 ^ k) as Heq by lia.
    rewrite Heq, <- H64, Z.mod_same in Hrev by lia.
    by apply rev_eq_0.
Qed.


(** The bucket at an index, [NULL] outside the array. *)
Definition bucket_at (t : list bucket) (i : Z) : bucket :=
  default [] (t !! Z.to_nat i).

(** What [dictScan] hands to its callbacks at the bucket [c] of [ht[0]]. *)
Definition scan_round (bucketfn : bool) (t : list bucket) (c : Z) : list scan_call :=
  (if bucketfn then [BucketFn 0 c] else []) ++ map Fn (bucket_at t c).

Lemma fn_entries_round (bucketfn : bool) (t : list bucket) (c : Z) :
  fn_entries (scan_round bucketfn t c) = bucket_at t c.
Proof.
  unfold fn_entries, scan_round. rewrite omap_app.
  assert (forall l : bucket, omap (fun c => match c with Fn e => Some e | BucketFn _ _ => None end)
                               (map Fn l) = l) as H
    by (induction l as [| ? ? IH]; cbn; [done | by rewrite IH]).
  rewrite H. by destruct bucketfn.
Qed.

Lemma fn_entries_rounds (bucketfn : bool) (t : list bucket) (cs : list Z) :
  fn_entries (concat (scan_round bucketfn t <$> cs)) = concat (bucket_at t <$> cs).
Proof.
  induction cs as [| c cs IH]; [done |].
  cbn. unfold fn_entries in *. rewrite omap_app. fold (fn_entries (scan_round bucketfn t c)).
  by rewrite fn_entries_round, IH.
Qed.

Lemma concat_bucket_at_all (t : list bucket) :
  concat (bucket_at t <$> seqZ 0 (Z.of_nat (length t))) = concat t.
Proof.
  f_equal. apply list_eq. intros i. rewrite list_lookup_fmap.
  destruct (t !! i) as [b |] eqn:Hb.
  - pose proof (lookup_lt_Some _ _ _ Hb).
    rewrite lookup_seqZ_lt by lia. cbn. unfold bucket_at.
    replace (Z.to_nat (0 + Z.of_nat i)) with i by lia. by rewrite Hb.
  - pose proof (lookup_ge_None_1 _ _ Hb).
    rewrite lookup_seqZ_ge by lia. done.
Qed.

Lemma concat_Permutation {A} (l1 l2 : list (list A)) :
  l1 ≡ₚ l2 -> concat l1 ≡ₚ concat l2.
Proof.
  induction 1 as [| x l1 l2 _ IH | x y l | l1 l2 l3 _ IH1 _ IH2]; cbn.
  - done.
  - by rewrite IH.
  - apply Permutation_app_swap_app.
  - by rewrite IH1.
Qed.

(** The cursors of the [2^k] rounds are the [2^k] bucket indices, each
    once. *)
Lemma cursors_Permutation (k : Z) :
  0 <= k <= 64 -> cursor_at k <$> seqZ 0 (2 ^ k) ≡ₚ seqZ 0 (2 ^ k).
Proof.
  intros Hk. assert (0 < 2 ^ k) by (apply Z.pow_pos_nonneg; lia).
  apply submseteq_length_Permutation.
  - apply NoDup_submseteq.
    + apply NoDup_fmap_2_strong; [| apply NoDup_seqZ].
      intros i j Hi%elem_of_seqZ Hj%elem_of_seqZ. apply cursor_at_inj; lia.
    + intros c (i & -> & Hi%elem_of_seqZ)%list_elem_of_fmap.
      apply elem_of_seqZ. pose proof (cursor_at_low k i Hk ltac:(lia)). lia.
  - by rewrite length_fmap.
Qed.

Lemma dictScan_stable (d : dict) (k c : Z) (bucketfn : bool) :
  dict_wf d -> dictIsRehashing d = false -> dictSize d <> 0 ->
  size (ht0 d) = 2 ^ k -> sizemask (ht0 d) = Z.ones k ->
  0 <= c < 2 ^ k -> Z.land c (Z.ones k) = c ->
  dictScan d c bucketfn
  = Ret (scan_next (Z.ones k) c, scan_round bucketfn (table (ht0 d)) c).
Proof.
  intros ((Hl & _) & _) Hre Hne Hs Hm Hc Hland. unfold dictScan.
  apply Z.eqb_neq in Hne. rewrite Hne, Hre. simpl negb. cbv iota.
  rewrite Hm, Hland. unfold emit, bucket_get.
  destruct (c <? 0) eqn:Hneg; [apply Z.ltb_lt in Hneg; lia |].
  destruct (table (ht0 d) !! Z.to_nat c) as [b |] eqn:Hb.
  - cbn [mbind res_bind]. unfold scan_round, bucket_at. rewrite Hb. reflexivity.
  - apply lookup_ge_None_1 in Hb. lia.
Qed.

Lemma scan_to_end_stable (d : dict) (k : Z) (bucketfn : bool) (m : nat) :
  dict_wf d -> dictIsRehashing d = false -> dictSize d <> 0 ->
  0 <= k <= 64 -> size (ht0 d) = 2 ^ k -> sizemask (ht0 d) = Z.ones k ->
  forall (fuel : nat) (i : Z),
    0 <= i -> Z.of_nat (S m) = 2 ^ k - i -> (m < fuel)%nat ->
    scan_to_end fuel d (cursor_at k i) bucketfn
    = Ret (scan_round bucketfn (table (ht0 d)) <$> (cursor_at k <$> seqZ i (2 ^ k - i))).
Proof.
  intros Hwf Hre Hne Hk Hs Hm.
  induction m as [| m IH]; intros fuel i Hi Hrem Hfuel;
    (destruct fuel as [| fuel]; [lia |]); cbn [scan_to_end];
    pose proof (cursor_at_low k i Hk ltac:(lia)) as [Hland Hrange];
    rewrite (dictScan_stable d k _ bucketfn Hwf Hre Hne Hs Hm Hrange Hland);
    cbn [mbind res_bind]; rewrite scan_next_cursor_at by lia.
  - assert ((i + 1 <? 2 ^ k) = false) as -> by (apply Z.ltb_ge; lia).
    cbn [mbind res_bind]. replace (2 ^ k - i) with 1 by lia.
    rewrite seqZ_cons by lia. rewrite seqZ_nil by lia.
    destruct (0 =? 0) eqn:E; [reflexivity | by apply Z.eqb_neq in E].
  - assert ((i + 1 <? 2 ^ k) = true) as -> by (apply Z.ltb_lt; lia).
    assert (cursor_at k (i + 1) <> 0) as Hnz.
    { intros Hz. assert (0 < 2 ^ k) by (apply Z.pow_pos_nonneg; lia).
      assert (cursor_at k 0 = 0) as H0
        by (unfold cursor_at; rewrite Z.mul_0_l; apply rev_0).
      rewrite <- H0 in Hz. apply cursor_at_inj in Hz; lia. }
    apply Z.eqb_neq in Hnz. rewrite Hnz.
    rewrite (IH fuel (i + 1)) by lia. cbn [mbind res_bind].
    rewrite (seqZ_cons i (2 ^ k - i)) by lia. cbn [fmap list_fmap].
    replace (Z.pred (2 ^ k - i)) with (2 ^ k - (i + 1)) by lia.
    replace (Z.succ i) with (i + 1) by lia. done.
Qed.


(** On a dictionary that is not being rehashed and is left alone, the
    client loop started at cursor 0 comes back to cursor 0, after exactly
    [size] calls of [dictScan] (one call when the dictionary is empty),
    and [fn] has then been handed every entry exactly once. *)
Theorem full_scan_reports_each_entry_once (d : dict) (bucketfn : bool) :
  dict_wf d -> dictIsRehashing d = false ->
  exists css,
    scan_to_end (S (length (table (ht0 d)))) d 0 bucketfn = Ret css /\
    fn_entries (concat css) ≡ₚ dict_entries d /\
    Z.of_nat (length css) = (if dictSize d =? 0 then 1 else size (ht0 d)).
Proof.
  intros Hwf Hre.
  pose proof Hwf as (H0 & H1 & Hn & _).
  assert (ht1 d = _dictReset) as Hreset.
  { apply Hn. unfold dictIsRehashing in Hre. by apply negb_false_iff, Z.eqb_eq in Hre. }
  destruct (dictSize d =? 0) eqn:Hz.
  - cbn [scan_to_end]. unfold dictScan. rewrite Hz. cbn.
    exists [[]]. split_and!; try done.
    apply Z.eqb_eq in Hz. unfold dictSize in Hz. rewrite Hreset in Hz. cbn in Hz.
    unfold dict_entries. rewrite Hreset. cbn.
    destruct H0 as (_ & Hu & _).
    rewrite (count_entries_concat_nil (table (ht0 d))) by lia. done.
  - apply Z.eqb_neq in Hz.
    assert (0 < size (ht0 d)) as Hpos.
    { apply dict_wf_size_pos; [done |]. left. unfold dictSize in Hz.
      rewrite Hreset in Hz. cbn in Hz. lia. }
    destruct (ht_wf_mask (ht0 d) H0 Hpos) as (k & Hk & Hs & Hm).
    assert (0 < 2 ^ k) as Hpk by (apply Z.pow_pos_nonneg; lia).
    pose proof H0 as (Hl & _).
    assert (cursor_at k 0 = 0) as Hc0
      by (unfold cursor_at; rewrite Z.mul_0_l; apply rev_0).
    pose proof (scan_to_end_stable d k bucketfn (Z.to_nat (2 ^ k - 1)) Hwf Hre Hz
                  ltac:(lia) Hs Hm (S (length (table (ht0 d)))) 0
                  ltac:(lia) ltac:(lia) ltac:(lia)) as Hrun.
    rewrite Hc0, Z.sub_0_r in Hrun. eexists. split; [exact Hrun |]. split.
    + rewrite fn_entries_rounds.
      rewrite (concat_Permutation _ (bucket_at (table (ht0 d)) <$> seqZ 0 (2 ^ k))).
      * rewrite <- Hs, <- Hl, concat_bucket_at_all.
        unfold dict_entries. rewrite Hreset. cbn. by rewrite app_nil_r.
      * apply fmap_Permutation, cursors_Permutation. lia.
    + rewrite !length_fmap, length_seqZ. lia.
Qed.


(** *** Iterating over a dictionary that is not touched meanwhile *)

(** The loop of a client of an iterator:
    [while ((de = dictNext(iter)) != NULL) ...], with the entries
    returned. *)
Fixpoint iterate (fuel : nat) (iter : dictIterator) (d : dict)
  : res (list dictEntry * dictIterator * dict) :=
  match fuel with
  | O => OutOfFuel
  | S f =>
    '(iter, d, e) ← dictNext iter d;
    match e with
    | None => Ret ([], iter, d)
    | Some e => '(es, iter, d) ← iterate f iter d; Ret (e :: es, iter, d)
    end
  end.

(** The buckets an iterator has not looked at yet. *)
Definition buckets_ahead (iter : dictIterator) (d : dict) : list bucket :=
  if it_table iter =? 0
  then drop (Z.to_nat (it_index iter + 1)) (table (ht0 d))
       ++ (if dictIsRehashing d then table (ht1 d) else [])
  else drop (Z.to_nat (it_index iter + 1)) (table (ht1 d)).

(** The entries [dictNext] has still to return. *)
Definition entries_ahead (iter : dictIterator) (d : dict) : list dictEntry :=
  match it_entry iter with
  | [] => concat (buckets_ahead iter d)
  | _ :: _ => it_nextEntry iter ++ concat (buckets_ahead iter d)
  end.

Definition iter_ok (iter : dictIterator) (d : dict) : Prop :=
  dict_wf d /\ size (ht0 d) < 2 ^ 63 /\ size (ht1 d) < 2 ^ 63 /\
  -1 <= it_index iter /\
  (it_table iter = 0 \/ (it_table iter = 1 /\ dictIsRehashing d = true)) /\
  (it_index iter = -1 -> it_table iter = 0 /\ it_entry iter = []).

(** The state of the dictionary after a call of [dictNext]: only the
    count of safe iterators may have changed, on the first call. *)
Definition after_next (iter : dictIterator) (d : dict) : dict :=
  if (it_index iter =? -1) && (it_table iter =? 0) && it_safe iter
  then set_iterators d (to_ulong (iterators d + 1)) else d.

Lemma to_long_small (x : Z) : 0 <= x < 2 ^ 63 -> to_long x = x.
Proof. intros H. unfold to_long. rewrite Z.mod_small; lia. Qed.

Lemma ht_wf_size_nonneg (h : dictht) : ht_wf h -> 0 <= size h.
Proof. intros (Hl & _). lia. Qed.

Lemma drop_lookup_cons {A} (l : list A) (i : nat) (x : A) :
  l !! i = Some x -> drop i l = x :: drop (S i) l.
Proof.
  revert i. induction l as [| y l IH]; intros [| i] H; try discriminate.
  - by injection H as ->.
  - cbn. by apply IH.
Qed.


Lemma iter_ok_after_next (iter iter0 : dictIterator) (d : dict) :
  iter_ok iter d -> iter_ok iter (after_next iter0 d).
Proof.
  unfold after_next. destruct (_ && _); [| done].
  intros (Hwf & ? & ? & ? & ? & ?). split_and!; done.
Qed.

Lemma iter_ok_intro (d : dict) (idx t : Z) (safe : bool) (entry nx : bucket)
    (fp : Z) :
  dict_wf d -> size (ht0 d) < 2 ^ 63 -> size (ht1 d) < 2 ^ 63 -> 0 <= idx ->
  t = 0 \/ (t = 1 /\ dictIsRehashing d = true) ->
  iter_ok (mkIter idx t safe entry nx fp) d.
Proof.
  intros Hwf H0 H1 Hidx Ht. unfold iter_ok.
  cbn [it_index it_table it_entry]. split_and!; try done; try lia.
Qed.

Lemma iter_ok_before_next (iter iter0 : dictIterator) (d : dict) :
  iter_ok iter (after_next iter0 d) -> iter_ok iter d.
Proof.
  unfold after_next. destruct (_ && _); [| done].
  intros (Hwf & ? & ? & ? & ? & ?). split_and!; done.
Qed.

Lemma buckets_ahead_after_next (iter iter0 : dictIterator) (d : dict) :
  buckets_ahead iter (after_next iter0 d) = buckets_ahead iter d.
Proof. unfold after_next. by destruct (_ && _). Qed.

Lemma after_next_started (iter : dictIterator) (d : dict) :
  0 <= it_index iter -> after_next iter d = d.
Proof.
  intros H. unfold after_next.
  destruct (it_index iter =? -1) eqn:E; [apply Z.eqb_eq in E; lia | done].
Qed.

(** Which buckets are ahead depends on the table and the index only. *)
Definition ahead (t idx : Z) (d : dict) : list bucket :=
  if t =? 0
  then drop (Z.to_nat (idx + 1)) (table (ht0 d))
       ++ (if dictIsRehashing d then table (ht1 d) else [])
  else drop (Z.to_nat (idx + 1)) (table (ht1 d)).

Lemma buckets_ahead_eq (iter : dictIterator) (d : dict) :
  buckets_ahead iter d = ahead (it_table iter) (it_index iter) d.
Proof. reflexivity. Qed.

Lemma ahead_step (t idx : Z) (d : dict) (b : bucket) :
  -1 <= idx -> bucket_get (table (ht_at d t)) (idx + 1) = Ret b ->
  ahead t idx d = b :: ahead t (idx + 1) d.
Proof.
  intros Hidx [_ Hb]%bucket_get_ret. unfold ahead, ht_at in *.
  replace (Z.to_nat (idx + 1 + 1)) with (S (Z.to_nat (idx + 1))) by lia.
  destruct (t =? 0); by rewrite (drop_lookup_cons _ _ _ Hb).
Qed.

Lemma ahead_end (t idx : Z) (d : dict) :
  dict_wf d -> size (ht_at d t) <= idx + 1 ->
  ahead t idx d
  = if (t =? 0) && dictIsRehashing d then table (ht1 d) else [].
Proof.
  intros ((Hl0 & _) & (Hl1 & _) & _) Hs. unfold ahead, ht_at in *.
  destruct (t =? 0); rewrite drop_ge by lia; cbn; [| done].
  by destruct (dictIsRehashing d).
Qed.

Lemma ahead_second (d : dict) : ahead 1 0 d = drop 1 (table (ht1 d)).
Proof. reflexivity. Qed.

(** [dictNext] from a state in which [iter->entry] is [NULL]: it walks to
    the first bucket ahead that is not empty. *)
Lemma next_loop_scan (fuel : nat) (iter : dictIterator) (d : dict) :
  iter_ok iter d -> it_entry iter = [] ->
  (length (buckets_ahead iter d) < fuel)%nat ->
  exists iter',
    next_loop fuel iter d
    = Ret (iter', after_next iter d, head (concat (buckets_ahead iter d))) /\
    it_safe iter' = it_safe iter /\
    it_fingerprint iter'
    = (if (it_index iter =? -1) && (it_table iter =? 0) && negb (it_safe iter)
       then _dictFingerprint d else it_fingerprint iter) /\
    0 <= it_index iter' /\
    (is_Some (head (concat (buckets_ahead iter d))) ->
     iter_ok iter' d /\ it_entry iter' <> [] /\
     entries_ahead iter' d = tail (concat (buckets_ahead iter d))).
Proof.
  revert iter d. induction fuel as [| fuel IH]; intros iter d Hok Hentry Hfuel;
    [lia |].
  pose proof Hok as (Hwf & Hs0 & Hs1 & Hidx & Htab & Hfirst).
  pose proof Hwf as (H0 & H1 & Hn & Hr).
  cbn [next_loop]. rewrite Hentry.
  set (first := (it_index iter =? -1) && (it_table iter =? 0)).
  set (fp := if first && negb (it_safe iter) then _ else _).
  assert (fp = if first && negb (it_safe iter)
               then _dictFingerprint d else it_fingerprint iter) as Hfp.
  { unfold fp. destruct first, (it_safe iter); cbn [andb negb]; reflexivity. }
  fold (after_next iter d) in *.
  assert (after_next iter d
          = if first && it_safe iter
            then set_iterators d (to_ulong (iterators d + 1)) else d) as Hd1
    by reflexivity.
  rewrite <- Hd1. clearbody fp.
  assert (ht0 (after_next iter d) = ht0 d /\ ht1 (after_next iter d) = ht1 d /\
          dictIsRehashing (after_next iter d) = dictIsRehashing d /\
          ht_at (after_next iter d) (it_table iter) = ht_at d (it_table iter))
    as (He0 & He1 & Her & Hat).
  { rewrite Hd1. destruct (first && it_safe iter); split_and!; done. }
  clear Hd1.
  assert (iter_ok iter (after_next iter d)) as Hok1 by (by apply iter_ok_after_next).
  assert (0 <= size (ht_at d (it_table iter)) < 2 ^ 63) as Hsz.
  { unfold ht_at. destruct (_ =? 0);
      [pose proof (ht_wf_size_nonneg _ H0) | pose proof (ht_wf_size_nonneg _ H1)]; lia. }
  rewrite to_long_small by done.
  rewrite !buckets_ahead_eq.
  destruct (size (ht_at d (it_table iter)) <=? it_index iter + 1) eqn:Hend.
  - apply Z.leb_le in Hend. rewrite (ahead_end _ _ _ Hwf Hend), Her, He1.
    rewrite (andb_comm (dictIsRehashing d)).
    destruct ((it_table iter =? 0) && dictIsRehashing d) eqn:Hsw.
    + (* on to the second table *)
      apply andb_true_iff in Hsw as [Ht%Z.eqb_eq Hre].
      assert (rehashidx d <> -1) as Hre'
        by (unfold dictIsRehashing in Hre; by apply negb_true_iff, Z.eqb_neq in Hre).
      destruct (Hr Hre') as (_ & Hpos1 & _).
      destruct (bucket_get_in_range (table (ht1 d)) 0) as (b & Hb).
      { destruct H1 as (Hl1 & _). lia. }
      rewrite Hb. cbn [mbind res_bind].
      pose proof Hb as [_ Hb0]%bucket_get_ret.
      assert (table (ht1 d) = b :: drop 1 (table (ht1 d))) as Ht1
        by (by apply (drop_lookup_cons _ 0)).
      destruct b as [| e next].
      * cbn [it_index it_table it_safe it_entry it_nextEntry it_fingerprint].
        destruct (IH (mkIter 0 (it_table iter + 1) (it_safe iter) []
                             (it_nextEntry iter) fp) (after_next iter d))
          as (iter' & Hrun & Hsafe & Hfp' & Hi' & Hsome).
        { rewrite Ht. apply iter_ok_after_next, iter_ok_intro; try done.
          right. done. }
        { done. }
        { rewrite buckets_ahead_after_next, buckets_ahead_eq.
          cbn [it_table it_index]. rewrite Ht. change (0 + 1) with 1.
          rewrite ahead_second, length_drop.
          rewrite buckets_ahead_eq, (ahead_end _ _ _ Hwf Hend), Ht, Hre in Hfuel.
          cbn [Z.eqb andb] in Hfuel.
          apply (f_equal length) in Ht1. cbn [length] in Ht1. lia. }
        exists iter'. rewrite Hrun.
        rewrite (after_next_started _ (after_next iter d)) by (cbn; lia).
        rewrite buckets_ahead_after_next. cbn [it_safe it_fingerprint] in *.
        rewrite buckets_ahead_eq. cbn [it_table it_index].
        assert (ahead (it_table iter + 1) 0 d = drop 1 (table (ht1 d))) as Hah.
        { unfold ahead. rewrite Ht. done. }
        rewrite Hah.
        assert (concat (table (ht1 d)) = concat (drop 1 (table (ht1 d)))) as Hcc
          by (rewrite Ht1 at 1; reflexivity).
        rewrite Hcc.
        split_and!; try done.
        -- rewrite Hfp'. cbn [it_index it_table it_safe it_fingerprint].
           change (0 =? -1) with false. cbn [andb]. exact Hfp.
        -- intros Hs. rewrite buckets_ahead_after_next, buckets_ahead_eq in Hsome.
           cbn [it_table it_index] in Hsome. rewrite Hah in Hsome.
           destruct (Hsome Hs) as (Hok' & Hne & Hahead). split_and!; try done.
           ++ by eapply iter_ok_before_next.
           ++ rewrite <- Hahead. unfold entries_ahead.
              by rewrite !buckets_ahead_after_next.
      * assert (concat (table (ht1 d))
                = (e :: next) ++ concat (drop 1 (table (ht1 d)))) as Hcc
          by (rewrite Ht1 at 1; reflexivity).
        rewrite Hcc. cbn [app list.head list.tail].
        eexists. split; [reflexivity |].
        cbn [it_index it_table it_safe it_entry it_nextEntry it_fingerprint].
        split_and!; try done; try lia.
        intros _. split_and!; try done.
        -- rewrite Ht. apply iter_ok_intro; try done. right. done.
        -- unfold entries_ahead. cbn [it_entry it_nextEntry].
           rewrite buckets_ahead_eq. cbn [it_table it_index]. rewrite Ht.
           change (0 + 1) with 1. by rewrite ahead_second.
    + (* the end *)
      eexists. split; [reflexivity |].
      cbn [it_index it_table it_safe it_entry it_nextEntry it_fingerprint
           concat list.head].
      split_and!; [reflexivity | exact Hfp | lia | intros [? [=]]].
  - apply Z.leb_gt in Hend. rewrite ?Hat.
    destruct (bucket_get_in_range (table (ht_at d (it_table iter))) (it_index iter + 1))
      as (b & Hb).
    { unfold ht_at in *. destruct (_ =? 0);
        [destruct H0 as (Hl & _) | destruct H1 as (Hl & _)]; lia. }
    rewrite Hb. cbn [mbind res_bind].
    rewrite (ahead_step _ _ _ _ Hidx Hb).
    destruct b as [| e next].
    + cbn [it_index it_table it_safe it_entry it_nextEntry it_fingerprint].
      destruct (IH (mkIter (it_index iter + 1) (it_table iter) (it_safe iter) []
                           (it_nextEntry iter) fp) (after_next iter d))
        as (iter' & Hrun & Hsafe & Hfp' & Hi' & Hsome).
      { apply iter_ok_after_next, iter_ok_intro; try done. lia. }
      { done. }
      { rewrite buckets_ahead_after_next, buckets_ahead_eq. cbn [it_table it_index].
        rewrite buckets_ahead_eq, (ahead_step _ _ _ _ Hidx Hb) in Hfuel.
        cbn in Hfuel. lia. }
      exists iter'. rewrite Hrun.
      rewrite (after_next_started _ (after_next iter d)) by (cbn; lia).
      rewrite buckets_ahead_after_next, buckets_ahead_eq in *.
      cbn [it_safe it_fingerprint it_table it_index concat app] in *.
      split_and!; try done.
      * rewrite Hfp'.
        cbn [it_index it_table it_safe it_fingerprint].
        replace ((it_index iter + 1 =? -1)) with false
          by (symmetry; apply Z.eqb_neq; lia).
        cbn [andb]. exact Hfp.
      * intros Hs. destruct (Hsome Hs) as (Hok' & Hne & Hahead).
        split_and!; try done.
        -- by eapply iter_ok_before_next.
        -- rewrite <- Hahead. unfold entries_ahead.
           by rewrite !buckets_ahead_after_next.
    + eexists. split; [reflexivity |].
      cbn [it_index it_table it_safe it_entry it_nextEntry it_fingerprint
           concat app head tail].
      split_and!; try done; try lia.
      intros _. split_and!; try done.
      apply iter_ok_intro; try done. lia.
Qed.

Lemma entries_ahead_after_next (iter iter0 : dictIterator) (d : dict) :
  entries_ahead iter (after_next iter0 d) = entries_ahead iter d.
Proof. unfold entries_ahead. by rewrite buckets_ahead_after_next. Qed.

Lemma buckets_ahead_length (iter : dictIterator) (d : dict) :
  (length (buckets_ahead iter d)
   <= length (table (ht0 d)) + length (table (ht1 d)))%nat.
Proof.
  unfold buckets_ahead.
  destruct (it_table iter =? 0), (dictIsRehashing d);
    rewrite ?length_app, !length_drop; cbn [length]; lia.
Qed.

(** One call of [dictNext] on a dictionary that has not been touched since
    the iterator was made or last advanced. *)
Lemma dictNext_spec (iter : dictIterator) (d : dict) :
  iter_ok iter d ->
  exists iter',
    dictNext iter d = Ret (iter', after_next iter d, head (entries_ahead iter d)) /\
    it_safe iter' = it_safe iter /\
    it_fingerprint iter'
    = (if (it_index iter =? -1) && (it_table iter =? 0) && negb (it_safe iter)
       then _dictFingerprint d else it_fingerprint iter) /\
    0 <= it_index iter' /\
    (is_Some (head (entries_ahead iter d)) ->
     iter_ok iter' d /\ it_entry iter' <> [] /\
     entries_ahead iter' d = tail (entries_ahead iter d)).
Proof.
  intros Hok. pose proof (buckets_ahead_length iter d) as Hlen.
  unfold dictNext, entries_ahead.
  destruct (it_entry iter) as [| e0 rest] eqn:Hentry.
  - apply next_loop_scan; [done | done | lia].
  - pose proof Hok as (Hwf & Hs0 & Hs1 & Hidx & Htab & Hfirst).
    assert (0 <= it_index iter) as Hpos.
    { destruct (Z.eq_dec (it_index iter) (-1)) as [E | E]; [| lia].
      destruct (Hfirst E) as [_ He]. rewrite Hentry in He. discriminate. }
    assert ((it_index iter =? -1) = false) as Hne by (apply Z.eqb_neq; lia).
    rewrite (after_next_started _ _ Hpos), Hne. cbn [andb].
    remember (S (length (table (ht0 d)) + length (table (ht1 d)))) as f eqn:Hf.
    cbn [next_loop]. rewrite Hentry.
    destruct (it_nextEntry iter) as [| e next] eqn:Hnext.
    + cbn [app].
      set (iter0 := mkIter _ _ _ _ _ _).
      assert (iter_ok iter0 d) as Hok0
        by (apply iter_ok_intro; done).
      destruct (next_loop_scan f iter0 d Hok0 eq_refl) as (iter' & Hrun & Hrest).
      { pose proof (buckets_ahead_length iter0 d). lia. }
      exists iter'. rewrite Hrun.
      rewrite (after_next_started iter0 d) by done.
      rewrite !buckets_ahead_eq in *. subst iter0.
      cbn [it_index it_table it_safe it_fingerprint] in Hrest.
      rewrite Hne in Hrest. cbn [andb] in Hrest.
      split; [reflexivity | exact Hrest].
    + eexists. split; [reflexivity |].
      cbn [it_index it_table it_safe it_entry it_nextEntry it_fingerprint
           app list.head list.tail].
      split_and!; try done.
      intros _. split_and!; try done.
      apply iter_ok_intro; done.
Qed.

Lemma head_None_nil {A} (l : list A) : head l = None -> l = [].
Proof. by destruct l. Qed.

Lemma head_Some_cons {A} (l : list A) (x : A) : head l = Some x -> l = x :: tail l.
Proof. destruct l; [done |]. by intros [= ->]. Qed.

(** The whole loop of a client: the entries ahead, in the order of the
    tables. *)
Lemma iterate_spec (fuel : nat) (iter : dictIterator) (d : dict) :
  iter_ok iter d -> (length (entries_ahead iter d) < fuel)%nat ->
  exists iter',
    iterate fuel iter d = Ret (entries_ahead iter d, iter', after_next iter d) /\
    it_safe iter' = it_safe iter /\
    it_fingerprint iter'
    = (if (it_index iter =? -1) && (it_table iter =? 0) && negb (it_safe iter)
       then _dictFingerprint d else it_fingerprint iter) /\
    0 <= it_index iter'.
Proof.
  revert iter d. induction fuel as [| fuel IH]; intros iter d Hok Hfuel; [lia |].
  destruct (dictNext_spec iter d Hok)
    as (iter1 & Hrun & Hsafe & Hfp & Hidx & Hsome).
  cbn [iterate]. rewrite Hrun. cbn [mbind res_bind].
  destruct (head (entries_ahead iter d)) as [e |] eqn:Hhead.
  - destruct (Hsome (ltac:(eauto))) as (Hok1 & _ & Hahead).
    apply head_Some_cons in Hhead.
    destruct (IH iter1 (after_next iter d))
      as (iter' & Hrun' & Hsafe' & Hfp' & Hidx').
    { by apply iter_ok_after_next. }
    { rewrite entries_ahead_after_next, Hahead.
      rewrite Hhead in Hfuel. cbn [length] in Hfuel. lia. }
    rewrite Hrun'. cbn [mbind res_bind].
    rewrite entries_ahead_after_next, Hahead, (after_next_started iter1) by done.
    exists iter'. split_and!; [by rewrite <- Hhead | congruence | | done].
    rewrite Hfp'.
    replace (it_index iter1 =? -1) with false by (symmetry; apply Z.eqb_neq; lia).
    cbn [andb]. exact Hfp.
  - apply head_None_nil in Hhead. rewrite Hhead.
    exists iter1. split_and!; done.
Qed.

(** An iterator made by [dictGetIterator] or [dictGetSafeIterator] and run
    to the end over a dictionary that nothing else touches returns every
    entry of the dictionary once, the first table before the second and
    each bucket in the order of its chain; [dictReleaseIterator] then
    passes its [assert] and leaves the dictionary as it was before the
    first [dictNext]. *)
Theorem iterator_returns_each_entry_once (safe : bool) (junk : Z) (d : dict) :
  dict_wf d -> size (ht0 d) < 2 ^ 63 -> size (ht1 d) < 2 ^ 63 ->
  in_ulong (iterators d) ->
  exists iter' d',
    iterate (S (length (dict_entries d)))
            (if safe then dictGetSafeIterator junk else dictGetIterator junk) d
    = Ret (dict_entries d, iter', d') /\
    d' = (if safe then set_iterators d (to_ulong (iterators d + 1)) else d) /\
    dictReleaseIterator iter' d' = Ret d.
Proof.
  intros Hwf Hs0 Hs1 Hit.
  set (iter := if safe then _ else _).
  assert (it_index iter = -1 /\ it_table iter = 0 /\ it_entry iter = [] /\
          it_safe iter = safe) as (Hi & Ht & He & Hsf)
    by (subst iter; destruct safe; done).
  assert (iter_ok iter d) as Hok.
  { unfold iter_ok. rewrite Hi, Ht, He. split_and!; try done. by left. }
  assert (entries_ahead iter d = dict_entries d) as Hahead.
  { unfold entries_ahead, buckets_ahead, dict_entries.
    rewrite He, Hi, Ht. cbn [Z.eqb]. change (Z.to_nat (-1 + 1)) with 0%nat.
    rewrite drop_0, concat_app. f_equal.
    unfold dictIsRehashing. destruct (rehashidx d =? -1) eqn:E; [| done].
    apply Z.eqb_eq in E. destruct Hwf as (_ & _ & Hreset & _).
    by rewrite (Hreset E). }
  destruct (iterate_spec (S (length (dict_entries d))) iter d Hok)
    as (iter' & Hrun & Hsafe & Hfp & Hidx); [rewrite Hahead; lia |].
  rewrite Hahead in Hrun.
  assert (after_next iter d
          = if safe then set_iterators d (to_ulong (iterators d + 1)) else d)
    as Hafter.
  { unfold after_next. rewrite Hi, Ht, Hsf. by destruct safe. }
  rewrite Hafter in Hrun.
  exists iter', (if safe then set_iterators d (to_ulong (iterators d + 1)) else d).
  split_and!; [done | done |].
  unfold dictReleaseIterator.
  replace (it_index iter' =? -1) with false by (symmetry; apply Z.eqb_neq; lia).
  cbn [andb negb]. rewrite Hsafe, Hsf.
  rewrite Hi, Ht, Hsf in Hfp. cbn [Z.eqb andb] in Hfp.
  destruct safe.
  - f_equal. destruct d. cbn [set_iterators iterators] in *. f_equal.
    unfold to_ulong, in_ulong, ULONG_MOD in *.
    change (2 ^ 64) with 18446744073709551616 in *.
    Z.div_mod_to_equations. lia.
  - cbn [negb] in Hfp. rewrite Hfp, Z.eqb_refl. done.
Qed.


End Dict.

(** ** A concrete dictionary: integer keys hashed by their own value *)

Definition int_hash (k : Z) : Z := to_ulong k.

Definition int_exec_ops {V : Type} (os : list (@dict_op Z V))
    (st : bool * @dict Z V) : res (bool * @dict Z V) :=
  exec_ops int_hash Z.eqb id id true true (fun _ => 0) os st.

Definition add_keys (ks : list nat) : list (@dict_op Z Z) :=
  map (fun k => OpAdd (Z.of_nat k) (Z.of_nat k * 10)) ks.

(** The dictionary a batch of calls builds from [dictCreate]. *)
Definition built {V : Type} (can : bool) (os : list (@dict_op Z V)) : @dict Z V :=
  match int_exec_ops os (can, dictCreate) with
  | Ret (_, d) => d
  | _ => dictCreate
  end.

Lemma dict_wf_create {K V : Type} : dict_wf (@dictCreate K V).
Proof.
  unfold dict_wf, dictCreate. simpl.
  split_and?; try apply ht_wf_reset; try done.
Qed.

Lemma built_wf {V : Type} (can : bool) (os : list (@dict_op Z V)) :
  dict_wf (built can os).
Proof.
  unfold built. destruct (int_exec_ops os (can, dictCreate)) as [[can' d] | |] eqn:E;
    try apply dict_wf_create.
  eapply exec_ops_wf; [apply dict_wf_create | exact E].
Qed.


(** Keys 0..20 added with resizing off: a table of 4 slots holding 21
    entries.  Keys 0..23: 24 entries in 4 slots. *)
Definition crowded_21 : @dict Z Z := built false (add_keys (seq 0 21)).
Definition crowded_24 : @dict Z Z := built false (add_keys (seq 0 24)).
(** Keys 0..3 added with resizing on: a full table of 4 slots.  Key 4
    added as well: the rehash towards 8 slots has begun. *)
Definition full_4 : @dict Z Z := built true (add_keys (seq 0 4)).
Definition rehashing_5 : @dict Z Z := built true (add_keys (seq 0 5)).

Definition is_rehashing_after_add (can : bool) (d : @dict Z Z) (k : Z) : option bool :=
  match dictAddRaw int_hash Z.eqb id can d k with
  | Ret (d', _, _) => Some (dictIsRehashing d')
  | _ => None
  end.

Definition ht1_size_after_add (can : bool) (d : @dict Z Z) (k : Z) : option Z :=
  match dictAddRaw int_hash Z.eqb id can d k with
  | Ret (d', _, _) => Some (size (ht1 d'))
  | _ => None
  end.

(** C2.  The code misses the growth the claim, and its own comment,
    promise: 21 entries in 4 slots is a ratio above 5
    ([5 * size < used]), the dictionary is not rehashing, and an insertion
    with resizing off starts no growth: [21 / 4 = 5] in integers does not
    exceed [dict_force_resize_ratio]. *)
Lemma forced_growth_missed :
  5 * size (ht0 crowded_21) < used (ht0 crowded_21) /\
  size (ht0 crowded_21) = 4 /\ used (ht0 crowded_21) = 21 /\
  rehashidx crowded_21 = -1 /\
  is_rehashing_after_add false crowded_21 100 = Some false /\
  ht1_size_after_add false crowded_21 100 = Some 0.
Proof. vm_compute. split_and?; reflexivity. Qed.

Lemma forced_growth_threshold_witness :
  dict_wf crowded_24 /\ rehashidx crowded_24 = -1 /\
  0 < size (ht0 crowded_24) /\ used (ht0 crowded_24) < 2 ^ 62 /\
  exists d' entry ex,
    dictAddRaw int_hash Z.eqb id false crowded_24 100 = Ret (d', entry, ex) /\
    (dictIsRehashing d' = true <->
     dict_force_resize_ratio < used (ht0 crowded_24) / size (ht0 crowded_24)) /\
    (dictIsRehashing d' = true <-> 6 * size (ht0 crowded_24) <= used (ht0 crowded_24)) /\
    size (ht0 d') = size (ht0 crowded_24) /\
    (dictIsRehashing d' = true ->
     size (ht1 d') = _dictNextPower (2 * used (ht0 crowded_24)) /\
     size (ht0 d') < size (ht1 d')).
Proof.
  assert (dict_wf crowded_24) as Hwf by apply built_wf.
  assert (rehashidx crowded_24 = -1) as Hidle by reflexivity.
  assert (0 < size (ht0 crowded_24)) as Hpos by reflexivity.
  assert (used (ht0 crowded_24) < 2 ^ 62) as Hu by reflexivity.
  split_and?; try assumption.
  exact (forced_growth_threshold int_hash Z.eqb id crowded_24 100 Hwf Hidle Hpos Hu).
Defined.

(** C3 does not hold as stated: inserting the fifth element into a full
    table of 4 slots allocates 8 slots, not
    [2 * next_pow2 (used + 1) = 16]. *)
Lemma growth_target_counterexample :
  size (ht0 full_4) = 4 /\ used (ht0 full_4) = 4 /\ rehashidx full_4 = -1 /\
  ht1_size_after_add true full_4 100 = Some 8 /\
  2 * _dictNextPower (used (ht0 full_4) + 1) = 16.
Proof. vm_compute. split_and?; reflexivity. Qed.

Lemma growth_target_size_witness :
  dict_wf full_4 /\ rehashidx full_4 = -1 /\ 0 < size (ht0 full_4) /\
  size (ht0 full_4) <= used (ht0 full_4) /\ used (ht0 full_4) < 2 ^ 62 /\
  exists d' entry ex,
    dictAddRaw int_hash Z.eqb id true full_4 100 = Ret (d', entry, ex) /\
    dictIsRehashing d' = true /\
    size (ht0 d') = size (ht0 full_4) /\
    size (ht1 d') = _dictNextPower (2 * used (ht0 full_4)) /\
    (exists j, size (ht1 d') = 2 ^ j /\ 2 * used (ht0 full_4) <= 2 ^ j /\
               2 ^ (j - 1) < 2 * used (ht0 full_4)) /\
    (used (ht0 full_4) = size (ht0 full_4) -> size (ht1 d') = 2 * size (ht0 full_4)).
Proof.
  assert (dict_wf full_4) as Hwf by apply built_wf.
  assert (rehashidx full_4 = -1) as Hidle by reflexivity.
  assert (0 < size (ht0 full_4)) as Hpos by reflexivity.
  assert (size (ht0 full_4) <= used (ht0 full_4)) as Hfull by (vm_compute; discriminate).
  assert (used (ht0 full_4) < 2 ^ 62) as Hu by reflexivity.
  split_and?; try assumption.
  exact (growth_target_size int_hash Z.eqb id full_4 100 Hwf Hidle Hpos Hfull Hu).
Defined.

Lemma dictRehash_bounded_work_witness :
  dict_wf rehashing_5 /\ 0 <= 1 <= INT_MAX /\
  exists d' r st,
    dictRehash_stats int_hash rehashing_5 1 = Ret (d', r, st) /\
    0 <= migrated st <= 1 /\ 0 <= empty_probes st <= 10 * 1.
Proof.
  assert (dict_wf rehashing_5) as Hwf by apply built_wf.
  assert (0 <= 1 <= INT_MAX) as Hn by (vm_compute; split; discriminate).
  split; [exact Hwf |]. split; [exact Hn |].
  destruct (dictRehash_bounded_work int_hash rehashing_5 1 Hwf Hn)
    as (_ & d' & r & st & Heq & _ & _ & Hm & He & _).
  exists d', r, st. exact (conj Heq (conj Hm He)).
Defined.

(** Seventeen keys, all but key 16 deleted once the table has 32 slots,
    then [dictResize]: a rehash towards 4 slots from a table whose only
    entry sits in bucket 16. *)
Definition sparse : @dict Z Z :=
  built true (add_keys (seq 0 17) ++ [OpRehash 100]
              ++ map (fun k => OpDelete (Z.of_nat k)) (seq 0 16) ++ [OpResize]).

Definition rehash_outcome (d : @dict Z Z) (n : Z) : option (Z * Z * Z * Z) :=
  match dictRehash_stats int_hash d n with
  | Ret (d', r, st) => Some (rehashidx d', r, migrated st, empty_probes st)
  | _ => None
  end.

(** The budget of empty visits on [sparse]: one step gives up after 10
    empty buckets; two steps reach the entry and finish; 429496730 steps
    give up after 4 empty buckets, since [429496730 * 10] is
    [2^32 + 4] and the [int] keeps the 4. *)
Lemma dictRehash_budget_on_sparse :
  rehash_outcome sparse 1 = Some (10, 1, 0, 10) /\
  rehash_outcome sparse 2 = Some (-1, 0, 1, 16) /\
  rehash_outcome sparse 429496730 = Some (4, 1, 0, 4).
Proof. vm_compute. split_and?; reflexivity. Qed.

Lemma migration_monotonicity_witness :
  dict_wf rehashing_5 /\ dictIsRehashing rehashing_5 = true /\
  prefix_empty (table (ht0 rehashing_5)) (rehashidx rehashing_5).
Proof.
  assert (dict_wf rehashing_5) as Hwf by apply built_wf.
  assert (dictIsRehashing rehashing_5 = true) as Hre by reflexivity.
  split_and?; try assumption.
  destruct (migration_monotonicity int_hash Z.eqb id id true true (fun _ => 0)
              rehashing_5 Hwf) as (Hpre & _).
  exact (Hpre Hre).
Defined.

Lemma dictDelete_returns_witness :
  dict_wf rehashing_5 /\
  exists d' r log,
    dictDelete int_hash Z.eqb true true rehashing_5 1 = Ret (d', r, log) /\
    dict_wf d'.
Proof.
  assert (dict_wf rehashing_5) as Hwf by apply built_wf.
  split; [exact Hwf |].
  destruct (dictDelete_returns int_hash Z.eqb true true rehashing_5 1 Hwf)
    as (d' & r & log & Heq & Hwf' & _).
  exists d', r, log. exact (conj Heq Hwf').
Defined.

(** A scan session that grows the table after the first call and shrinks
    it before the last: five calls of [dictScan], from cursor 0 back to 0.
    Key 3 is in the dictionary at every one of them. *)
Definition sample_batches : list (list (@dict_op Z Z)) :=
  [ add_keys (seq 0 4);
    add_keys (seq 4 2);
    [OpDelete 0; OpRehash 1];
    [OpAdd 7 70; OpAdd 9 90];
    [OpRehash 100; OpDelete 1; OpDelete 2; OpDelete 4; OpDelete 5; OpResize] ].

Lemma scan_completeness_witness :
  exists calls seen,
    scan_session int_hash Z.eqb id id true true (fun _ => 0) sample_batches
                 (true, dictCreate) 0 false = Ret (0, calls, seen) /\
    length seen = 5%nat /\
    Forall (fun d => dictContains int_hash Z.eqb d 3 = true) seen /\
    reported Z.eqb 3 calls.
Proof.
  eexists _, _. split; [vm_compute; reflexivity |].
  split; [reflexivity |].
  match goal with
  | |- Forall ?P ?seen /\ _ =>
    assert (Forall P seen) as Hseen
      by (repeat (constructor; [vm_compute; reflexivity |]); constructor)
  end.
  split; [exact Hseen |].
  refine (scan_completeness int_hash Z.eqb id id true true (fun _ => 0) 3 false
            sample_batches (true, dictCreate) _ _ dict_wf_create _ _ _ Hseen).
  - vm_compute. split; [discriminate | reflexivity].
  - discriminate.
  - vm_compute. reflexivity.
Defined.

Lemma dictRehash_keeps_entries_witness :
  dict_wf rehashing_5 /\
  exists d' r,
    dictRehash int_hash rehashing_5 1 = Ret (d', r) /\
    dict_entries d' ≡ₚ dict_entries rehashing_5 /\
    dictSize d' = dictSize rehashing_5.
Proof.
  assert (dict_wf rehashing_5) as Hwf by apply built_wf.
  split; [exact Hwf |].
  exact (dictRehash_keeps_entries int_hash rehashing_5 1 Hwf).
Defined.

Lemma dictRehash_progress_witness :
  dict_wf rehashing_5 /\ dictIsRehashing rehashing_5 = true /\
  0 < 1 <= INT_MAX /\
  exists d' r,
    dictRehash int_hash rehashing_5 1 = Ret (d', r) /\
    (r = 0 \/ r = 1 /\ rehashidx rehashing_5 < rehashidx d').
Proof.
  assert (dict_wf rehashing_5) as Hwf by apply built_wf.
  assert (dictIsRehashing rehashing_5 = true) as Hre by reflexivity.
  assert (0 < 1 <= INT_MAX) as Hn by (vm_compute; split; [reflexivity | discriminate]).
  split; [exact Hwf |]. split; [exact Hre |]. split; [exact Hn |].
  destruct (dictRehash_progress int_hash rehashing_5 1 Hwf Hre Hn)
    as (d' & r & Heq & [(Hr & _) | (Hr & _ & Hlt & _)]).
  - exists d', r. split; [exact Heq |]. left. exact Hr.
  - exists d', r. split; [exact Heq |]. right. exact (conj Hr Hlt).
Defined.

(** A clock that advances by one millisecond at every reading. *)
Definition ticking (n : nat) : Z := Z.of_nat n.


Lemma dictDelete_removes_witness :
  dict_wf rehashing_5 /\
  exists d' r log,
    dictDelete int_hash Z.eqb true true rehashing_5 1 = Ret (d', r, log) /\
    (r = DICT_OK \/ r = DICT_ERR /\ log = []).
Proof.
  assert (dict_wf rehashing_5) as Hwf by apply built_wf.
  split; [exact Hwf |].
  destruct (dictDelete_removes int_hash Z.eqb true true rehashing_5 1 Hwf)
    as (d' & r & log & Heq & [(Hr & _) | (Hr & _ & _ & Hlog)]).
  - exists d', r, log. split; [exact Heq |]. left. exact Hr.
  - exists d', r, log. split; [exact Heq |]. right. exact (conj Hr Hlog).
Defined.

Lemma full_scan_reports_each_entry_once_witness :
  dict_wf full_4 /\ dictIsRehashing full_4 = false /\
  exists css,
    scan_to_end (S (length (table (ht0 full_4)))) full_4 0 false = Ret css /\
    fn_entries (concat css) ≡ₚ dict_entries full_4.
Proof.
  assert (dict_wf full_4) as Hwf by apply built_wf.
  assert (dictIsRehashing full_4 = false) as Hre by reflexivity.
  split_and?; try assumption.
  destruct (full_scan_reports_each_entry_once full_4 false Hwf Hre)
    as (css & Heq & Hp & _).
  exists css. exact (conj Heq Hp).
Defined.

Lemma iterator_returns_each_entry_once_witness :
  dict_wf rehashing_5 /\ size (ht0 rehashing_5) < 2 ^ 63 /\
  size (ht1 rehashing_5) < 2 ^ 63 /\ in_ulong (iterators rehashing_5) /\
  exists iter' d',
    iterate (fun _ => 0) (S (length (dict_entries rehashing_5)))
            (dictGetSafeIterator 0) rehashing_5
    = Ret (dict_entries rehashing_5, iter', d') /\
    dictReleaseIterator (fun _ => 0) iter' d' = Ret rehashing_5.
Proof.
  assert (dict_wf rehashing_5) as Hwf by apply built_wf.
  assert (size (ht0 rehashing_5) < 2 ^ 63) as H0 by reflexivity.
  assert (size (ht1 rehashing_5) < 2 ^ 63) as H1 by reflexivity.
  assert (in_ulong (iterators rehashing_5)) as Hit
    by (vm_compute; split; [discriminate | reflexivity]).
  split_and?; try assumption.
  destruct (iterator_returns_each_entry_once (fun _ => 0) true 0 rehashing_5
              Hwf H0 H1 Hit) as (iter' & d' & Heq & _ & Hrel).
  exists iter', d'. exact (conj Heq Hrel).
Defined.


End Dict.

(** ** Calls that leave a trace *)

(** A computation that records the callbacks it makes.  The trace is kept
    when the computation faults: what was called before the fault was
    called. *)
Definition traced (L A : Type) : Type := (list L * res A)%type.

Definition tret {L A} (a : A) : traced L A := ([], Ret a).
Definition tlift {L A} (m : res A) : traced L A := ([], m).
Definition tlog {L} (l : L) : traced L unit := ([l], Ret tt).
Definition tbind {L A B} (m : traced L A) (k : A -> traced L B) : traced L B :=
  match m with
  | (l, Ret a) => let '(l', r) := k a in (l ++ l', r)
  | (l, Fault) => (l, Fault)
  | (l, OutOfFuel) => (l, OutOfFuel)
  end.

Notation "x <~ m ; k" := (tbind m (fun x => k))
  (at level 20, m at level 100, k at level 200, only parsing).
Notation "' p <~ m ; k" := (tbind m (fun x => let 'p := x in k))
  (at level 20, p pattern, m at level 100, k at level 200, only parsing).

(** ** ae.c *)

Module Ae.

Definition AE_OK : Z := 0.
Definition AE_ERR : Z := -1.
Definition AE_NONE : Z := 0.
Definition AE_READABLE : Z := 1.
Definition AE_WRITABLE : Z := 2.
Definition AE_BARRIER : Z := 4.
Definition AE_NOMORE : Z := -1.
Definition AE_DELETED_EVENT_ID : Z := -1.

Section Ae.

(** [ClientData] is what the [void *clientData] of an event points to;
    [U] is the state of the program around the loop, which the callbacks
    read and change. *)
Context {ClientData U : Type}.

(** Callbacks are function pointers: an address, [0] for [NULL]. *)
Record aeFileEvent : Type := mkFileEvent {
  mask : Z;
  rfileProc : Z;
  wfileProc : Z;
  clientData : ClientData
}.

Record aeTimeEvent : Type := mkTimeEvent {
  id : Z;
  when_sec : Z;
  when_ms : Z;
  timeProc : Z;
  finalizerProc : Z;
  te_clientData : ClientData
}.

Record aeFiredEvent : Type := mkFired {
  fd : Z;
  fired_mask : Z
}.

(** [timeEventHead] is the list of the time events, head first; [events]
    and [fired] are the two arrays of [setsize] slots. *)
Record aeEventLoop : Type := mkLoop {
  maxfd : Z;
  setsize : Z;
  timeEventNextId : Z;
  lastTime : Z;
  events : list aeFileEvent;
  fired : list aeFiredEvent;
  timeEventHead : list aeTimeEvent;
  stop : Z
}.

(** The loop, the state of the surrounding program, and how many times
    the system clock has been read. *)
Record world : Type := mkWorld {
  el : aeEventLoop;
  user : U;
  reads : nat
}.

Definition set_mask (fe : aeFileEvent) (m : Z) : aeFileEvent :=
  mkFileEvent m (rfileProc fe) (wfileProc fe) (clientData fe).
Definition set_rfileProc (fe : aeFileEvent) (p : Z) : aeFileEvent :=
  mkFileEvent (mask fe) p (wfileProc fe) (clientData fe).
Definition set_wfileProc (fe : aeFileEvent) (p : Z) : aeFileEvent :=
  mkFileEvent (mask fe) (rfileProc fe) p (clientData fe).
Definition set_clientData (fe : aeFileEvent) (cd : ClientData) : aeFileEvent :=
  mkFileEvent (mask fe) (rfileProc fe) (wfileProc fe) cd.

Definition set_id (te : aeTimeEvent) (i : Z) : aeTimeEvent :=
  mkTimeEvent i (when_sec te) (when_ms te) (timeProc te) (finalizerProc te)
              (te_clientData te).
Definition set_when_sec (te : aeTimeEvent) (s : Z) : aeTimeEvent :=
  mkTimeEvent (id te) s (when_ms te) (timeProc te) (finalizerProc te)
              (te_clientData te).
Definition set_when (te : aeTimeEvent) (s ms : Z) : aeTimeEvent :=
  mkTimeEvent (id te) s ms (timeProc te) (finalizerProc te) (te_clientData te).

Definition set_el (w : world) (l : aeEventLoop) : world :=
  mkWorld l (user w) (reads w).
Definition set_user (w : world) (u : U) : world :=
  mkWorld (el w) u (reads w).
Definition tick (w : world) : world :=
  mkWorld (el w) (user w) (S (reads w)).

Definition set_events (w : world) (evs : list aeFileEvent) : world :=
  let l := el w in
  set_el w (mkLoop (maxfd l) (setsize l) (timeEventNextId l) (lastTime l) evs
                   (fired l) (timeEventHead l) (stop l)).
Definition set_maxfd (w : world) (m : Z) : world :=
  let l := el w in
  set_el w (mkLoop m (setsize l) (timeEventNextId l) (lastTime l) (events l)
                   (fired l) (timeEventHead l) (stop l)).
Definition set_timeEventNextId (w : world) (n : Z) : world :=
  let l := el w in
  set_el w (mkLoop (maxfd l) (setsize l) n (lastTime l) (events l)
                   (fired l) (timeEventHead l) (stop l)).
Definition set_lastTime (w : world) (t : Z) : world :=
  let l := el w in
  set_el w (mkLoop (maxfd l) (setsize l) (timeEventNextId l) t (events l)
                   (fired l) (timeEventHead l) (stop l)).
Definition set_timeEventHead (w : world) (tes : list aeTimeEvent) : world :=
  let l := el w in
  set_el w (mkLoop (maxfd l) (setsize l) (timeEventNextId l) (lastTime l)
                   (events l) (fired l) tes (stop l)).
Definition set_stop (w : world) (s : Z) : world :=
  let l := el w in
  set_el w (mkLoop (maxfd l) (setsize l) (timeEventNextId l) (lastTime l)
                   (events l) (fired l) (timeEventHead l) s).

(** *** The environment *)

(** The system clock: seconds and microseconds of its [n]-th reading.
    Nothing is assumed of it; it may stand still or run backwards. *)
Variable clock : nat -> Z * Z.

(** What [epoll_ctl] answers in [aeApiAddEvent]: [0] or [-1]. *)
Variable aeApiAddEvent : aeEventLoop -> Z -> Z -> Z.

(** What a callback asks of the loop, in the order it asks.  A callback
    acts on the loop through these calls only; it does not enter
    [aeProcessEvents] again, and it does not resize the arrays. *)
Inductive ae_request : Type :=
| ReqCreateFileEvent (fd m proc : Z) (cd : ClientData)
| ReqDeleteFileEvent (fd m : Z)
| ReqCreateTimeEvent (milliseconds proc : Z) (cd : ClientData) (fin : Z)
| ReqDeleteTimeEvent (tid : Z)
| ReqStop.

(** The callbacks.  The first argument is the function called; a callback
    sees the state of the program and the loop, changes the former and
    calls the API of the latter.  A time callback also returns the delay
    to its next run, or [AE_NOMORE]. *)
Variable fileProc_body :
  Z -> U -> aeEventLoop -> Z -> ClientData -> Z -> U * list ae_request.
Variable timeProc_body :
  Z -> U -> aeEventLoop -> Z -> ClientData -> U * Z * list ae_request.
Variable finalizerProc_body :
  Z -> U -> aeEventLoop -> ClientData -> U * list ae_request.

(** *** File events *)

(** [&eventLoop->events[fd]], read. *)
Definition file_event (w : world) (fd : Z) : res aeFileEvent :=
  if fd <? 0 then Fault
  else match events (el w) !! Z.to_nat fd with
       | Some fe => Ret fe
       | None => Fault
       end.

Definition set_file_event (w : world) (fd : Z) (fe : aeFileEvent) : world :=
  set_events w (<[Z.to_nat fd := fe]> (events (el w))).

Definition aeCreateFileEvent (w : world) (fd m proc : Z) (cd : ClientData)
  : res (world * Z) :=
  if setsize (el w) <=? fd then Ret (w, AE_ERR)
  else
    fe ← file_event w fd;
    if aeApiAddEvent (el w) fd m =? -1 then Ret (w, AE_ERR)
    else
      let fe := set_mask fe (Z.lor (mask fe) m) in
      let fe := if Z.land m AE_READABLE =? 0 then fe else set_rfileProc fe proc in
      let fe := if Z.land m AE_WRITABLE =? 0 then fe else set_wfileProc fe proc in
      let fe := set_clientData fe cd in
      let w := set_file_event w fd fe in
      let w := if maxfd (el w) <? fd then set_maxfd w fd else w in
      Ret (w, AE_OK).

(** [for (j = maxfd - 1; j >= 0; j--) if (events[j].mask != AE_NONE) break;]
    started with [n = maxfd]; the result is the final [j]. *)
Fixpoint max_fd_below (evs : list aeFileEvent) (n : nat) : res Z :=
  match n with
  | O => Ret (-1)
  | S j =>
    match evs !! j with
    | None => Fault
    | Some fe => if mask fe =? AE_NONE then max_fd_below evs j
                 else Ret (Z.of_nat j)
    end
  end.

Definition aeDeleteFileEvent (w : world) (fd m : Z) : res world :=
  if setsize (el w) <=? fd then Ret w
  else
    fe ← file_event w fd;
    if mask fe =? AE_NONE then Ret w
    else
      let m := if Z.land m AE_WRITABLE =? 0 then m else Z.lor m AE_BARRIER in
      let fe := set_mask fe (Z.land (mask fe) (Z.lnot m)) in
      let w := set_file_event w fd fe in
      if (fd =? maxfd (el w)) && (mask fe =? AE_NONE) then
        j ← max_fd_below (events (el w)) (Z.to_nat (maxfd (el w)));
        Ret (set_maxfd w j)
      else Ret w.

Definition aeGetFileEvents (w : world) (fd : Z) : res Z :=
  if setsize (el w) <=? fd then Ret 0
  else fe ← file_event w fd; Ret (mask fe).

Definition aeStop (w : world) : world := set_stop w 1.

(** *** The clock *)

(** [time(NULL)]. *)
Definition time_now (w : world) : Z * world :=
  (fst (clock (reads w)), tick w).

Definition aeGetTime (w : world) : Z * Z * world :=
  let '(sec, usec) := clock (reads w) in
  (sec, Z.quot usec 1000, tick w).

Definition aeAddMillisecondsToNow (milliseconds : Z) (w : world) : Z * Z * world :=
  let '(cur_sec, cur_ms, w) := aeGetTime w in
  let sec := cur_sec + Z.quot milliseconds 1000 in
  let ms := cur_ms + Z.rem milliseconds 1000 in
  if 1000 <=? ms then (sec + 1, ms - 1000, w) else (sec, ms, w).

(** *** Time events *)

Definition aeCreateTimeEvent (w : world) (milliseconds proc : Z)
    (cd : ClientData) (fin : Z) : world * Z :=
  let tid := timeEventNextId (el w) in
  let w := set_timeEventNextId w (tid + 1) in
  let '(sec, ms, w) := aeAddMillisecondsToNow milliseconds w in
  let te := mkTimeEvent tid sec ms proc fin cd in
  (set_timeEventHead w (te :: timeEventHead (el w)), tid).

(** The first event of the list with the given id gets the id
    [AE_DELETED_EVENT_ID]; [None] when there is none. *)
Fixpoint mark_deleted (tid : Z) (tes : list aeTimeEvent)
  : option (list aeTimeEvent) :=
  match tes with
  | [] => None
  | te :: rest =>
    if id te =? tid then Some (set_id te AE_DELETED_EVENT_ID :: rest)
    else match mark_deleted tid rest with
         | Some rest' => Some (te :: rest')
         | None => None
         end
  end.

Definition aeDeleteTimeEvent (w : world) (tid : Z) : world * Z :=
  match mark_deleted tid (timeEventHead (el w)) with
  | Some tes => (set_timeEventHead w tes, AE_OK)
  | None => (w, AE_ERR)
  end.

(** *** Running a callback *)

Definition exec_request (w : world) (r : ae_request) : res world :=
  match r with
  | ReqCreateFileEvent fd m proc cd =>
    '(w, _) ← aeCreateFileEvent w fd m proc cd; Ret w
  | ReqDeleteFileEvent fd m => aeDeleteFileEvent w fd m
  | ReqCreateTimeEvent ms proc cd fin =>
    Ret (fst (aeCreateTimeEvent w ms proc cd fin))
  | ReqDeleteTimeEvent tid => Ret (fst (aeDeleteTimeEvent w tid))
  | ReqStop => Ret (aeStop w)
  end.

Fixpoint run_requests (w : world) (rs : list ae_request) : res world :=
  match rs with
  | [] => Ret w
  | r :: rs => w ← exec_request w r; run_requests w rs
  end.

(** *** Dispatch of the fired file events (the [for] loop of
    [aeProcessEvents]) *)

Variant direction : Type := Readable | Writable.

(** A call of a file callback: which of the two handlers, the function
    called, its [fd] and [mask] arguments, the two handlers registered
    for the descriptor at the moment of the call, and what the callback
    asked of the loop while it ran. *)
Record file_call : Type := mkCall {
  call_kind : direction;
  call_proc : Z;
  call_fd : Z;
  call_mask : Z;
  call_rfileProc : Z;
  call_wfileProc : Z;
  call_reqs : list ae_request
}.

(** [fe->rfileProc(eventLoop, fd, fe->clientData, mask)], or the same
    with [wfileProc]. *)
Definition invoke_file_proc (k : direction) (fe : aeFileEvent) (w : world)
    (fd m : Z) : traced file_call world :=
  let proc := match k with Readable => rfileProc fe | Writable => wfileProc fe end in
  let '(u, reqs) := fileProc_body proc (user w) (el w) fd (clientData fe) m in
  ([mkCall k proc fd m (rfileProc fe) (wfileProc fe) reqs],
   run_requests (set_user w u) reqs).

(** [fe->mask & mask & bit], as a condition. *)
Definition fires (fe : aeFileEvent) (m bit : Z) : bool :=
  negb (Z.land (Z.land (mask fe) m) bit =? 0).

(** [!fired || fe->wfileProc != fe->rfileProc]. *)
Definition not_yet_fired (fe : aeFileEvent) (nfired : Z) : bool :=
  (nfired =? 0) || negb (wfileProc fe =? rfileProc fe).

(** [if (!invert && fe->mask & mask & AE_READABLE) { ... }] *)
Definition fire_readable_first (invert : Z) (w : world) (fd m nfired : Z)
  : traced file_call (world * Z) :=
  fe <~ tlift (file_event w fd);
  if (invert =? 0) && fires fe m AE_READABLE then
    w <~ invoke_file_proc Readable fe w fd m;
    tret (w, nfired + 1)
  else tret (w, nfired).

(** [if (fe->mask & mask & AE_WRITABLE) { if (!fired || ...) { ... } }] *)
Definition fire_writable (w : world) (fd m nfired : Z)
  : traced file_call (world * Z) :=
  fe <~ tlift (file_event w fd);
  if fires fe m AE_WRITABLE then
    if not_yet_fired fe nfired then
      w <~ invoke_file_proc Writable fe w fd m;
      tret (w, nfired + 1)
    else tret (w, nfired)
  else tret (w, nfired).

(** [if (invert && fe->mask & mask & AE_READABLE) { if (!fired || ...) { ... } }] *)
Definition fire_readable_inverted (invert : Z) (w : world) (fd m nfired : Z)
  : traced file_call (world * Z) :=
  fe <~ tlift (file_event w fd);
  if negb (invert =? 0) && fires fe m AE_READABLE then
    if not_yet_fired fe nfired then
      w <~ invoke_file_proc Readable fe w fd m;
      tret (w, nfired + 1)
    else tret (w, nfired)
  else tret (w, nfired).

(** The body of the loop for the descriptor [fd] fired with [m], from
    [int invert = fe->mask & AE_BARRIER] on. *)
Definition dispatch_file_event (w : world) (fd m : Z)
  : traced file_call (world * Z) :=
  fe <~ tlift (file_event w fd);
  let invert := Z.land (mask fe) AE_BARRIER in
  '(w, nfired) <~ fire_readable_first invert w fd m 0;
  '(w, nfired) <~ fire_writable w fd m nfired;
  '(w, nfired) <~ fire_readable_inverted invert w fd m nfired;
  tret (w, nfired).

(** What one round of the loop did: the descriptor and the mask it fired
    with, its registration when the round began, and the calls made. *)
Record fired_group : Type := mkGroup {
  g_fd : Z;
  g_mask : Z;
  g_registered : aeFileEvent;
  g_calls : list file_call
}.

(** Round [j] of the loop. *)
Definition process_fired_event (w : world) (j : nat)
  : list fired_group * res world :=
  match fired (el w) !! j with
  | None => ([], Fault)
  | Some ev =>
    match file_event w (fd ev) with
    | Ret fe =>
      let '(calls, r) := dispatch_file_event w (fd ev) (fired_mask ev) in
      ([mkGroup (fd ev) (fired_mask ev) fe calls],
       '(w, _) ← r; Ret w)
    | _ => ([], Fault)
    end
  end.

(** [for (; j < numevents; j++)] with [todo = numevents - j] rounds to
    go; [processed] is incremented once a round. *)
Fixpoint process_fired_from (todo : nat) (j : nat) (w : world) (processed : Z)
  : traced fired_group (world * Z) :=
  match todo with
  | O => tret (w, processed)
  | S todo =>
    w <~ process_fired_event w j;
    process_fired_from todo (S j) w (processed + 1)
  end.

Definition process_fired_events (w : world) (numevents : nat)
  : traced fired_group (world * Z) :=
  process_fired_from numevents 0 w 0.

(** *** processTimeEvents *)

(** What a pass over the time events does, in order: the calls of the
    time callbacks and of the finalizers, and the unlinking of the events
    marked deleted.  [node] says which node of the list the loop is at: the
    pointer [te], kept as the number of nodes from [te] to the end of the
    list, [te] included (see [current_index]). *)
Variant time_call : Type :=
| TimeProcCall (node : nat) (tid proc retval : Z) (reqs : list ae_request)
| Unlinked (node : nat)
| FinalizerCall (proc : Z) (reqs : list ae_request).

Definition call_requests (c : time_call) : list ae_request :=
  match c with
  | TimeProcCall _ _ _ _ reqs => reqs
  | Unlinked _ => []
  | FinalizerCall _ reqs => reqs
  end.

(** [te->timeProc(eventLoop, id, te->clientData)] *)
Definition invoke_time_proc (node : nat) (te : aeTimeEvent) (w : world)
  : traced time_call (world * Z) :=
  let '(u, retval, reqs) :=
    timeProc_body (timeProc te) (user w) (el w) (id te) (te_clientData te) in
  ([TimeProcCall node (id te) (timeProc te) retval reqs],
   w ← run_requests (set_user w u) reqs; Ret (w, retval)).

(** [te->finalizerProc(eventLoop, te->clientData)] *)
Definition invoke_finalizer (te : aeTimeEvent) (w : world)
  : traced time_call world :=
  let '(u, reqs) :=
    finalizerProc_body (finalizerProc te) (user w) (el w) (te_clientData te) in
  ([FinalizerCall (finalizerProc te) reqs], run_requests (set_user w u) reqs).

(** The first lines of [processTimeEvents]: the clock is read, every
    [when_sec] is cleared if it went backwards, [lastTime] is updated. *)
Definition detect_clock_skew (w : world) : world :=
  let '(now, w) := time_now w in
  let w :=
    if now <? lastTime (el w)
    then set_timeEventHead w
           (map (fun te => set_when_sec te 0) (timeEventHead (el w)))
    else w in
  set_lastTime w now.

(** The pointer [te] of the loop is kept as the number [remaining] of
    events from [te] to the end of the list, [te] included: callbacks add
    events at the head only and nothing but the loop unlinks one, so this
    number identifies the node whatever the callbacks do. *)
Definition current_index (w : world) (remaining : nat) : nat :=
  (length (timeEventHead (el w)) - remaining)%nat.

Definition update_time_event (w : world) (i : nat)
    (f : aeTimeEvent -> aeTimeEvent) : world :=
  set_timeEventHead w (alter f i (timeEventHead (el w))).

(** [now_sec > te->when_sec ||
     (now_sec == te->when_sec && now_ms >= te->when_ms)] *)
Definition is_due (te : aeTimeEvent) (now_sec now_ms : Z) : bool :=
  (when_sec te <? now_sec) || ((now_sec =? when_sec te) && (when_ms te <=? now_ms)).

Fixpoint time_event_loop (remaining : nat) (maxId : Z) (w : world)
    (processed : Z) : traced time_call (world * Z) :=
  match remaining with
  | O => tret (w, processed)
  | S rest =>
    let i := current_index w remaining in
    match timeEventHead (el w) !! i with
    | None => tlift Fault
    | Some te =>
      if id te =? AE_DELETED_EVENT_ID then
        let w := set_timeEventHead w (delete i (timeEventHead (el w))) in
        _ <~ tlog (Unlinked remaining);
        w <~ (if finalizerProc te =? 0 then tret w else invoke_finalizer te w);
        time_event_loop rest maxId w processed
      else if maxId <? id te then
        time_event_loop rest maxId w processed
      else
        let '(now_sec, now_ms, w) := aeGetTime w in
        if is_due te now_sec now_ms then
          '(w, retval) <~ invoke_time_proc remaining te w;
          let processed := processed + 1 in
          let i := current_index w remaining in
          let w :=
            if retval =? AE_NOMORE
            then update_time_event w i (fun te => set_id te AE_DELETED_EVENT_ID)
            else let '(sec, ms, w) := aeAddMillisecondsToNow retval w in
                 update_time_event w i (fun te => set_when te sec ms) in
          time_event_loop rest maxId w processed
        else time_event_loop rest maxId w processed
    end
  end.

Definition processTimeEvents (w : world) : traced time_call (world * Z) :=
  let w := detect_clock_skew w in
  let maxId := timeEventNextId (el w) - 1 in
  time_event_loop (length (timeEventHead (el w))) maxId w 0.

(** The event [tid] fired; a callback asked for the deletion of [tid]. *)
Definition fired_in (tid : Z) (log : list time_call) : Prop :=
  exists node proc retval reqs, In (TimeProcCall node tid proc retval reqs) log.
Definition deleted_in (tid : Z) (log : list time_call) : Prop :=
  exists c, In c log /\ In (ReqDeleteTimeEvent tid) (call_requests c).

(** *** What the loop takes for granted *)

(** The arrays have [setsize] slots and [maxfd] is an index of [events],
    or [-1]: what [aeCreateEventLoop] sets up and [aeResizeSetSize]
    keeps. *)
Definition loop_wf (l : aeEventLoop) : Prop :=
  Z.of_nat (length (events l)) = setsize l /\ maxfd l < setsize l.

(** A callback hands no negative descriptor to the API ([events[fd]] would
    be read before the array; a descriptor beyond [setsize] is refused by
    the API itself). *)
Definition request_ok (r : ae_request) : Prop :=
  match r with
  | ReqCreateFileEvent fd _ _ _ => 0 <= fd
  | ReqDeleteFileEvent fd _ => 0 <= fd
  | _ => True
  end.

(** That much is asked of the callbacks, when they are called on a well
    formed loop (and, for a file callback, with a descriptor of the
    [events] array). *)
Definition file_callbacks_in_range : Prop :=
  forall proc u l fd cd m,
    loop_wf l -> 0 <= fd < setsize l ->
    Forall request_ok (snd (fileProc_body proc u l fd cd m)).

Definition time_callbacks_in_range : Prop :=
  (forall proc u l tid cd,
     loop_wf l -> Forall request_ok (snd (timeProc_body proc u l tid cd))) /\
  (forall proc u l cd,
     loop_wf l -> Forall request_ok (snd (finalizerProc_body proc u l cd))).

(** [aeApiPoll] returned [numevents]: that many slots of [fired] are
    filled, with descriptors of the [events] array. *)
Definition fired_in_range (l : aeEventLoop) (numevents : nat) : Prop :=
  (numevents <= length (fired l))%nat /\
  Forall (fun ev => 0 <= fd ev < setsize l) (take numevents (fired l)).

(** Does the request change the registration of the descriptor [fd0]? *)
Definition touches (fd0 : Z) (r : ae_request) : bool :=
  match r with
  | ReqCreateFileEvent fd _ _ _ => fd =? fd0
  | ReqDeleteFileEvent fd _ => fd =? fd0
  | _ => false
  end.

(** The handler and the event bit of a direction; the direction served
    first and the one served second under a registered mask. *)
Definition handler (k : direction) (fe : aeFileEvent) : Z :=
  match k with Readable => rfileProc fe | Writable => wfileProc fe end.
Definition event_bit (k : direction) : Z :=
  match k with Readable => AE_READABLE | Writable => AE_WRITABLE end.
Definition first_kind (fe : aeFileEvent) : direction :=
  if Z.land (mask fe) AE_BARRIER =? 0 then Readable else Writable.
Definition second_kind (fe : aeFileEvent) : direction :=
  if Z.land (mask fe) AE_BARRIER =? 0 then Writable else Readable.

(** *** Traces *)

Lemma tbind_fst {L A B} (m : traced L A) (k : A -> traced L B) :
  fst (tbind m k) =
  fst m ++ match snd m with Ret a => fst (k a) | _ => [] end.
Proof.
  destruct m as [l [a | |]]; cbn [tbind fst snd].
  - destruct (k a); reflexivity.
  - symmetry; apply app_nil_r.
  - symmetry; apply app_nil_r.
Qed.

Lemma tbind_snd {L A B} (m : traced L A) (k : A -> traced L B) :
  snd (tbind m k) =
  match snd m with Ret a => snd (k a) | Fault => Fault | OutOfFuel => OutOfFuel end.
Proof.
  destruct m as [l [a | |]]; cbn [tbind fst snd]; try reflexivity.
  destruct (k a); reflexivity.
Qed.

Lemma tbind_eq {L A B} (m : traced L A) (k : A -> traced L B) l a l' r :
  m = (l, Ret a) -> k a = (l', r) -> tbind m k = (l ++ l', r).
Proof. intros -> H. cbn [tbind]. by rewrite H. Qed.

Lemma tbind_lift_ret {L A B} (a : A) (k : A -> traced L B) :
  tbind (tlift (Ret a)) k = k a.
Proof. unfold tlift, tbind. destruct (k a). reflexivity. Qed.

(** *** The API keeps the loop well formed *)

Lemma file_event_in_range (w : world) (fd : Z) :
  0 <= fd < Z.of_nat (length (events (el w))) ->
  exists fe, file_event w fd = Ret fe.
Proof.
  intros H. unfold file_event.
  destruct (fd <? 0) eqn:E; [apply Z.ltb_lt in E; lia |].
  destruct (lookup_lt_is_Some_2 (events (el w)) (Z.to_nat fd)) as [fe ->]; [lia |].
  by exists fe.
Qed.

Lemma file_event_ret (w : world) (fd : Z) (fe : aeFileEvent) :
  file_event w fd = Ret fe -> 0 <= fd /\ events (el w) !! Z.to_nat fd = Some fe.
Proof.
  unfold file_event. destruct (Z.ltb_spec fd 0); [discriminate |].
  destruct (_ !! _) as [x |]; [| discriminate]. intros [= ->]. done.
Qed.

(** What the requests [rs] leave as it was: the [fired] array, the size
    of the arrays, and the registration of every descriptor that none of
    them names; the loop stays well formed. *)
Definition api_effect (rs : list ae_request) (w w' : world) : Prop :=
  loop_wf (el w') /\ fired (el w') = fired (el w) /\
  setsize (el w') = setsize (el w) /\
  forall fd, 0 <= fd -> existsb (touches fd) rs = false ->
             file_event w' fd = file_event w fd.

Lemma api_effect_refl (rs : list ae_request) (w : world) :
  loop_wf (el w) -> api_effect rs w w.
Proof. intros H. by split_and!. Qed.

Lemma api_effect_app (r1 r2 : list ae_request) (w1 w2 w3 : world) :
  api_effect r1 w1 w2 -> api_effect r2 w2 w3 -> api_effect (r1 ++ r2) w1 w3.
Proof.
  intros (_ & Hf1 & Hs1 & He1) (Hw & Hf2 & Hs2 & He2). split_and!; try congruence.
  intros fd Hpos Hfd. rewrite existsb_app in Hfd.
  apply orb_false_iff in Hfd as [H1 H2]. rewrite He2, He1; done.
Qed.

Lemma set_file_event_other (w : world) (fd fd' : Z) (fe : aeFileEvent) :
  0 <= fd -> 0 <= fd' -> fd' <> fd ->
  file_event (set_file_event w fd fe) fd' = file_event w fd'.
Proof.
  intros H H' Hne. unfold file_event, set_file_event. cbn.
  destruct (fd' <? 0); [done |].
  rewrite list_lookup_insert_ne by lia. done.
Qed.

Lemma set_file_event_effect (w : world) (fd : Z) (fe : aeFileEvent) (r : ae_request) :
  loop_wf (el w) -> 0 <= fd -> touches fd r = true ->
  (forall fd', touches fd' r = true -> fd' = fd) ->
  api_effect [r] w (set_file_event w fd fe).
Proof.
  intros [Hlen Hmax] Hfd Ht Honly. split_and!; try done.
  - split; cbn; [by rewrite length_insert | done].
  - intros fd' Hpos Hno. cbn in Hno. apply orb_false_iff in Hno as [Hno _].
    apply set_file_event_other; try done. intros ->. congruence.
Qed.

Lemma touches_create (fd m proc : Z) (cd : ClientData) (fd' : Z) :
  touches fd' (ReqCreateFileEvent fd m proc cd) = true <-> fd' = fd.
Proof. cbn. rewrite Z.eqb_eq. split; congruence. Qed.

Lemma touches_delete (fd m : Z) (fd' : Z) :
  touches fd' (ReqDeleteFileEvent fd m) = true <-> fd' = fd.
Proof. cbn. rewrite Z.eqb_eq. split; congruence. Qed.

Lemma aeCreateFileEvent_wf (w : world) (fd m proc : Z) (cd : ClientData) :
  loop_wf (el w) -> 0 <= fd ->
  exists w' r, aeCreateFileEvent w fd m proc cd = Ret (w', r) /\
               api_effect [ReqCreateFileEvent fd m proc cd] w w'.
Proof.
  intros Hwf Hfd. pose proof Hwf as [Hlen Hmax]. unfold aeCreateFileEvent.
  destruct (Z.leb_spec (setsize (el w)) fd).
  { eexists _, _. split; [reflexivity | by apply api_effect_refl]. }
  destruct (file_event_in_range w fd) as [fe ->]; [lia |]. cbn [mbind res_bind].
  destruct (aeApiAddEvent (el w) fd m =? -1).
  { eexists _, _. split; [reflexivity | by apply api_effect_refl]. }
  eexists _, _. split; [reflexivity |].
  match goal with |- api_effect ?rs _ (if _ then set_maxfd ?w1 _ else _) =>
    assert (api_effect rs w w1) as (Hw1 & Hf1 & Hs1 & He1) end.
  { apply set_file_event_effect; try done; [by apply touches_create |].
    intros fd'. apply touches_create. }
  destruct (_ <? fd); [| by split_and!].
  split_and!; try done. destruct Hw1 as [? ?]. split; cbn in *; [done | lia].
Qed.

Lemma max_fd_below_ret (evs : list aeFileEvent) (n : nat) :
  (n <= length evs)%nat ->
  exists j, max_fd_below evs n = Ret j /\ -1 <= j < Z.of_nat n.
Proof.
  induction n as [| n IH]; intros Hn; cbn [max_fd_below].
  - exists (-1). split; [done | lia].
  - destruct (lookup_lt_is_Some_2 evs n) as [fe ->]; [lia |].
    destruct (mask fe =? AE_NONE).
    + destruct IH as (j & -> & Hj); [lia |]. exists j. split; [done | lia].
    + exists (Z.of_nat n). split; [done | lia].
Qed.

Lemma aeDeleteFileEvent_wf (w : world) (fd m : Z) :
  loop_wf (el w) -> 0 <= fd ->
  exists w', aeDeleteFileEvent w fd m = Ret w' /\
             api_effect [ReqDeleteFileEvent fd m] w w'.
Proof.
  intros Hwf Hfd. pose proof Hwf as [Hlen Hmax]. unfold aeDeleteFileEvent.
  destruct (Z.leb_spec (setsize (el w)) fd).
  { eexists. split; [reflexivity | by apply api_effect_refl]. }
  destruct (file_event_in_range w fd) as [fe ->]; [lia |]. cbn [mbind res_bind].
  destruct (mask fe =? AE_NONE).
  { eexists. split; [reflexivity | by apply api_effect_refl]. }
  match goal with |- context [set_file_event w fd ?fe1] =>
    set (w1 := set_file_event w fd fe1);
    assert (api_effect [ReqDeleteFileEvent fd m] w w1) as (Hw1 & Hf1 & Hs1 & He1) end.
  { apply set_file_event_effect; try done; [by apply touches_delete |].
    intros fd'. apply touches_delete. }
  destruct (_ && _) eqn:Hc; [| eexists; split; [reflexivity | by split_and!]].
  destruct (max_fd_below_ret (events (el w1)) (Z.to_nat (maxfd (el w1))))
    as (j & -> & Hj).
  { destruct Hw1 as [Hl1 Hm1]. lia. }
  cbn [mbind res_bind]. eexists. split; [reflexivity |].
  split_and!; try done. destruct Hw1 as [Hl1 Hm1]. split; cbn in *; [done |].
  apply andb_true_iff in Hc as [Hc%Z.eqb_eq _]. lia.
Qed.

Lemma aeCreateTimeEvent_effect (w : world) (ms proc : Z) (cd : ClientData) (fin : Z) :
  loop_wf (el w) ->
  api_effect [ReqCreateTimeEvent ms proc cd fin] w
             (fst (aeCreateTimeEvent w ms proc cd fin)).
Proof.
  intros Hwf. unfold aeCreateTimeEvent, aeAddMillisecondsToNow, aeGetTime.
  destruct (clock _) as [sec usec]. cbn. destruct (1000 <=? _); by split_and!.
Qed.

Lemma aeDeleteTimeEvent_effect (w : world) (tid : Z) :
  loop_wf (el w) ->
  api_effect [ReqDeleteTimeEvent tid] w (fst (aeDeleteTimeEvent w tid)).
Proof.
  intros Hwf. unfold aeDeleteTimeEvent.
  destruct (mark_deleted tid _); by split_and!.
Qed.

Lemma exec_request_wf (w : world) (r : ae_request) :
  loop_wf (el w) -> request_ok r ->
  exists w', exec_request w r = Ret w' /\ api_effect [r] w w'.
Proof.
  intros Hwf Hok. destruct r as [fd m proc cd | fd m | ms proc cd fin | tid |];
    cbn [exec_request request_ok] in *.
  - destruct (aeCreateFileEvent_wf w fd m proc cd Hwf Hok) as (w' & r & -> & Hs).
    by exists w'.
  - by apply aeDeleteFileEvent_wf.
  - eexists. split; [reflexivity |]. by apply aeCreateTimeEvent_effect.
  - eexists. split; [reflexivity |]. by apply aeDeleteTimeEvent_effect.
  - eexists. split; [reflexivity |]. by split_and!.
Qed.

Lemma run_requests_wf (rs : list ae_request) (w : world) :
  loop_wf (el w) -> Forall request_ok rs ->
  exists w', run_requests w rs = Ret w' /\ api_effect rs w w'.
Proof.
  revert w. induction rs as [| r rs IH]; intros w Hwf Hok.
  - exists w. split; [done | by apply api_effect_refl].
  - inversion Hok as [| ? ? Hr Hrs]; subst. cbn [run_requests].
    destruct (exec_request_wf w r Hwf Hr) as (w1 & -> & H1).
    cbn [mbind res_bind].
    destruct (IH w1 (proj1 H1) Hrs) as (w2 & -> & H2).
    exists w2. split; [done |]. by apply (api_effect_app [r] rs w w1 w2).
Qed.

(** *** One round of the loop over the fired descriptors *)

(** The record of a call of the handler [k] of [fe], made in [w]. *)
Definition the_call (k : direction) (fe : aeFileEvent) (w : world) (fd m : Z)
  : file_call :=
  mkCall k (handler k fe) fd m (rfileProc fe) (wfileProc fe)
         (snd (fileProc_body (handler k fe) (user w) (el w) fd (clientData fe) m)).

Lemma invoke_file_proc_wf (k : direction) (fe : aeFileEvent) (w : world) (fd m : Z) :
  loop_wf (el w) -> file_callbacks_in_range -> 0 <= fd < setsize (el w) ->
  exists w', invoke_file_proc k fe w fd m = ([the_call k fe w fd m], Ret w') /\
             api_effect (call_reqs (the_call k fe w fd m)) w w'.
Proof.
  intros Hwf Hcb Hfd. unfold invoke_file_proc, the_call. cbn [call_reqs].
  fold (handler k fe).
  pose proof (Hcb (handler k fe) (user w) (el w) fd (clientData fe) m Hwf Hfd) as Hok.
  destruct (fileProc_body _ _ _ _ _ _) as [u reqs]. cbn [snd] in *.
  destruct (run_requests_wf reqs (set_user w u) Hwf Hok) as (w' & -> & He).
  by exists w'.
Qed.

(** A guarded call: the call is made exactly when the guard holds, and
    counted. *)
Lemma guarded_call (b : bool) (k : direction) (fe : aeFileEvent)
    (w : world) (fd m n : Z) :
  loop_wf (el w) -> file_callbacks_in_range -> 0 <= fd < setsize (el w) ->
  exists w',
    (if b then w' <~ invoke_file_proc k fe w fd m; tret (w', n + 1)
     else tret (w, n))
    = ((if b then [the_call k fe w fd m] else []),
       Ret (w', if b then n + 1 else n)) /\
    api_effect (if b then call_reqs (the_call k fe w fd m) else []) w w'.
Proof.
  intros Hwf Hcb Hfd. destruct b.
  - destruct (invoke_file_proc_wf k fe w fd m Hwf Hcb Hfd) as (w' & -> & He).
    exists w'. split; [reflexivity | done].
  - exists w. split; [reflexivity | by apply api_effect_refl].
Qed.

Lemma api_effect_file_event (rs : list ae_request) (w w' : world) (fd : Z)
    (fe : aeFileEvent) :
  api_effect rs w w' -> loop_wf (el w) -> file_event w fd = Ret fe ->
  exists fe', file_event w' fd = Ret fe' /\
              (existsb (touches fd) rs = false -> fe' = fe).
Proof.
  intros (Hwf' & _ & Hs & He) Hwf Hfe.
  pose proof Hfe as [Hpos Hlk]%file_event_ret. apply lookup_lt_Some in Hlk.
  destruct (file_event_in_range w' fd) as [fe' Hfe'].
  { destruct Hwf as [Hl _], Hwf' as [Hl' _]. lia. }
  exists fe'. split; [done |]. intros Hno. rewrite (He fd Hpos Hno) in Hfe'.
  congruence.
Qed.

(** The three guarded blocks of the loop body, one after the other. *)
Lemma dispatch_shape (w : world) (fd m : Z) (fe : aeFileEvent) :
  loop_wf (el w) -> file_callbacks_in_range -> file_event w fd = Ret fe ->
  exists w1 w2 w3 fe1 fe2,
    let invert := Z.land (mask fe) AE_BARRIER in
    let b1 := (invert =? 0) && fires fe m AE_READABLE in
    let n1 := if b1 then 0 + 1 else 0 in
    let b2 := fires fe1 m AE_WRITABLE && not_yet_fired fe1 n1 in
    let n2 := if b2 then n1 + 1 else n1 in
    let b3 := negb (invert =? 0) && fires fe2 m AE_READABLE
              && not_yet_fired fe2 n2 in
    let c1 := the_call Readable fe w fd m in
    let c2 := the_call Writable fe1 w1 fd m in
    let c3 := the_call Readable fe2 w2 fd m in
    dispatch_file_event w fd m
    = ((if b1 then [c1] else []) ++ (if b2 then [c2] else [])
       ++ (if b3 then [c3] else []),
       Ret (w3, if b3 then n2 + 1 else n2)) /\
    file_event w1 fd = Ret fe1 /\ file_event w2 fd = Ret fe2 /\
    api_effect (if b1 then call_reqs c1 else []) w w1 /\
    api_effect (if b2 then call_reqs c2 else []) w1 w2 /\
    api_effect (if b3 then call_reqs c3 else []) w2 w3.
Proof.
  intros Hwf Hcb Hfe. unfold dispatch_file_event.
  rewrite Hfe, tbind_lift_ret. cbn zeta.
  set (invert := Z.land (mask fe) AE_BARRIER).
  assert (0 <= fd < setsize (el w)) as Hfd.
  { pose proof Hfe as [Hpos Hlk%lookup_lt_Some]%file_event_ret.
    destruct Hwf as [Hl _]. lia. }
  (* the read, when there is no barrier *)
  unfold fire_readable_first. rewrite Hfe, tbind_lift_ret.
  set (b1 := (invert =? 0) && fires fe m AE_READABLE).
  destruct (guarded_call b1 Readable fe w fd m 0 Hwf Hcb Hfd) as (w1 & Hrun1 & He1).
  destruct (api_effect_file_event _ _ _ _ _ He1 Hwf Hfe) as (fe1 & Hfe1 & _).
  pose proof (proj1 He1) as Hwf1.
  assert (0 <= fd < setsize (el w1)) as Hfd1
    by (destruct He1 as (_ & _ & -> & _); done).
  (* the write *)
  set (n1 := if b1 then 0 + 1 else 0) in *.
  set (b2 := fires fe1 m AE_WRITABLE && not_yet_fired fe1 n1).
  destruct (guarded_call b2 Writable fe1 w1 fd m n1 Hwf1 Hcb Hfd1)
    as (w2 & Hrun2 & He2).
  destruct (api_effect_file_event _ _ _ _ _ He2 Hwf1 Hfe1) as (fe2 & Hfe2 & _).
  pose proof (proj1 He2) as Hwf2.
  assert (0 <= fd < setsize (el w2)) as Hfd2
    by (destruct He2 as (_ & _ & -> & _); done).
  assert (fire_writable w1 fd m n1
          = ((if b2 then [the_call Writable fe1 w1 fd m] else []),
             Ret (w2, if b2 then n1 + 1 else n1))) as Hstage2.
  { unfold fire_writable. rewrite Hfe1, tbind_lift_ret. rewrite <- Hrun2.
    unfold b2. by destruct (fires fe1 m AE_WRITABLE), (not_yet_fired fe1 n1). }
  (* the read, when there is a barrier *)
  set (n2 := if b2 then n1 + 1 else n1) in *.
  set (b3 := negb (invert =? 0) && fires fe2 m AE_READABLE && not_yet_fired fe2 n2).
  destruct (guarded_call b3 Readable fe2 w2 fd m n2 Hwf2 Hcb Hfd2)
    as (w3 & Hrun3 & He3).
  assert (fire_readable_inverted invert w2 fd m n2
          = ((if b3 then [the_call Readable fe2 w2 fd m] else []),
             Ret (w3, if b3 then n2 + 1 else n2))) as Hstage3.
  { unfold fire_readable_inverted. rewrite Hfe2, tbind_lift_ret. rewrite <- Hrun3.
    unfold b3.
    by destruct (negb (invert =? 0) && fires fe2 m AE_READABLE),
                (not_yet_fired fe2 n2). }
  exists w1, w2, w3, fe1, fe2. split_and!; try done.
  erewrite tbind_eq; [reflexivity | exact Hrun1 |]. cbv beta iota.
  erewrite tbind_eq; [reflexivity | exact Hstage2 |]. cbv beta iota.
  erewrite tbind_eq; [| exact Hstage3 | reflexivity]. cbv beta iota.
  by rewrite app_nil_r.
Qed.

(** What holds of one round of the loop.  [fe] is the registration of the
    descriptor when the round begins, [k1] the direction served first
    under its mask and [k2] the other. *)
Definition turn_ok (g : fired_group) : Prop :=
  let fe := g_registered g in
  let m := g_mask g in
  let calls := g_calls g in
  let k1 := first_kind fe in
  let k2 := second_kind fe in
  sublist (map call_kind calls) [k1; k2] /\
  Forall (fun c =>
    call_fd c = g_fd g /\ call_mask c = m /\
    call_proc c = match call_kind c with
                  | Readable => call_rfileProc c
                  | Writable => call_wfileProc c
                  end) calls /\
  (if fires fe m (event_bit k1)
   then exists c rest, calls = c :: rest /\ call_kind c = k1 /\
                       call_proc c = handler k1 fe /\
                       call_rfileProc c = rfileProc fe /\
                       call_wfileProc c = wfileProc fe
   else Forall (fun c => call_kind c = k2) calls) /\
  (forall c1 c2, calls = [c1; c2] -> call_rfileProc c2 <> call_wfileProc c2) /\
  ((forall c, In c calls -> call_kind c = k1 ->
              existsb (touches (g_fd g)) (call_reqs c) = false) ->
   map (fun c => (call_kind c, call_proc c)) calls =
   (if fires fe m (event_bit k1) then [(k1, handler k1 fe)] else []) ++
   (if fires fe m (event_bit k2)
       && (negb (fires fe m (event_bit k1)) || negb (wfileProc fe =? rfileProc fe))
    then [(k2, handler k2 fe)] else [])).

Lemma not_yet_fired_0 (fe : aeFileEvent) : not_yet_fired fe 0 = true.
Proof. reflexivity. Qed.

Lemma not_yet_fired_1 (fe : aeFileEvent) :
  not_yet_fired fe (0 + 1) = negb (wfileProc fe =? rfileProc fe).
Proof. reflexivity. Qed.

Lemma not_yet_fired_differ (fe : aeFileEvent) (n : Z) :
  n <> 0 -> not_yet_fired fe n = true -> rfileProc fe <> wfileProc fe.
Proof.
  unfold not_yet_fired. intros Hn [H | H]%orb_true_iff.
  - by apply Z.eqb_eq in H.
  - apply negb_true_iff, Z.eqb_neq in H. congruence.
Qed.

Lemma dispatch_file_event_turn (w : world) (fd m : Z) (fe : aeFileEvent) :
  loop_wf (el w) -> file_callbacks_in_range -> file_event w fd = Ret fe ->
  exists calls w' n,
    dispatch_file_event w fd m = (calls, Ret (w', n)) /\
    loop_wf (el w') /\ fired (el w') = fired (el w) /\
    setsize (el w') = setsize (el w) /\
    turn_ok (mkGroup fd m fe calls).
Proof.
  intros Hwf Hcb Hfe.
  destruct (dispatch_shape w fd m fe Hwf Hcb Hfe)
    as (w1 & w2 & w3 & fe1 & fe2 & Hrun & Hfe1 & Hfe2 & He1 & He2 & He3).
  cbv zeta in Hrun, He1, He2, He3.
  eexists _, w3, _. split; [exact Hrun |].
  destruct He1 as (Hw1 & Hf1 & Hs1 & Hk1), He2 as (Hw2 & Hf2 & Hs2 & Hk2),
           He3 as (Hw3 & Hf3 & Hs3 & _).
  split_and!; try congruence.
  pose proof (proj1 (file_event_ret _ _ _ Hfe)) as Hpos.
  unfold turn_ok, first_kind, second_kind.
  cbn [g_registered g_mask g_calls g_fd].
  destruct (Z.land (mask fe) AE_BARRIER =? 0) eqn:Hinv; cbn [andb negb] in *.
  - (* no barrier: read, then write *)
    cbn [event_bit handler].
    destruct (fires fe m AE_READABLE) eqn:Hr; cbn [andb negb orb app] in *.
    + rewrite not_yet_fired_1 in *.
      destruct (fires fe1 m AE_WRITABLE && negb (wfileProc fe1 =? rfileProc fe1))
        eqn:Hb2; cbn [app map the_call call_kind call_proc] in *.
      * apply andb_true_iff in Hb2 as [Hw2' Hne%negb_true_iff%Z.eqb_neq].
        split_and!.
        -- apply sublist_skip, sublist_skip, sublist_nil.
        -- repeat (constructor; [done |]). constructor.
        -- eexists _, _. split_and!; reflexivity.
        -- intros c1 c2 [= <- <-]. cbn. congruence.
        -- intros Hno. specialize (Hno _ (or_introl eq_refl) eq_refl).
           cbn [call_reqs the_call] in Hno.
           assert (fe1 = fe) as -> by (specialize (Hk1 fd Hpos Hno); congruence).
           rewrite Hw2'. apply Z.eqb_neq in Hne. rewrite Hne. reflexivity.
      * split_and!.
        -- apply sublist_skip, sublist_cons, sublist_nil.
        -- repeat (constructor; [done |]). constructor.
        -- eexists _, _. split_and!; reflexivity.
        -- intros c1 c2 [=].
        -- intros Hno. specialize (Hno _ (or_introl eq_refl) eq_refl).
           cbn [call_reqs the_call] in Hno.
           assert (fe1 = fe) as <- by (specialize (Hk1 fd Hpos Hno); congruence).
           rewrite Hb2. reflexivity.
    + assert (fe1 = fe) as -> by (specialize (Hk1 fd Hpos eq_refl); congruence).
      rewrite not_yet_fired_0, andb_true_r in *.
      destruct (fires fe m AE_WRITABLE); cbn [app map the_call call_kind call_proc].
      * split_and!.
        -- apply sublist_cons, sublist_skip, sublist_nil.
        -- repeat (constructor; [done |]). constructor.
        -- repeat (constructor; [done |]). constructor.
        -- intros c1 c2 [=].
        -- reflexivity.
      * split_and!; [apply sublist_nil_l | constructor | constructor | intros c1 c2 [=] | reflexivity].
  - (* barrier: write, then read *)
    assert (fe1 = fe) as -> by (specialize (Hk1 fd Hpos eq_refl); congruence).
    cbn [event_bit handler]. rewrite not_yet_fired_0, andb_true_r in *.
    destruct (fires fe m AE_WRITABLE) eqn:Hwr; cbn [andb negb orb app] in *.
    + destruct (fires fe2 m AE_READABLE && not_yet_fired fe2 (0 + 1)) eqn:Hb3;
        cbn [app map the_call call_kind call_proc] in *.
      * apply andb_true_iff in Hb3 as [Hr3 Hne].
        rewrite not_yet_fired_1 in Hne. apply negb_true_iff, Z.eqb_neq in Hne.
        split_and!.
        -- apply sublist_skip, sublist_skip, sublist_nil.
        -- repeat (constructor; [done |]). constructor.
        -- eexists _, _. split_and!; reflexivity.
        -- intros c1 c2 [= <- <-]. cbn. congruence.
        -- intros Hno. specialize (Hno _ (or_introl eq_refl) eq_refl).
           cbn [call_reqs the_call] in Hno.
           assert (fe2 = fe) as -> by (specialize (Hk2 fd Hpos Hno); congruence).
           rewrite Hr3. apply Z.eqb_neq in Hne. rewrite Hne. reflexivity.
      * split_and!.
        -- apply sublist_skip, sublist_cons, sublist_nil.
        -- repeat (constructor; [done |]). constructor.
        -- eexists _, _. split_and!; reflexivity.
        -- intros c1 c2 [=].
        -- intros Hno. specialize (Hno _ (or_introl eq_refl) eq_refl).
           cbn [call_reqs the_call] in Hno.
           assert (fe2 = fe) as <- by (specialize (Hk2 fd Hpos Hno); congruence).
           rewrite not_yet_fired_1 in Hb3. rewrite Hb3. reflexivity.
    + assert (fe2 = fe) as -> by (specialize (Hk2 fd Hpos eq_refl); congruence).
      rewrite not_yet_fired_0, andb_true_r in *.
      destruct (fires fe m AE_READABLE); cbn [app map the_call call_kind call_proc].
      * split_and!.
        -- apply sublist_cons, sublist_skip, sublist_nil.
        -- repeat (constructor; [done |]). constructor.
        -- repeat (constructor; [done |]). constructor.
        -- intros c1 c2 [=].
        -- reflexivity.
      * split_and!; [apply sublist_nil_l | constructor | constructor | intros c1 c2 [=] | reflexivity].
Qed.

(** *** The pass over the fired descriptors *)

Lemma process_fired_event_turn (w : world) (j : nat) (ev : aeFiredEvent) :
  loop_wf (el w) -> file_callbacks_in_range ->
  fired (el w) !! j = Some ev -> 0 <= fd ev < setsize (el w) ->
  exists g w',
    process_fired_event w j = ([g], Ret w') /\
    loop_wf (el w') /\ fired (el w') = fired (el w) /\
    setsize (el w') = setsize (el w) /\
    g_fd g = fd ev /\ g_mask g = fired_mask ev /\
    file_event w (fd ev) = Ret (g_registered g) /\ turn_ok g.
Proof.
  intros Hwf Hcb Hev Hfd. unfold process_fired_event. rewrite Hev.
  destruct (file_event_in_range w (fd ev)) as [fe Hfe].
  { destruct Hwf as [Hl _]. lia. }
  rewrite Hfe.
  destruct (dispatch_file_event_turn w (fd ev) (fired_mask ev) fe Hwf Hcb Hfe)
    as (calls & w' & n & -> & Hwf' & Hf & Hs & Hok).
  eexists _, w'. cbn [mbind res_bind]. split; [reflexivity |]. by split_and!.
Qed.

Lemma process_fired_from_turns (todo j : nat) (w : world) (processed : Z) :
  loop_wf (el w) -> file_callbacks_in_range ->
  (j + todo <= length (fired (el w)))%nat ->
  Forall (fun ev => 0 <= fd ev < setsize (el w)) (take todo (drop j (fired (el w)))) ->
  exists groups w',
    process_fired_from todo j w processed
    = (groups, Ret (w', processed + Z.of_nat todo)) /\
    Forall2 (fun ev g => g_fd g = fd ev /\ g_mask g = fired_mask ev)
            (take todo (drop j (fired (el w)))) groups /\
    match groups with
    | g :: _ => file_event w (g_fd g) = Ret (g_registered g)
    | [] => True
    end /\
    Forall turn_ok groups.
Proof.
  revert j w processed. induction todo as [| todo IH]; intros j w processed Hwf Hcb Hlen Hin.
  - exists [], w. cbn [process_fired_from take]. split_and!; try done.
    unfold tret. do 2 f_equal. f_equal. lia.
  - destruct (lookup_lt_is_Some_2 (fired (el w)) j) as [ev Hev]; [lia |].
    rewrite (drop_S _ _ _ Hev) in *. cbn [take] in *.
    inversion Hin as [| ? ? Hfd Hrest]; subst.
    destruct (process_fired_event_turn w j ev Hwf Hcb Hev Hfd)
      as (g & w1 & Hrun & Hwf1 & Hf1 & Hs1 & Hgfd & Hgm & Hreg & Hok).
    destruct (IH (S j) w1 (processed + 1) Hwf1 Hcb) as (groups & w' & Hrest' & Hall & _ & Hoks).
    { rewrite Hf1. lia. }
    { by rewrite Hf1, Hs1. }
    exists (g :: groups), w'. cbn [process_fired_from]. split_and!.
    + erewrite tbind_eq; [| exact Hrun | exact Hrest']. cbn [app].
      do 3 f_equal. lia.
    + constructor; [done |]. by rewrite <- Hf1.
    + by rewrite Hgfd.
    + by constructor.
Qed.


(** *** Time events: what the callbacks can do to the list *)

Definition tev (w : world) : list aeTimeEvent := timeEventHead (el w).

(** An event as a callback may leave it: untouched, or marked deleted on
    a request naming its id. *)
Definition node_evolves (reqs : list ae_request) (te te' : aeTimeEvent) : Prop :=
  te' = te \/
  (te' = set_id te AE_DELETED_EVENT_ID /\ In (ReqDeleteTimeEvent (id te)) reqs).

Lemma node_evolves_refl (reqs : list ae_request) (tes : list aeTimeEvent) :
  Forall2 (node_evolves reqs) tes tes.
Proof. induction tes; constructor; [by left | done]. Qed.

Lemma node_evolves_trans (r1 r2 : list ae_request) (a b c : aeTimeEvent) :
  node_evolves r1 a b -> node_evolves r2 b c -> node_evolves (r1 ++ r2) a c.
Proof.
  intros [-> | [-> H1]] [-> | [-> H2]].
  - by left.
  - right. split; [done |]. apply in_or_app. by right.
  - right. split; [done |]. apply in_or_app. by left.
  - right. split; [done |]. apply in_or_app. by left.
Qed.

Lemma Forall2_node_evolves_trans (r1 r2 : list ae_request) (l1 l2 l3 : list aeTimeEvent) :
  Forall2 (node_evolves r1) l1 l2 -> Forall2 (node_evolves r2) l2 l3 ->
  Forall2 (node_evolves (r1 ++ r2)) l1 l3.
Proof.
  intros H. revert l3. induction H as [| a b l1 l2 Hab _ IH]; intros l3 H3.
  - inversion H3. constructor.
  - inversion H3 as [| ? c ? l3' Hbc H3']; subst. constructor.
    + eapply node_evolves_trans; eauto.
    + by apply IH.
Qed.

Lemma mark_deleted_evolves (tid : Z) (tes tes' : list aeTimeEvent) :
  mark_deleted tid tes = Some tes' ->
  Forall2 (node_evolves [ReqDeleteTimeEvent tid]) tes tes'.
Proof.
  revert tes'. induction tes as [| te rest IH]; intros tes' H; [discriminate |].
  cbn [mark_deleted] in H. destruct (id te =? tid) eqn:E.
  - apply Z.eqb_eq in E. simplify_eq. constructor.
    + right. split; [done |]. by left.
    + apply node_evolves_refl.
  - destruct (mark_deleted tid rest) as [rest' |]; [| discriminate].
    simplify_eq. constructor; [by left | by apply IH].
Qed.

Lemma mark_deleted_app (tid : Z) (pre suf : list aeTimeEvent) :
  mark_deleted tid (pre ++ suf) =
  match mark_deleted tid pre with
  | Some pre' => Some (pre' ++ suf)
  | None => match mark_deleted tid suf with
            | Some suf' => Some (pre ++ suf')
            | None => None
            end
  end.
Proof.
  induction pre as [| te pre IH]; cbn [app mark_deleted].
  - by destruct (mark_deleted tid suf).
  - destruct (id te =? tid); [done |]. rewrite IH.
    destruct (mark_deleted tid pre); [done |].
    by destruct (mark_deleted tid suf).
Qed.

Lemma aeCreateFileEvent_tev (w w' : world) (fd m proc r : Z) (cd : ClientData) :
  aeCreateFileEvent w fd m proc cd = Ret (w', r) -> tev w' = tev w.
Proof.
  unfold aeCreateFileEvent. intros H.
  destruct (setsize (el w) <=? fd); [by simplify_eq |].
  bind_case H. destruct (aeApiAddEvent (el w) fd m =? -1); [by simplify_eq |].
  simplify_eq. by destruct (maxfd _ <? fd).
Qed.

Lemma aeDeleteFileEvent_tev (w w' : world) (fd m : Z) :
  aeDeleteFileEvent w fd m = Ret w' -> tev w' = tev w.
Proof.
  unfold aeDeleteFileEvent. intros H.
  destruct (setsize (el w) <=? fd); [by simplify_eq |].
  bind_case H. destruct (mask a =? AE_NONE); [by simplify_eq |].
  destruct (_ && _).
  - bind_case H. by simplify_eq.
  - by simplify_eq.
Qed.

(** Whatever one request does, the events from any point of the list to
    its end stay in place, at most marked deleted. *)
Lemma exec_request_tev (w w' : world) (r : ae_request) (pre suf : list aeTimeEvent) :
  exec_request w r = Ret w' -> tev w = pre ++ suf ->
  exists pre' suf', tev w' = pre' ++ suf' /\ Forall2 (node_evolves [r]) suf suf'.
Proof.
  intros H Hl. destruct r as [fd m proc cd | fd m | ms proc cd fin | tid |];
    cbn [exec_request] in H.
  - bind_case H. destruct a as [w1 r1]. simplify_eq.
    apply aeCreateFileEvent_tev in E. exists pre, suf. rewrite E.
    split; [done | apply node_evolves_refl].
  - apply aeDeleteFileEvent_tev in H. exists pre, suf. rewrite H.
    split; [done | apply node_evolves_refl].
  - simplify_eq. unfold aeCreateTimeEvent, aeAddMillisecondsToNow, aeGetTime.
    destruct (clock _) as [sec usec]. cbn.
    destruct (1000 <=? _); cbn; fold (tev w); rewrite Hl;
      eexists (_ :: pre), suf; (split; [reflexivity | apply node_evolves_refl]).
  - simplify_eq. unfold aeDeleteTimeEvent. fold (tev w). rewrite Hl, mark_deleted_app.
    destruct (mark_deleted tid pre) as [pre' |].
    + exists pre', suf. split; [done | apply node_evolves_refl].
    + destruct (mark_deleted tid suf) as [suf' |] eqn:E.
      * exists pre, suf'. split; [done | by apply mark_deleted_evolves].
      * exists pre, suf. cbn. split; [done | apply node_evolves_refl].
  - simplify_eq. exists pre, suf. split; [done | apply node_evolves_refl].
Qed.

Lemma run_requests_tev (rs : list ae_request) (w w' : world) (pre suf : list aeTimeEvent) :
  run_requests w rs = Ret w' -> tev w = pre ++ suf ->
  exists pre' suf', tev w' = pre' ++ suf' /\ Forall2 (node_evolves rs) suf suf'.
Proof.
  revert w pre suf. induction rs as [| r rs IH]; intros w pre suf H Hl.
  - cbn in H. simplify_eq. exists pre, suf. split; [done | apply node_evolves_refl].
  - cbn [run_requests] in H. bind_case H.
    destruct (exec_request_tev _ _ _ _ _ E Hl) as (pre1 & suf1 & Hl1 & H1).
    destruct (IH _ _ _ H Hl1) as (pre2 & suf2 & Hl2 & H2).
    exists pre2, suf2. split; [done |].
    change (r :: rs) with ([r] ++ rs).
    eapply Forall2_node_evolves_trans; eauto.
Qed.

(** *** A pass over the time events *)

Lemma current_index_split (w : world) (pre suf : list aeTimeEvent) :
  tev w = pre ++ suf -> current_index w (length suf) = length pre.
Proof.
  unfold current_index, tev. intros ->. rewrite length_app. lia.
Qed.

Lemma deleted_in_app (tid : Z) (l1 l2 : list time_call) :
  deleted_in tid l1 \/ deleted_in tid l2 -> deleted_in tid (l1 ++ l2).
Proof.
  intros [(c & H & Hc) | (c & H & Hc)]; exists c; (split; [apply in_or_app |]); auto.
Qed.

Lemma alter_middle {A} (f : A -> A) (l1 l2 : list A) (x : A) :
  alter f (length l1) (l1 ++ x :: l2) = l1 ++ f x :: l2.
Proof. induction l1 as [| y l1 IH]; [done |]. cbn. by rewrite IH. Qed.

Lemma aeGetTime_eq (w : world) :
  aeGetTime w = (fst (clock (reads w)), Z.quot (snd (clock (reads w))) 1000, tick w).
Proof. unfold aeGetTime. by destruct (clock (reads w)). Qed.

(** After its callback the current event is rescheduled or marked
    deleted, in place. *)
Definition after_time_proc (w : world) (i : nat) (retval : Z) : world :=
  if retval =? AE_NOMORE
  then update_time_event w i (fun te => set_id te AE_DELETED_EVENT_ID)
  else let '(sec, ms, w) := aeAddMillisecondsToNow retval w in
       update_time_event w i (fun te => set_when te sec ms).

Lemma after_time_proc_tev (w : world) (retval : Z) (pre suf : list aeTimeEvent)
    (te : aeTimeEvent) :
  tev w = pre ++ te :: suf ->
  exists te', tev (after_time_proc w (length pre) retval) = (pre ++ [te']) ++ suf.
Proof.
  intros Hl. unfold after_time_proc.
  destruct (retval =? AE_NOMORE).
  - eexists. unfold update_time_event. fold (tev w). rewrite Hl, alter_middle.
    cbn. by rewrite <- app_assoc.
  - unfold aeAddMillisecondsToNow. rewrite aeGetTime_eq.
    destruct (1000 <=? _); eexists; unfold update_time_event;
      change (timeEventHead (el (tick w))) with (tev w);
      rewrite Hl, alter_middle; cbn; by rewrite <- app_assoc.
Qed.

Lemma after_time_proc_wf (w : world) (i : nat) (retval : Z) :
  loop_wf (el w) -> loop_wf (el (after_time_proc w i retval)).
Proof.
  intros Hwf. unfold after_time_proc. destruct (retval =? AE_NOMORE); [done |].
  unfold aeAddMillisecondsToNow. rewrite aeGetTime_eq. by destruct (1000 <=? _).
Qed.

Lemma invoke_time_proc_wf (node : nat) (te : aeTimeEvent) (w : world) :
  loop_wf (el w) -> time_callbacks_in_range ->
  exists u retval reqs w',
    invoke_time_proc node te w =
      ([TimeProcCall node (id te) (timeProc te) retval reqs], Ret (w', retval)) /\
    run_requests (set_user w u) reqs = Ret w' /\ loop_wf (el w').
Proof.
  intros Hwf [Hcb _]. unfold invoke_time_proc.
  pose proof (Hcb (timeProc te) (user w) (el w) (id te) (te_clientData te) Hwf)
    as Hok.
  destruct (timeProc_body _ _ _ _ _) as [[u retval] reqs]. cbn [snd] in Hok.
  destruct (run_requests_wf reqs (set_user w u) Hwf Hok) as (w' & Hrun & Hwf' & _).
  exists u, retval, reqs, w'. by rewrite Hrun.
Qed.

Lemma invoke_finalizer_wf (te : aeTimeEvent) (w : world) :
  loop_wf (el w) -> time_callbacks_in_range ->
  exists u reqs w',
    invoke_finalizer te w = ([FinalizerCall (finalizerProc te) reqs], Ret w') /\
    run_requests (set_user w u) reqs = Ret w' /\ loop_wf (el w').
Proof.
  intros Hwf [_ Hcb]. unfold invoke_finalizer.
  pose proof (Hcb (finalizerProc te) (user w) (el w) (te_clientData te) Hwf) as Hok.
  destruct (finalizerProc_body _ _ _ _) as [u reqs]. cbn [snd] in Hok.
  destruct (run_requests_wf reqs (set_user w u) Hwf Hok) as (w' & Hrun & Hwf' & _).
  exists u, reqs, w'. by rewrite Hrun.
Qed.

(** A node of the rest of the list keeps its place while a callback runs. *)
Lemma evolved_node (reqs : list ae_request) (suf suf' p s : list aeTimeEvent)
    (te : aeTimeEvent) :
  Forall2 (node_evolves reqs) suf suf' -> suf = p ++ te :: s ->
  exists p' te' s', suf' = p' ++ te' :: s' /\ length s' = length s /\
                    node_evolves reqs te te'.
Proof.
  intros H ->. apply Forall2_app_inv_l in H as (p' & k & Hp & Hk & ->).
  apply Forall2_cons_inv_l in Hk as (te' & s' & Hte & Hs & ->).
  exists p', te', s'. split_and!; try done. symmetry. by eapply Forall2_length.
Qed.

(** What the pass does at the node [te], the [node]-th from the end of
    the list: the callback of [te] is called, or [te] is unlinked because a
    call made before the loop came to it asked for its deletion. *)
Definition turn_of (log : list time_call) (te : aeTimeEvent) (node : nat) : Prop :=
  exists before rest,
    (exists retval reqs,
       log = before ++ TimeProcCall node (id te) (timeProc te) retval reqs :: rest) \/
    (log = before ++ Unlinked node :: rest /\ deleted_in (id te) before).

Lemma turn_of_later (l0 log : list time_call) (te : aeTimeEvent) (node : nat) :
  turn_of log te node -> turn_of (l0 ++ log) te node.
Proof.
  intros (before & rest & [(rv & reqs & ->) | [-> Hdel]]); exists (l0 ++ before), rest.
  - left. exists rv, reqs. by rewrite <- app_assoc.
  - right. split; [by rewrite <- app_assoc |]. apply deleted_in_app. by right.
Qed.

Lemma time_event_loop_turns :
  (forall n, 0 < fst (clock n)) -> time_callbacks_in_range ->
  forall (remaining : nat) (maxId : Z) (w : world) (processed : Z)
         (pre suf : list aeTimeEvent),
    loop_wf (el w) -> tev w = pre ++ suf -> length suf = remaining ->
    exists log w' processed',
      time_event_loop remaining maxId w processed = (log, Ret (w', processed')) /\
      forall p te s, suf = p ++ te :: s ->
        (id te = AE_DELETED_EVENT_ID ->
         exists before rest, log = before ++ Unlinked (S (length s)) :: rest) /\
        (id te <> AE_DELETED_EVENT_ID -> id te <= maxId -> when_sec te = 0 ->
         turn_of log te (S (length s))).
Proof.
  intros Hclock Hcb remaining maxId.
  induction remaining as [| rest IH]; intros w processed pre suf Hwf Hl Hlen.
  - destruct suf; [| discriminate]. exists [], w, processed. split; [done |].
    intros p te s H. by destruct p.
  - destruct suf as [| te0 suf]; [discriminate |].
    injection Hlen as Hlen.
    cbn [time_event_loop].
    assert (current_index w (S rest) = length pre) as ->.
    { rewrite <- (current_index_split w pre (te0 :: suf) Hl). cbn [length]. by rewrite Hlen. }
    fold (tev w). rewrite Hl.
    rewrite (list_lookup_middle pre suf te0 (length pre) eq_refl).
    assert (tev w = (pre ++ [te0]) ++ suf) as Hl' by (by rewrite Hl, <- app_assoc).
    (* what the rest of the pass owes to a node of [suf] that a callback
       of this round may have marked *)
    assert (forall (reqs : list ae_request) (c : time_call) (l0 log : list time_call)
              (suf2 : list aeTimeEvent),
              Forall2 (node_evolves reqs) suf suf2 ->
              In c l0 -> call_requests c = reqs ->
              (forall p te s, suf2 = p ++ te :: s ->
                 (id te = AE_DELETED_EVENT_ID ->
                  exists before rest, log = before ++ Unlinked (S (length s)) :: rest) /\
                 (id te <> AE_DELETED_EVENT_ID -> id te <= maxId -> when_sec te = 0 ->
                  turn_of log te (S (length s)))) ->
              forall p te s, suf = p ++ te :: s ->
                (id te = AE_DELETED_EVENT_ID ->
                 exists before rest,
                   l0 ++ log = before ++ Unlinked (S (length s)) :: rest) /\
                (id te <> AE_DELETED_EVENT_ID -> id te <= maxId -> when_sec te = 0 ->
                 turn_of (l0 ++ log) te (S (length s)))) as Hlater.
    { intros reqs c l0 log suf2 Hev Hc Hreqs Hall p te s Hsplit.
      destruct (evolved_node reqs suf suf2 p s te Hev Hsplit)
        as (p2 & te2 & s2 & Hsplit2 & Hlen2 & Hte).
      destruct (Hall p2 te2 s2 Hsplit2) as [Hdel Hlive]. rewrite Hlen2 in *.
      split.
      - intros Hid. destruct Hte as [-> | [-> _]].
        + destruct (Hdel Hid) as (before & rest' & ->).
          exists (l0 ++ before), rest'. by rewrite <- app_assoc.
        + destruct (Hdel eq_refl) as (before & rest' & ->).
          exists (l0 ++ before), rest'. by rewrite <- app_assoc.
      - intros Hid Hmax Hwhen. destruct Hte as [-> | [-> Hreq]].
        + apply turn_of_later. by apply Hlive.
        + destruct (Hdel eq_refl) as (before & rest' & ->).
          exists (l0 ++ before), rest'. right. split; [by rewrite <- app_assoc |].
          apply deleted_in_app. left. exists c. split; [done |]. by rewrite Hreqs. }
    destruct (id te0 =? AE_DELETED_EVENT_ID) eqn:Hdel.
    + (* a deleted event: unlinked, finalized *)
      apply Z.eqb_eq in Hdel. rewrite delete_middle.
      set (w1 := set_timeEventHead w (pre ++ suf)).
      assert (tev w1 = pre ++ suf) as Hl1 by reflexivity.
      assert (loop_wf (el w1)) as Hwf1 by done.
      destruct (finalizerProc te0 =? 0).
      * destruct (IH w1 processed pre suf Hwf1 Hl1 Hlen) as (log & w' & p' & Hrun & Hall).
        exists (Unlinked (S rest) :: log), w', p'. split.
        { cbn [tlog tbind tret]. rewrite Hrun. reflexivity. }
        intros p te s Hsplit. destruct p as [| te1 p].
        -- injection Hsplit as <- <-. split; [| congruence].
           intros _. exists [], log. by rewrite Hlen.
        -- injection Hsplit as <- Hsplit.
           destruct (Hall p te s Hsplit) as [Hd Hlive]. split.
           ++ intros Hid. destruct (Hd Hid) as (before & rest' & ->).
              by exists (Unlinked (S rest) :: before), rest'.
           ++ intros Hid Hmax Hwhen.
              by apply (turn_of_later [Unlinked (S rest)]), Hlive.
      * destruct (invoke_finalizer_wf te0 w1 Hwf1 Hcb)
          as (u & reqs & w2 & Hinv & Hreq & Hwf2).
        destruct (run_requests_tev reqs (set_user w1 u) w2 pre suf Hreq Hl1)
          as (pre2 & suf2 & Hl2 & Hev).
        assert (length suf2 = rest) as Hlen2.
        { pose proof Hev as Hlen2%Forall2_length. congruence. }
        destruct (IH w2 processed pre2 suf2 Hwf2 Hl2 Hlen2)
          as (log & w' & p' & Hrun & Hall).
        exists ([Unlinked (S rest); FinalizerCall (finalizerProc te0) reqs] ++ log),
          w', p'. split.
        { cbn [tlog tbind]. rewrite Hinv. cbn [tbind]. rewrite Hrun. reflexivity. }
        intros p te s Hsplit. destruct p as [| te1 p].
        -- injection Hsplit as <- <-. split; [| congruence].
           intros _. eexists [], _. rewrite Hlen. reflexivity.
        -- injection Hsplit as <- Hsplit.
           eapply (Hlater reqs (FinalizerCall (finalizerProc te0) reqs));
             [exact Hev | right; by left | reflexivity | exact Hall | exact Hsplit].
    + destruct (maxId <? id te0) eqn:Hnew.
      * (* created during this pass: skipped *)
        apply Z.ltb_lt in Hnew.
        destruct (IH w processed (pre ++ [te0]) suf Hwf Hl' Hlen)
          as (log & w' & p' & Hrun & Hall).
        exists log, w', p'. split; [done |].
        intros p te s Hsplit. destruct p as [| te1 p].
        -- injection Hsplit as <- <-. apply Z.eqb_neq in Hdel. split; [done | lia].
        -- injection Hsplit as <- Hsplit. exact (Hall p te s Hsplit).
      * rewrite aeGetTime_eq.
        destruct (is_due te0 _ _) eqn:Hdue.
        -- (* due: the callback runs *)
           assert (loop_wf (el (tick w))) as Hwft by done.
           destruct (invoke_time_proc_wf (S rest) te0 (tick w) Hwft Hcb)
             as (u & retval & reqs & w2 & Hinv & Hreq & Hwf2).
           destruct (run_requests_tev reqs (set_user (tick w) u) w2 pre (te0 :: suf)
                       Hreq Hl) as (pre2 & suf2' & Hl2 & Hev).
           inversion Hev as [| ? te2 ? suf2 Hte Hev' ]; subst.
           assert (length suf2 = length suf) as Hlen2.
           { pose proof Hev' as Hlen2%Forall2_length. congruence. }
           destruct (after_time_proc_tev w2 retval pre2 suf2 te2 Hl2) as (te3 & Hl3).
           pose proof (after_time_proc_wf w2 (length pre2) retval Hwf2) as Hwf3.
           destruct (IH _ (processed + 1) _ _ Hwf3 Hl3 Hlen2)
             as (log & w' & p' & Hrun & Hall).
           exists ([TimeProcCall (S (length suf)) (id te0) (timeProc te0) retval reqs]
                   ++ log), w', p'. split.
           { eapply tbind_eq; [exact Hinv |]. cbv beta iota zeta.
             assert (current_index w2 (S (length suf)) = length pre2) as ->.
             { rewrite <- (current_index_split w2 pre2 (te2 :: suf2) Hl2).
               cbn [length]. by rewrite Hlen2. }
             exact Hrun. }
           intros p te s Hsplit. destruct p as [| te1 p].
           ++ injection Hsplit as <- <-. apply Z.eqb_neq in Hdel. split; [done |].
              intros _ _ _. exists [], log. left. by exists retval, reqs.
           ++ injection Hsplit as <- Hsplit.
              eapply (Hlater reqs (TimeProcCall (S (length suf)) (id te0) (timeProc te0)
                                                retval reqs));
                [exact Hev' | by left | reflexivity | exact Hall | exact Hsplit].
        -- (* not due *)
           assert (loop_wf (el (tick w))) as Hwft by done.
           destruct (IH (tick w) processed (pre ++ [te0]) suf Hwft Hl' Hlen)
             as (log & w' & p' & Hrun & Hall).
           exists log, w', p'. split; [done |].
           intros p te s Hsplit. destruct p as [| te1 p].
           ++ injection Hsplit as <- <-. apply Z.eqb_neq in Hdel. split; [done |].
              intros _ _ Hwhen. exfalso. unfold is_due in Hdue. rewrite Hwhen in Hdue.
              specialize (Hclock (reads w)).
              apply orb_false_iff in Hdue as [Hdue _]. apply Z.ltb_ge in Hdue. lia.
           ++ injection Hsplit as <- Hsplit. exact (Hall p te s Hsplit).
Qed.

Lemma detect_clock_skew_spec (w : world) :
  fst (clock (reads w)) < lastTime (el w) ->
  tev (detect_clock_skew w) = map (fun te => set_when_sec te 0) (tev w) /\
  timeEventNextId (el (detect_clock_skew w)) = timeEventNextId (el w) /\
  lastTime (el (detect_clock_skew w)) = fst (clock (reads w)).
Proof.
  intros Hskew. unfold detect_clock_skew, time_now.
  apply Z.ltb_lt in Hskew. cbn. rewrite Hskew. done.
Qed.

Lemma detect_clock_skew_wf (w : world) :
  loop_wf (el w) -> loop_wf (el (detect_clock_skew w)).
Proof.
  intros Hwf. unfold detect_clock_skew, time_now. cbn.
  by destruct (_ <? _).
Qed.

(** C7. If the clock read at the start of [processTimeEvents] is earlier
    than [lastTime], every time event gets [when_sec = 0] and the pass
    returns.  Every event of the list that is not marked deleted and whose
    id is at most [maxId] has its turn in the pass, and at its turn its
    callback is called, unless a call made earlier in the same pass asked
    for its deletion: then it is unlinked instead.  So an event that no
    call of the pass asks to delete fires.  The turn of an event is
    told by the number of the node, counted from the end of the list.
    The clock is taken to be after the epoch ([0 < seconds]), the arrays of
    the loop to be as [aeCreateEventLoop] made them, and the callbacks to
    hand no negative descriptor to the API. *)
Theorem clock_skew_fires_all (w : world) :
  (forall n, 0 < fst (clock n)) ->
  loop_wf (el w) -> time_callbacks_in_range ->
  fst (clock (reads w)) < lastTime (el w) ->
  Forall (fun te => when_sec te = 0) (timeEventHead (el (detect_clock_skew w))) /\
  lastTime (el (detect_clock_skew w)) = fst (clock (reads w)) /\
  exists log w' processed,
    processTimeEvents w = (log, Ret (w', processed)) /\
    forall pre te suf,
      timeEventHead (el w) = pre ++ te :: suf ->
      id te <> AE_DELETED_EVENT_ID ->
      id te <= timeEventNextId (el w) - 1 ->
      (exists before rest,
         (exists retval reqs,
            log = before
                  ++ TimeProcCall (S (length suf)) (id te) (timeProc te) retval reqs
                  :: rest) \/
         (log = before ++ Unlinked (S (length suf)) :: rest /\
          deleted_in (id te) before)) /\
      (~ deleted_in (id te) log -> fired_in (id te) log).
Proof.
  intros Hclock Hwf Hcb Hskew.
  destruct (detect_clock_skew_spec w Hskew) as (Htev & Hnext & Hlast).
  fold (tev (detect_clock_skew w)). fold (tev w).
  split; [| split; [exact Hlast |]].
  - rewrite Htev. apply Forall_forall. intros te (te0 & <- & _)%in_map_iff.
    reflexivity.
  - unfold processTimeEvents. cbn zeta.
    destruct (time_event_loop_turns Hclock Hcb
                (length (tev (detect_clock_skew w)))
                (timeEventNextId (el (detect_clock_skew w)) - 1)
                (detect_clock_skew w) 0 [] (tev (detect_clock_skew w))
                (detect_clock_skew_wf w Hwf) eq_refl eq_refl)
      as (log & w' & p' & Hrun & Hall).
    exists log, w', p'. split; [exact Hrun |].
    intros pre te suf Hsplit Hid Hmax.
    destruct (Hall (map (fun te => set_when_sec te 0) pre) (set_when_sec te 0)
                   (map (fun te => set_when_sec te 0) suf)) as [_ Hturn].
    { rewrite Htev, Hsplit, map_app. reflexivity. }
    rewrite length_map in Hturn. rewrite Hnext in Hturn.
    specialize (Hturn Hid Hmax eq_refl).
    split; [exact Hturn |].
    intros Hno. destruct Hturn as (before & rest & [(rv & reqs & ->) | [-> Hdel]]).
    + exists (S (length suf)), (timeProc te), rv, reqs.
      apply in_or_app. right. by left.
    + destruct Hno. apply deleted_in_app. by left.
Qed.

End Ae.

(** *** A loop with four descriptors and three timers *)

Definition demo_clock (n : nat) : Z * Z := (1000 + Z.of_nat n, 0).

Definition demo_epoll_ctl (l : @aeEventLoop unit) (fd m : Z) : Z := 0.

(** File handlers: [3] reads; [4] writes and then removes itself; [5]
    serves both directions; [6] serves both directions and installs [3]
    as the read handler when it runs. *)
Definition demo_fileProc (proc : Z) (u : unit) (l : @aeEventLoop unit)
    (fd : Z) (cd : unit) (m : Z) : unit * list (@ae_request unit) :=
  if proc =? 4 then (u, [ReqDeleteFileEvent fd AE_WRITABLE])
  else if proc =? 6 then (u, [ReqCreateFileEvent fd AE_READABLE 3 cd])
  else (u, []).

(** Time handlers: [1] runs every 100 ms; [2] runs once and creates a
    timer; [7] runs once and deletes the timer 0; any other runs once. *)
Definition demo_timeProc (proc : Z) (u : unit) (l : @aeEventLoop unit)
    (tid : Z) (cd : unit) : unit * Z * list (@ae_request unit) :=
  if proc =? 1 then (u, 100, [])
  else if proc =? 2 then (u, AE_NOMORE, [ReqCreateTimeEvent 5 1 cd 0])
  else if proc =? 7 then (u, AE_NOMORE, [ReqDeleteTimeEvent 0])
  else (u, AE_NOMORE, []).

Definition demo_finalizer (proc : Z) (u : unit) (l : @aeEventLoop unit)
    (cd : unit) : unit * list (@ae_request unit) := (u, []).

Definition demo_events : list (@aeFileEvent unit) :=
  [ mkFileEvent 3 3 4 tt;   (* readable, writable *)
    mkFileEvent 7 3 4 tt;   (* readable, writable, barrier *)
    mkFileEvent 3 5 5 tt;   (* one handler for both *)
    mkFileEvent 3 6 6 tt ]. (* one handler for both, replaced on the way *)

(** All four descriptors fired readable and writable; the clock was at
    1030 at the previous pass and now reads 1000; two timers are due at
    1040, one is marked deleted. *)
Definition demo_world : @world unit unit :=
  mkWorld
    (mkLoop 3 4 3 1030 demo_events
            [mkFired 0 3; mkFired 1 3; mkFired 2 3; mkFired 3 3]
            [ mkTimeEvent 2 1040 0 2 0 tt;
              mkTimeEvent AE_DELETED_EVENT_ID 1035 0 1 9 tt;
              mkTimeEvent 0 1040 500 1 0 tt ]
            0)
    tt 0.

(** The same loop with two timers: timer 1, at the head of the list,
    deletes timer 0 when it runs. *)
Definition cancelling_world : @world unit unit :=
  mkWorld
    (mkLoop 3 4 2 1030 demo_events []
            [ mkTimeEvent 1 1040 0 7 0 tt;
              mkTimeEvent 0 1040 500 1 0 tt ]
            0)
    tt 0.

(** The calls of a pass over the four descriptors: read then write;
    with the barrier, write then read; the shared handler once; the
    handler that replaces the read handler during its call is called a
    second time, as the write handler. *)
Lemma replaced_handler_called_twice :
  map (fun g => map (fun c => (call_kind c, call_proc c)) (g_calls g))
      (fst (process_fired_events demo_clock demo_epoll_ctl demo_fileProc demo_world 4)) =
  [ [(Readable, 3); (Writable, 4)];
    [(Writable, 4); (Readable, 3)];
    [(Readable, 5)];
    [(Readable, 6); (Writable, 6)] ].
Proof. vm_compute. reflexivity. Qed.


Lemma demo_loop_wf : loop_wf (el demo_world).
Proof. split; reflexivity. Qed.

Lemma demo_file_callbacks_in_range :
  file_callbacks_in_range demo_fileProc.
Proof.
  intros proc u l fd cd m _ [Hfd _]. unfold demo_fileProc.
  destruct (proc =? 4); [by repeat constructor |].
  destruct (proc =? 6); by repeat constructor.
Qed.

Lemma demo_fired_in_range : fired_in_range (el demo_world) 4.
Proof.
  split; [cbn; lia |]. cbn.
  repeat (constructor; [cbn; lia |]). constructor.
Qed.

Lemma demo_time_callbacks_in_range :
  time_callbacks_in_range demo_timeProc demo_finalizer.
Proof.
  split.
  - intros proc u l tid cd _. unfold demo_timeProc.
    destruct (proc =? 1); [constructor |].
    destruct (proc =? 2); [by repeat constructor |].
    destruct (proc =? 7); by repeat constructor.
  - intros proc u l cd _. constructor.
Qed.

Lemma demo_clock_positive (n : nat) : 0 < fst (demo_clock n).
Proof. cbn. lia. Qed.


(** C7 does not hold as stated: the clock went backwards, timer 0 is in
    the list, not marked deleted, with an id below the snapshot, and the
    pass ends without having called it: timer 1, served first, deleted
    it. *)
Lemma cancelled_timer_counterexample :
  fst (demo_clock (reads cancelling_world)) < lastTime (el cancelling_world) /\
  (exists te, In te (timeEventHead (el cancelling_world)) /\ id te = 0 /\
              id te <> AE_DELETED_EVENT_ID /\
              id te <= timeEventNextId (el cancelling_world) - 1) /\
  fst (processTimeEvents demo_clock demo_epoll_ctl demo_timeProc demo_finalizer
                         cancelling_world)
  = [ TimeProcCall 2 1 7 AE_NOMORE [ReqDeleteTimeEvent 0]; Unlinked 1 ] /\
  ~ fired_in 0 (fst (processTimeEvents demo_clock demo_epoll_ctl demo_timeProc
                                       demo_finalizer cancelling_world)).
Proof.
  split; [reflexivity |]. split.
  { eexists. split; [right; left; reflexivity |]. cbn. split_and!; [done | done | lia]. }
  assert (fst (processTimeEvents demo_clock demo_epoll_ctl demo_timeProc demo_finalizer
                                 cancelling_world)
          = [ TimeProcCall 2 1 7 AE_NOMORE [ReqDeleteTimeEvent 0]; Unlinked 1 ]) as Hlog
    by (vm_compute; reflexivity).
  split; [exact Hlog |]. rewrite Hlog.
  intros (node & proc & rv & reqs & [H | [H | []]]); discriminate H.
Qed.

Lemma clock_skew_fires_all_witness :
  loop_wf (el demo_world) /\
  fst (demo_clock (reads demo_world)) < lastTime (el demo_world) /\
  Forall (fun te => when_sec te = 0)
         (timeEventHead (el (detect_clock_skew demo_clock demo_world))) /\
  exists log w' processed,
    processTimeEvents demo_clock demo_epoll_ctl demo_timeProc demo_finalizer
                      demo_world = (log, Ret (w', processed)) /\
    fired_in 2 log /\ fired_in 0 log.
Proof.
  assert (fst (demo_clock (reads demo_world)) < lastTime (el demo_world)) as Hskew
    by reflexivity.
  destruct (clock_skew_fires_all demo_clock demo_epoll_ctl demo_timeProc
              demo_finalizer demo_world demo_clock_positive demo_loop_wf
              demo_time_callbacks_in_range Hskew)
    as (Hzero & _ & log & w' & processed & Hrun & Hfires).
  split; [exact demo_loop_wf |]. split; [exact Hskew |]. split; [exact Hzero |].
  exists log, w', processed. split; [exact Hrun |].
  assert (log = [ TimeProcCall 3 2 2 AE_NOMORE [ReqCreateTimeEvent 5 1 tt 0];
                  Unlinked 2; FinalizerCall 9 [];
                  TimeProcCall 1 0 1 100 [] ]) as Hlog.
  { assert (fst (processTimeEvents demo_clock demo_epoll_ctl demo_timeProc
                                   demo_finalizer demo_world) = log) as <-
      by (by rewrite Hrun).
    vm_compute. reflexivity. }
  assert (forall tid, ~ deleted_in tid log) as Hnodel.
  { intros tid (c & Hin & Hreq). rewrite Hlog in Hin.
    destruct Hin as [<- | [<- | [<- | [<- | []]]]]; cbn in Hreq;
      repeat (destruct Hreq as [Hreq | Hreq]; try discriminate Hreq); done. }
  split.
  - destruct (Hfires [] (mkTimeEvent 2 1040 0 2 0 tt)
                [mkTimeEvent AE_DELETED_EVENT_ID 1035 0 1 9 tt;
                 mkTimeEvent 0 1040 500 1 0 tt] eq_refl) as [_ H];
      [discriminate | cbn; lia |]. exact (H (Hnodel _)).
  - destruct (Hfires [mkTimeEvent 2 1040 0 2 0 tt;
                      mkTimeEvent AE_DELETED_EVENT_ID 1035 0 1 9 tt]
                (mkTimeEvent 0 1040 500 1 0 tt) [] eq_refl) as [_ H];
      [discriminate | cbn; lia |]. exact (H (Hnodel _)).
Defined.

(** The same pass, computed: both timers run although they were due 40 s
    later, the deleted one is unlinked and finalized. *)
Lemma demo_time_pass :
  fst (processTimeEvents demo_clock demo_epoll_ctl demo_timeProc demo_finalizer
                         demo_world) =
  [ TimeProcCall 3 2 2 AE_NOMORE [ReqCreateTimeEvent 5 1 tt 0];
    Unlinked 2;
    FinalizerCall 9 [];
    TimeProcCall 1 0 1 100 [] ].
Proof. vm_compute. reflexivity. Qed.

End Ae.

(** ** lazyfree.c *)

Module LazyFree.

Definition LAZYFREE_THRESHOLD : Z := 64.

(** bio.h *)
Definition BIO_LAZY_FREE : Z := 2.

Section LazyFree.

(** [K] is the type of the keys of a database, [E] the type of the members
    of a set or hash value. *)
Context {K E : Type}.

(** The object types and encodings of [server.h], a file that is not
    among the sources: six numbers, about which nothing is assumed. *)
Variables OBJ_LIST OBJ_SET OBJ_ZSET OBJ_HASH : Z.
Variables OBJ_ENCODING_HT OBJ_ENCODING_SKIPLIST : Z.

(** The type descriptors of [db->dict] and [db->expires], also of
    [server.c]: hash function, key comparison, and whether there is a key
    and a value destructor. *)
Variable dbHash : K -> Z.
Variable dbCompare : K -> K -> bool.
Variables dbKeyDestructor dbValDestructor : bool.
Variable expiresHash : K -> Z.
Variable expiresCompare : K -> K -> bool.
Variables expiresKeyDestructor expiresValDestructor : bool.

(** What [time(NULL)] returns when a job is created. *)
Variable now : Z.

(** What the [ptr] of an object points to. *)
Inductive payload : Type :=
| Quicklist (len : Z)
| HashTable (ht : @Dict.dict E E)
| SortedSet (zsl_length : Z)
| OtherData.

Record robj : Type := mkObj {
  type : Z;
  encoding : Z;
  refcount : Z;
  ptr : payload
}.

Record redisDb : Type := mkDb {
  dict : @Dict.dict K robj;
  expires : @Dict.dict K Z
}.

(** An argument of a background job: [NULL] or an object. *)
Variant bio_arg : Type :=
| NullArg
| ObjArg (o : robj).

Record bio_job : Type := mkJob {
  job_time : Z;
  arg1 : bio_arg;
  arg2 : bio_arg;
  arg3 : bio_arg
}.

(** The globals the functions touch: the counter of lazyfree.c, the job
    queues and counters of bio.c (arrays indexed by the job type), and
    [server.cluster_enabled]. *)
Record server : Type := mkServer {
  lazyfree_objects : Z;
  bio_jobs : Z -> list bio_job;
  bio_pending : Z -> Z;
  cluster_enabled : bool
}.

(** What a deletion did besides changing the database: the destructor
    calls of [dictDelete] on the TTL dictionary, those of
    [dictFreeUnlinkedEntry] on the unlinked entry, and the key handed to
    [slotToKeyDel], if any. *)
Record delete_effects : Type := mkEffects {
  expires_frees : list (@Dict.free_event K Z);
  entry_frees : list (@Dict.free_event K robj);
  slot_key_del : option K
}.

Definition lazyfreeGetPendingObjectsCount (s : server) : Z := lazyfree_objects s.

(** Reading [ql->len], [dictSize(ht)] or [zs->zsl->length] through a
    pointer to something else is a fault. *)
Definition lazyfreeGetFreeEffort (obj : robj) : res Z :=
  if type obj =? OBJ_LIST then
    match ptr obj with Quicklist len => Ret len | _ => Fault end
  else if (type obj =? OBJ_SET) && (encoding obj =? OBJ_ENCODING_HT) then
    match ptr obj with HashTable ht => Ret (Dict.dictSize ht) | _ => Fault end
  else if (type obj =? OBJ_ZSET) && (encoding obj =? OBJ_ENCODING_SKIPLIST) then
    match ptr obj with SortedSet len => Ret len | _ => Fault end
  else if (type obj =? OBJ_HASH) && (encoding obj =? OBJ_ENCODING_HT) then
    match ptr obj with HashTable ht => Ret (Dict.dictSize ht) | _ => Fault end
  else Ret 1.

(** [atomicIncr(lazyfree_objects, 1)] on a [size_t]. *)
Definition incr_lazyfree_objects (s : server) : server :=
  mkServer (to_ulong (lazyfree_objects s + 1)) (bio_jobs s) (bio_pending s)
           (cluster_enabled s).

(** bio.c: the job is appended to the queue of its type. *)
Definition bioCreateBackgroundJob (s : server) (ty : Z) (a1 a2 a3 : bio_arg)
  : server :=
  let job := mkJob now a1 a2 a3 in
  mkServer (lazyfree_objects s)
           (fun t => if t =? ty then bio_jobs s t ++ [job] else bio_jobs s t)
           (fun t => if t =? ty then to_ulong (bio_pending s t + 1)
                     else bio_pending s t)
           (cluster_enabled s).

(** [dictSetVal(db->dict, de, NULL)] on an entry that is no longer in the
    table. *)
Definition dictSetVal_unlinked (de : @Dict.dictEntry K robj) (v : option robj)
  : @Dict.dictEntry K robj :=
  Dict.mkEntry (Dict.key de) v.

Definition dbAsyncDelete (s : server) (db : redisDb) (key : K)
  : res (server * redisDb * Z * delete_effects) :=
  '(ex, ex_log) ←
    (if 0 <? Dict.dictSize (expires db) then
       '(ex, _, log) ← Dict.dictDelete expiresHash expiresCompare
                          expiresKeyDestructor expiresValDestructor
                          (expires db) key;
       Ret (ex, log)
     else Ret (expires db, []));
  '(d, de) ← Dict.dictUnlink dbHash dbCompare dbKeyDestructor dbValDestructor
                (dict db) key;
  match de with
  | Some de =>
    val ← match Dict.val de with Some v => Ret v | None => Fault end;
    free_effort ← lazyfreeGetFreeEffort val;
    let '(s, de) :=
      if (LAZYFREE_THRESHOLD <? free_effort) && (refcount val =? 1) then
        (bioCreateBackgroundJob (incr_lazyfree_objects s) BIO_LAZY_FREE
                                (ObjArg val) NullArg NullArg,
         dictSetVal_unlinked de None)
      else (s, de) in
    Ret (s, mkDb d ex, 1,
         mkEffects ex_log
           (Dict.dictFreeUnlinkedEntry dbKeyDestructor dbValDestructor (Some de))
           (if cluster_enabled s then Some key else None))
  | None => Ret (s, mkDb d ex, 0, mkEffects ex_log [] None)
  end.

(** [decrRefCount(o)], called at once. *)
Variant object_call : Type := DecrRefCount (o : robj).

Definition freeObjAsync (s : server) (o : robj) : res (server * list object_call) :=
  free_effort ← lazyfreeGetFreeEffort o;
  if (LAZYFREE_THRESHOLD <? free_effort) && (refcount o =? 1) then
    Ret (bioCreateBackgroundJob (incr_lazyfree_objects s) BIO_LAZY_FREE
                                (ObjArg o) NullArg NullArg, [])
  else Ret (s, [DecrRefCount o]).

(** The object [v] was appended to the queue of the lazy-free thread. *)
Definition offloaded (s s' : server) (v : robj) : Prop :=
  bio_jobs s' BIO_LAZY_FREE =
  bio_jobs s BIO_LAZY_FREE ++ [mkJob now (ObjArg v) NullArg NullArg].

(** *** The decision of [dbAsyncDelete] *)

Lemma offloaded_not_same (s : server) (v : robj) : ~ offloaded s s v.
Proof.
  unfold offloaded. intros H. apply (f_equal length) in H.
  rewrite length_app in H. cbn in H. lia.
Qed.

Lemma bioCreateBackgroundJob_offloaded (s : server) (v : robj) :
  offloaded s (bioCreateBackgroundJob (incr_lazyfree_objects s) BIO_LAZY_FREE
                                      (ObjArg v) NullArg NullArg) v.
Proof. unfold offloaded. cbn. reflexivity. Qed.


(** [freeObjAsync] takes the same decision for an object that is in no
    dictionary: queued if [effort > 64] and the reference count is 1,
    [decrRefCount] at once otherwise. *)
Theorem freeObjAsync_threshold (s : server) (o : robj) (effort : Z) :
  lazyfreeGetFreeEffort o = Ret effort ->
  exists s' calls,
    freeObjAsync s o = Ret (s', calls) /\
    (offloaded s s' o <-> LAZYFREE_THRESHOLD < effort /\ refcount o = 1) /\
    (offloaded s s' o -> calls = []) /\
    (~ offloaded s s' o -> s' = s /\ calls = [DecrRefCount o]).
Proof.
  intros Heff. unfold freeObjAsync. rewrite Heff. cbn [mbind res_bind].
  destruct ((LAZYFREE_THRESHOLD <? effort) && (refcount o =? 1)) eqn:Hc.
  - apply andb_true_iff in Hc as [Hc1%Z.ltb_lt Hc2%Z.eqb_eq].
    eexists _, _. split; [reflexivity |].
    pose proof (bioCreateBackgroundJob_offloaded s o) as Hoff.
    split_and!; done.
  - eexists _, _. split; [reflexivity |].
    pose proof (offloaded_not_same s o) as Hno.
    assert (~ (LAZYFREE_THRESHOLD < effort /\ refcount o = 1)) as Hnc.
    { intros [H1%Z.ltb_lt H2%Z.eqb_eq]. rewrite H1, H2 in Hc. discriminate. }
    split_and!; done.
Qed.

End LazyFree.

(** *** A database with four lists *)

(** The constants of [server.h] in Redis. *)
Definition OBJ_LIST : Z := 1.
Definition OBJ_SET : Z := 2.
Definition OBJ_ZSET : Z := 3.
Definition OBJ_HASH : Z := 4.
Definition OBJ_ENCODING_HT : Z := 2.
Definition OBJ_ENCODING_QUICKLIST : Z := 9.
Definition OBJ_ENCODING_SKIPLIST : Z := 7.

Definition list_object (len refs : Z) : @robj Z :=
  mkObj OBJ_LIST OBJ_ENCODING_QUICKLIST refs (Quicklist len).

(** Key 1: a list of 100 elements; key 2: of 3 elements; key 3: of 100
    elements, held by someone else too; key 4: of exactly 64 elements.
    Key 1 has a TTL. *)
Definition demo_db : @redisDb Z Z :=
  mkDb (Dict.built true [Dict.OpAdd 1 (list_object 100 1);
                         Dict.OpAdd 2 (list_object 3 1);
                         Dict.OpAdd 3 (list_object 100 2);
                         Dict.OpAdd 4 (list_object 64 1)])
       (Dict.built true [Dict.OpAdd 1 1700000100]).

Definition demo_server : @server Z :=
  mkServer 0 (fun _ => []) (fun _ => 0) false.

Definition demo_delete (key : Z)
  : res (@server Z * @redisDb Z Z * Z * @delete_effects Z Z) :=
  dbAsyncDelete OBJ_LIST OBJ_SET OBJ_ZSET OBJ_HASH OBJ_ENCODING_HT
                OBJ_ENCODING_SKIPLIST Dict.int_hash Z.eqb true true
                Dict.int_hash Z.eqb false false 1700000000
                demo_server demo_db key.

(** The return value, the jobs queued for the lazy-free thread, the
    counter of pending objects and the values seen by the value
    destructor. *)
Definition demo_outcome (key : Z)
  : option (Z * list (@bio_job Z) * Z * list (option (@robj Z))) :=
  match demo_delete key with
  | Ret (s, _, r, fx) =>
    Some (r, bio_jobs s BIO_LAZY_FREE, lazyfree_objects s,
          flat_map (fun ev => match ev with
                              | Dict.ValDestructor v => [v]
                              | _ => []
                              end) (entry_frees fx))
  | _ => None
  end.

Lemma demo_large_is_offloaded :
  demo_outcome 1 =
  Some (1, [mkJob 1700000000 (ObjArg (list_object 100 1)) NullArg NullArg], 1,
        [None]).
Proof. vm_compute. reflexivity. Qed.

Lemma demo_small_is_freed_inline :
  demo_outcome 2 = Some (1, [], 0, [Some (list_object 3 1)]).
Proof. vm_compute. reflexivity. Qed.

Lemma demo_shared_is_freed_inline :
  demo_outcome 3 = Some (1, [], 0, [Some (list_object 100 2)]).
Proof. vm_compute. reflexivity. Qed.

Lemma demo_threshold_is_strict :
  demo_outcome 4 = Some (1, [], 0, [Some (list_object 64 1)]).
Proof. vm_compute. reflexivity. Qed.

Lemma demo_absent_key : demo_outcome 9 = Some (0, [], 0, []).
Proof. vm_compute. reflexivity. Qed.

Lemma freeObjAsync_threshold_witness :
  lazyfreeGetFreeEffort OBJ_LIST OBJ_SET OBJ_ZSET OBJ_HASH OBJ_ENCODING_HT
                        OBJ_ENCODING_SKIPLIST (list_object 100 1) = Ret 100 /\
  exists s' calls,
    freeObjAsync OBJ_LIST OBJ_SET OBJ_ZSET OBJ_HASH OBJ_ENCODING_HT
                 OBJ_ENCODING_SKIPLIST 1700000000 demo_server (list_object 100 1)
    = Ret (s', calls) /\
    offloaded 1700000000 demo_server s' (list_object 100 1) /\ calls = [].
Proof.
  split; [reflexivity |].
  destruct (freeObjAsync_threshold OBJ_LIST OBJ_SET OBJ_ZSET OBJ_HASH
              OBJ_ENCODING_HT OBJ_ENCODING_SKIPLIST 1700000000 demo_server
              (list_object 100 1) 100 eq_refl)
    as (s' & calls & Hrun & Hiff & Hq & _).
  assert (offloaded 1700000000 demo_server s' (list_object 100 1)) as Hoff
    by (apply Hiff; split; reflexivity).
  exists s', calls. exact (conj Hrun (conj Hoff (Hq Hoff))).
Defined.


End LazyFree.
